(** * SachengRSS: feed ingestion, batch import and refresh merge

    A shallow embedding of the feed-ingestion core of the reader
    ([lib/rssParser.ts] and [hooks/useRSS.ts]) together with the
    properties its specification states about it. Part I is the
    program, Part II holds the statements of the specification, and
    Part III further properties of the same code, of the handler of
    [App.tsx] that opens an article, and of two helpers beside it
    ([getAIConfig] of [lib/translation.ts] and [escapeXml] of
    [lib/opmlParser.ts]).

    Conventions.
    - A JavaScript string is a [string] holding the text in UTF-8, as
      the literals of this file do: a character outside ASCII takes
      more than one [ascii]. Equality, concatenation, prefixes and
      suffixes are those of the source string. A length or a cut
      position, which the source counts in UTF-16 code units, is the
      source's on ASCII text only; no property below depends on where
      [Js.substring0] cuts a text.
    - An optional field ([x?: T], a value that may be [undefined] or
      [null]) is an [option].
    - Built-ins of the host platform that the code calls but does not
      define ([String.prototype.trim], the [URL] constructor,
      [encodeURIComponent], [DOMParser]) are the operations of the class
      [Platform]; every general theorem holds for all of its instances.
    - Values that the environment decides (network responses, the order
      in which promises settle, [Math.random], [Date.now], the user
      pressing cancel) are arguments of the functions or labels of the
      step relation. *)

From stdpp Require Import base decidable option list strings gmap pretty.
From Stdlib Require Import Ascii ZArith Lia.

Set Warnings "-register-all".

Local Open Scope string_scope.
Local Open Scope list_scope.
Local Open Scope nat_scope.

(* ================================================================== *)
(** * Part I: the program *)
(* ================================================================== *)

(** ** Host platform *)

Class Platform := {
  (** [String.prototype.trim] *)
  trim : string → string;
  (** [new URL(s).protocol]; [None] when the constructor throws *)
  URL_protocol : string → option string;
  (** [encodeURIComponent] *)
  encodeURIComponent : string → string;
  (** The DOM: documents, elements and the accessors the parser uses. *)
  Document : Type;
  Element : Type;
  (** [new DOMParser().parseFromString(s, 'application/xml')] *)
  parseFromString : string → Document;
  Document_querySelector : Document → string → option Element;
  Document_getElementsByTagName : Document → string → list Element;
  querySelector : Element → string → option Element;
  getElementsByTagName : Element → string → list Element;
  textContent : Element → string;
  getAttribute : Element → string → option string;
}.

(** ** JavaScript idioms used by the code *)

Module Js.

(** [a || d] for a string-valued [a] that may be undefined: the empty
    string is falsy. *)
Definition or_else (a : option string) (d : string) : string :=
  match a with
  | Some s => if decide (s = "") then d else s
  | None => d
  end.

(** [a || b] where both sides may be undefined. *)
Definition or_opt (a b : option string) : option string :=
  match a with
  | Some s => if decide (s = "") then b else Some s
  | None => b
  end.

(** [x || undefined] *)
Definition or_undefined (a : option string) : option string :=
  or_opt a None.

(** [s.substring(0, n)]. The cut is the source's on ASCII text (see the
    conventions). *)
Definition substring0 (n : nat) (s : string) : string :=
  String.substring 0 n s.

End Js.

(** ** Data model ([@/types]) *)

Module RSSFeed.
Record t := mk {
  id : string;
  title : string;
  url : string;
  description : option string;
  lastUpdated : option Z;
}.
End RSSFeed.

Module RSSItem.
Record t := mk {
  id : string;
  feedId : string;
  title : string;
  link : string;
  description : option string;
  content : option string;
  pubDate : option string;
  author : option string;
  categories : option (list string);
  isRead : bool;
  isStarred : bool;
}.

(** [{ ...item, isRead: r, isStarred: s }] *)
Definition with_flags (item : t) (r s : bool) : t :=
  mk (id item) (feedId item) (title item) (link item) (description item)
     (content item) (pubDate item) (author item) (categories item) r s.
End RSSItem.

(** ** [lib/rssParser.ts] *)

Module ParsedItem.
Record t := mk {
  title : option string;
  link : option string;
  content : option string;
  contentSnippet : option string;
  pubDate : option string;
  author : option string;
  categories : option (list string);
  guid : option string;
}.
End ParsedItem.

Module ParsedFeed.
Record t := mk {
  title : string;
  description : option string;
  items : list ParsedItem.t;
}.
End ParsedFeed.

(** [RSS_SUFFIXES]: the path suffixes probed, the first one standing for
    the URL as given. *)
Definition RSS_SUFFIXES : list string :=
  [ ""; "/feed"; "/feed/"; "/rss"; "/rss/"; "/index.xml"; "/feed.xml";
    "/rss.xml"; "?format=rss"; "?format=atom"; "/atom"; "/atom.xml" ].

(** What one [fetch] through a relay comes to. *)
Inductive body_result :=
| BodyText (text : string)        (* [response.text()] fulfils *)
| BodyError (message : string).   (* [response.text()] rejects *)

Inductive fetch_result :=
| FetchThrows (message : string)  (* network error, or abort after 15 s *)
| Response (ok : bool) (body : body_result).

(** The network as the resolver sees it: the result of the GET issued
    for each relay URL. *)
Definition network := string → fetch_result.

Section Resolver.
Context `{Platform}.

(** [CORS_PROXIES] *)
Definition CORS_PROXIES : list (string → string) :=
  [ (λ url, "https://api.allorigins.win/raw?url=" +:+ encodeURIComponent url);
    (λ url, "https://corsproxy.io/?" +:+ encodeURIComponent url);
    (λ url, "https://api.codetabs.com/v1/proxy?quest=" +:+ encodeURIComponent url) ].

(** [getTextContent(element, tagName)] *)
Definition getTextContent (element : option Element) (tagName : string)
    : option string :=
  match element with
  | None => None
  | Some el =>
      Js.or_undefined (trim ∘ textContent <$> head (getElementsByTagName el tagName))
  end.

(** The loop of [fetchWithProxy]: the text of the first relay that
    answers with a success status, or the message of the error thrown
    once every relay has been tried. *)
Fixpoint fetchWithProxy_from (net : network) (proxies : list (string → string))
    (lastError : option string) (url : string) : string + string :=
  match proxies with
  | [] => inl ("无法获取订阅内容: " +:+ Js.or_else lastError "网络错误")
  | proxyFn :: rest =>
      match net (proxyFn url) with
      | Response true (BodyText text) => inr text
      | Response true (BodyError message) =>
          fetchWithProxy_from net rest (Some message) url
      | Response false _ => fetchWithProxy_from net rest lastError url
      | FetchThrows message =>
          fetchWithProxy_from net rest (Some message) url
      end
  end.

Definition fetchWithProxy (net : network) (url : string) : string + string :=
  fetchWithProxy_from net CORS_PROXIES None url.

(** The selector [link[rel="alternate"]]. *)
Definition link_rel_alternate : string :=
  "link[rel=" +:+ String "034"%char ("alternate" +:+ String "034"%char "]").

(** The three extraction branches of [tryParseUrl]. *)
Definition rss_item (item : Element) : ParsedItem.t :=
  ParsedItem.mk
    (getTextContent (Some item) "title")
    (getTextContent (Some item) "link")
    (Js.or_opt (getTextContent (Some item) "content:encoded")
               (getTextContent (Some item) "description"))
    (Js.substring0 300 <$> getTextContent (Some item) "description")
    (Js.or_opt (getTextContent (Some item) "pubDate")
               (getTextContent (Some item) "dc:date"))
    (Js.or_opt (getTextContent (Some item) "author")
               (getTextContent (Some item) "dc:creator"))
    (Some (filter (λ c, c ≠ "")
             (textContent <$> getElementsByTagName item "category")))
    (getTextContent (Some item) "guid").

Definition atom_entry (entry : Element) : ParsedItem.t :=
  let linkElement :=
    match querySelector entry link_rel_alternate with
    | Some e => Some e
    | None => querySelector entry "link"
    end in
  ParsedItem.mk
    (getTextContent (Some entry) "title")
    (Js.or_undefined (linkElement ≫= λ e, getAttribute e "href"))
    (Js.or_opt (getTextContent (Some entry) "content")
               (getTextContent (Some entry) "summary"))
    (Js.substring0 300 <$> getTextContent (Some entry) "summary")
    (Js.or_opt (getTextContent (Some entry) "published")
               (getTextContent (Some entry) "updated"))
    (Js.or_opt (getTextContent (Some entry) "author")
               (getTextContent (Some entry) "name"))
    (Some (filter (λ c, c ≠ "")
             ((λ c, default "" (getAttribute c "term"))
                <$> getElementsByTagName entry "category")))
    (getTextContent (Some entry) "id").

Definition rdf_item (item : Element) : ParsedItem.t :=
  ParsedItem.mk
    (getTextContent (Some item) "title")
    (getTextContent (Some item) "link")
    (getTextContent (Some item) "description")
    (Js.substring0 300 <$> getTextContent (Some item) "description")
    (getTextContent (Some item) "date")
    (getTextContent (Some item) "creator")
    (Some [])
    (Js.or_opt (getTextContent (Some item) "about")
               (getTextContent (Some item) "link")).

(** [tryParseUrl(url)]: the parsed feed, or [None] for the [null] that
    stands for every failure (fetch error, malformed document,
    unrecognised format). *)
Definition tryParseUrl (net : network) (url : string) : option ParsedFeed.t :=
  match fetchWithProxy net url with
  | inl _ => None
  | inr xmlText =>
      let doc := parseFromString xmlText in
      match Document_querySelector doc "parsererror" with
      | Some _ => None
      | None =>
          let rssElement := Document_querySelector doc "rss" in
          let feedElement := Document_querySelector doc "feed" in
          let rdfElement :=
            match head (Document_getElementsByTagName doc "rdf:RDF") with
            | Some e => Some e
            | None => head (Document_getElementsByTagName doc "RDF")
            end in
          match rssElement, feedElement, rdfElement with
          | Some rss, _, _ =>
              let channel := querySelector rss "channel" in
              Some (ParsedFeed.mk
                (Js.or_else (getTextContent channel "title") "未命名订阅")
                (getTextContent channel "description")
                (rss_item <$>
                   from_option (λ c, getElementsByTagName c "item") [] channel))
          | None, Some feed, _ =>
              Some (ParsedFeed.mk
                (Js.or_else (getTextContent (Some feed) "title") "未命名订阅")
                (getTextContent (Some feed) "subtitle")
                (atom_entry <$> getElementsByTagName feed "entry"))
          | None, None, Some rdf =>
              Some (ParsedFeed.mk
                (Js.or_else (getTextContent (Some rdf) "title") "未命名订阅")
                (getTextContent (Some rdf) "description")
                (rdf_item <$> getElementsByTagName rdf "item"))
          | None, None, None => None
          end
      end
  end.

(** [s.replace(/\/$/, '')] *)
Definition strip_trailing_slash (s : string) : string :=
  match String.rev s with
  | String "/"%char r => String.rev r
  | _ => s
  end.

(** The message of the error [parseRSSFeed] throws. *)
Definition parse_failed : string := "无法解析该订阅源，请检查 URL 是否正确".

(** One suffix probe: the body of the callback mapped over
    [RSS_SUFFIXES.slice(1)]. *)
Definition probe (net : network) (baseUrl suffix : string)
    : option ParsedFeed.t :=
  match tryParseUrl net (baseUrl +:+ suffix) with
  | Some result =>
      if decide (0 < length (ParsedFeed.items result))
      then Some result else None
  | None => None
  end.

(** [Promise.all] over [n] promises. [arrivals] lists, in the order in
    which they settle, the index of each promise with its value; the
    value is stored at the promise's index. The combined promise is
    fulfilled ([Some]) only once every slot is filled. *)
Definition settle {A} (n : nat) (arrivals : list (nat * A))
    : list (option A) :=
  foldl (λ slots a, <[a.1 := Some a.2]> slots) (replicate n None) arrivals.

Definition Promise_all {A} (n : nat) (arrivals : list (nat * A))
    : option (list A) :=
  mapM id (settle n arrivals).

(** The second half of [parseRSSFeed]: every suffix is probed at once,
    [Promise.all] gathers the results and the first non-null one in
    list order is returned. [order] is the order in which the probes
    complete, by index into [RSS_SUFFIXES.slice(1)]. The result is
    [None] while some probe is still outstanding, [Some (inr feed)]
    when the function returns and [Some (inl message)] when it
    throws. *)
Definition probe_suffixes (net : network) (order : list nat)
    (baseUrl : string) : option (string + ParsedFeed.t) :=
  let suffixes := drop 1 RSS_SUFFIXES in
  let arrivals :=
    omap (λ i, (λ suffix, (i, probe net baseUrl suffix)) <$> suffixes !! i)
         order in
  results ← Promise_all (length suffixes) arrivals;
  match find (λ r : option ParsedFeed.t, bool_decide (r ≠ None)) results with
  | Some (Some successfulResult) => Some (inr successfulResult)
  | _ => Some (inl parse_failed)
  end.

(** [parseRSSFeed(url)] *)
Definition parseRSSFeed (net : network) (order : list nat) (url : string)
    : option (string + ParsedFeed.t) :=
  let baseUrl := strip_trailing_slash (trim url) in
  match tryParseUrl net baseUrl with
  | Some directResult =>
      if decide (0 < length (ParsedFeed.items directResult))
      then Some (inr directResult)
      else probe_suffixes net order baseUrl
  | None => probe_suffixes net order baseUrl
  end.

End Resolver.





(** [convertToRSSItems(parsedItems, feedId)]. [now i] is the value of
    [Date.now()] read while converting the item at index [i]. *)
Definition convertToRSSItems (parsedItems : list ParsedItem.t)
    (feedId : string) (now : nat → Z) : list RSSItem.t :=
  imap (λ index item,
    RSSItem.mk
      (feedId +:+ "-" +:+ Js.or_else (ParsedItem.guid item) (pretty index)
              +:+ "-" +:+ pretty (now index))
      feedId
      (Js.or_else (ParsedItem.title item) "无标题")
      (Js.or_else (ParsedItem.link item) "")
      (Some (Js.or_else (ParsedItem.contentSnippet item)
               (Js.or_else (Js.substring0 200 <$> ParsedItem.content item) "")))
      (Some (Js.or_else (ParsedItem.content item)
               (Js.or_else (ParsedItem.contentSnippet item) "")))
      (ParsedItem.pubDate item)
      (ParsedItem.author item)
      (ParsedItem.categories item)
      false
      false) parsedItems.

(** The part of an entry's id that tells it from the other entries of
    its feed: [item.guid || index]. *)
Definition id_key (item : ParsedItem.t) (index : nat) : string :=
  Js.or_else (ParsedItem.guid item) (pretty index).

(** Does the string contain no hyphen? *)
Fixpoint no_dash (s : string) : bool :=
  match s with
  | EmptyString => true
  | String c s' => negb (Ascii.eqb c "-"%char) && no_dash s'
  end.

(** ** [hooks/useRSS.ts]: refreshing one feed *)

(** [prev.find(i => i.link === newItem.link)] *)
Definition find_by_link (prev : list RSSItem.t) (l : string)
    : option RSSItem.t :=
  find (λ i, bool_decide (RSSItem.link i = l)) prev.

(** The updater passed to [setItems] by [refreshFeed]. *)
Definition refresh_items (feedId : string) (newItems prev : list RSSItem.t)
    : list RSSItem.t :=
  let filtered := filter (λ i, RSSItem.feedId i ≠ feedId) prev in
  let merged :=
    map (λ newItem,
      match find_by_link prev (RSSItem.link newItem) with
      | Some existing =>
          RSSItem.with_flags newItem (RSSItem.isRead existing)
                             (RSSItem.isStarred existing)
      | None => newItem
      end) newItems in
  merged ++ filtered.

(** The two collections held by the hook. *)
Record store := Store {
  feeds : list RSSFeed.t;
  items : list RSSItem.t;
}.

(** [refreshFeed(feedId)], for a call during which nothing else changes
    the collections: the feed list the callback looks the feed up in is
    then the one its updaters are applied to ([refreshFeed_later] below
    is the call without that proviso). [outcome] is what the race
    between [parseRSSFeed(feed.url)] and the 30 s timer settles to: the
    parsed feed, or the message of the error thrown. [now] supplies the
    clock readings of [convertToRSSItems] and [t] the reading stored in
    [lastUpdated]. *)
Definition refreshFeed (st : store) (feedId : string)
    (outcome : string + ParsedFeed.t) (now : nat → Z) (t : Z) : store :=
  match find (λ f, bool_decide (RSSFeed.id f = feedId)) (feeds st) with
  | None => st
  | Some feed =>
      match outcome with
      | inr parsed =>
          let newItems :=
            convertToRSSItems (ParsedFeed.items parsed) feedId now in
          Store
            (map (λ f,
               if decide (RSSFeed.id f = feedId)
               then RSSFeed.mk (RSSFeed.id f) (RSSFeed.title f)
                      (RSSFeed.url f) (RSSFeed.description f) (Some t)
               else f) (feeds st))
            (refresh_items feedId newItems (items st))
      | inl _ => st
      end
  end.

(** [refreshFeed(feedId)] in general. The callback looks the feed up in
    [known], the feed list of the render it was created in, before the
    [await]; the two updaters it passes to [setItems] and [setFeeds]
    after the [await] are applied to the collections as they are then,
    [st], whatever has been added or removed in between. *)
Definition refreshFeed_later (known : list RSSFeed.t) (st : store)
    (feedId : string) (outcome : string + ParsedFeed.t) (now : nat → Z)
    (t : Z) : store :=
  match find (λ f, bool_decide (RSSFeed.id f = feedId)) known with
  | None => st
  | Some feed =>
      match outcome with
      | inr parsed =>
          let newItems :=
            convertToRSSItems (ParsedFeed.items parsed) feedId now in
          Store
            (map (λ f,
               if decide (RSSFeed.id f = feedId)
               then RSSFeed.mk (RSSFeed.id f) (RSSFeed.title f)
                      (RSSFeed.url f) (RSSFeed.description f) (Some t)
               else f) (feeds st))
            (refresh_items feedId newItems (items st))
      | inl _ => st
      end
  end.

(** [markAsRead(itemId, isRead)] *)
Definition markAsRead (itemId : string) (isRead : bool)
    (prev : list RSSItem.t) : list RSSItem.t :=
  map (λ item,
    if decide (RSSItem.id item = itemId)
    then RSSItem.with_flags item isRead (RSSItem.isStarred item)
    else item) prev.

(** What the specification compares entries by when it speaks of a
    refresh leaving the entry set unchanged. *)
Definition entry_key (i : RSSItem.t) : string * option string * bool * bool :=
  (RSSItem.link i, RSSItem.content i, RSSItem.isRead i, RSSItem.isStarred i).

(** The entries a feed owns, in collection order. *)
Definition entries_of (feedId : string) (l : list RSSItem.t) : list RSSItem.t :=
  filter (λ i, RSSItem.feedId i = feedId) l.

(** Every entry of feed [feedId] carries the flags of the first entry of
    the whole collection that has its link. *)
Definition flags_follow_first_match (feedId : string) (prev : list RSSItem.t)
    : bool :=
  forallb (λ e,
    if decide (RSSItem.feedId e = feedId) then
      match find_by_link prev (RSSItem.link e) with
      | Some e0 =>
          bool_decide (RSSItem.isRead e0 = RSSItem.isRead e) &&
          bool_decide (RSSItem.isStarred e0 = RSSItem.isStarred e)
      | None => true
      end
    else true) prev.

(** ** [hooks/useRSS.ts]: reading, starring, viewing and removing *)

(** Whether a string that may be [undefined] or [null] is truthy. *)
Definition truthy (a : option string) : bool :=
  match a with
  | Some s => bool_decide (s ≠ "")
  | None => false
  end.

(** [markAllAsRead(feedId)] *)
Definition markAllAsRead (feedId : option string) (prev : list RSSItem.t)
    : list RSSItem.t :=
  map (λ item,
    if negb (truthy feedId) || bool_decide (Some (RSSItem.feedId item) = feedId)
    then RSSItem.with_flags item true (RSSItem.isStarred item)
    else item) prev.

(** [toggleStar(itemId)] *)
Definition toggleStar (itemId : string) (prev : list RSSItem.t)
    : list RSSItem.t :=
  map (λ item,
    if decide (RSSItem.id item = itemId)
    then RSSItem.with_flags item (RSSItem.isRead item)
                            (negb (RSSItem.isStarred item))
    else item) prev.

Module ViewMode.
Inductive t := all | unread | starred.
End ViewMode.

(** The two predicates of [filteredItems]. *)
Definition in_view (viewMode : ViewMode.t) (item : RSSItem.t) : bool :=
  match viewMode with
  | ViewMode.unread => negb (RSSItem.isRead item)
  | ViewMode.starred => RSSItem.isStarred item
  | ViewMode.all => true
  end.

Definition in_selection (selectedFeedId : option string) (item : RSSItem.t)
    : bool :=
  if truthy selectedFeedId
  then bool_decide (Some (RSSItem.feedId item) = selectedFeedId)
  else true.

(** [filteredItems], as computed from the hook's [items], [viewMode] and
    [selectedFeedId]. *)
Definition filteredItems (all_items : list RSSItem.t) (viewMode : ViewMode.t)
    (selectedFeedId : option string) : list RSSItem.t :=
  filter (λ item, in_selection selectedFeedId item = true)
    (filter (λ item, in_view viewMode item = true) all_items).

(** [unreadCount] and [starredCount] *)
Definition unreadCount (all_items : list RSSItem.t) : nat :=
  length (filter (λ i, RSSItem.isRead i = false) all_items).

Definition starredCount (all_items : list RSSItem.t) : nat :=
  length (filter (λ i, RSSItem.isStarred i = true) all_items).

(** [removeFeed(feedId)]: the collections and [selectedFeedId] after the
    call. *)
Definition removeFeed (st : store) (selectedFeedId : option string)
    (feedId : string) : store * option string :=
  (Store (filter (λ f, RSSFeed.id f ≠ feedId) (feeds st))
         (filter (λ i, RSSItem.feedId i ≠ feedId) (items st)),
   if decide (selectedFeedId = Some feedId) then None else selectedFeedId).

(** Every entry of the collection belongs to a subscribed feed. *)
Definition owned (st : store) : Prop :=
  Forall (λ i, RSSItem.feedId i ∈ RSSFeed.id <$> feeds st) (items st).

(** ** [App.tsx]: the article shown *)

(** [selectedItem]: the article shown, looked up among all the items
    and not among the filtered ones. *)
Definition selectedItem (all_items : list RSSItem.t)
    (selectedItemId : option string) : option RSSItem.t :=
  if truthy selectedItemId
  then find (λ i, bool_decide (Some (RSSItem.id i) = selectedItemId)) all_items
  else None.

(** [handleSelectItem(itemId)]: [selectedItemId] and the items after the
    call. The pane that the call brings forward on a narrow screen is
    not part of this state. *)
Definition handleSelectItem (itemId : string) (all_items : list RSSItem.t)
    : option string * list RSSItem.t :=
  (Some itemId, markAsRead itemId true all_items).

(** ** [hooks/useRSS.ts]: refreshing every feed *)

Definition CONCURRENT_REQUESTS : nat := 10.

(** What one call of [refreshFeed] made by [refreshAllFeeds] comes to:
    what its race settles to, and the clock readings taken if the merge
    is reached. *)
Record refreshed := Refreshed {
  settled_to : string + ParsedFeed.t;
  clock : nat → Z;
  stamp : Z;
}.

(** The state of one call of [refreshAllFeeds]: the collections, the
    local counter, and the values passed to [setRefreshProgress], oldest
    first ([None] for [null]). *)
Record refreshing := Refreshing {
  collections : store;
  completedCount : nat;
  refreshProgress : list (option (nat * nat));
}.

(** The callback mapped over a batch, for one feed: its [refreshFeed]
    settles, the counter goes up and the progress is reported. *)
Definition refresh_done (total : nat) (feed : RSSFeed.t) (r : refreshed)
    (s : refreshing) : refreshing :=
  Refreshing
    (refreshFeed (collections s) (RSSFeed.id feed) (settled_to r) (clock r)
                 (stamp r))
    (S (completedCount s))
    (refreshProgress s ++ [Some (S (completedCount s), total)]).

(** One [await Promise.all(batch.map(...))]. [i] is the position of the
    batch in the feed list, [env] tells what the refresh of the feed at
    each position of that list comes to, and [order] is the order in
    which the callbacks of the batch complete, by position in the batch.
    The result is [None] while a callback is outstanding. *)
Definition refresh_batch (total i : nat) (batch : list RSSFeed.t)
    (env : nat → refreshed) (order : list nat) (s : refreshing)
    : option refreshing :=
  let arrivals := omap (λ j, (λ feed, (j, feed)) <$> batch !! j) order in
  _ ← Promise_all (length batch) arrivals;
  Some (foldl (λ s a, refresh_done total a.2 (env (i + a.1)) s) s arrivals).

(** The [for] loop of [refreshAllFeeds] from position [i] on; [orders]
    holds the completion order of each batch still to come. The loop
    needs at most one round per feed. *)
Fixpoint refresh_loop (fuel : nat) (all : list RSSFeed.t) (i : nat)
    (env : nat → refreshed) (orders : list (list nat)) (s : refreshing)
    : option refreshing :=
  if decide (i < length all) then
    match fuel with
    | 0 => None
    | S fuel' =>
        let batch := take CONCURRENT_REQUESTS (drop i all) in
        s' ← refresh_batch (length all) i batch env
               (default [] (head orders)) s;
        refresh_loop fuel' all (i + CONCURRENT_REQUESTS) env (tail orders) s'
    end
  else Some s.

(** [refreshAllFeeds()] *)
Definition refreshAllFeeds (st : store) (env : nat → refreshed)
    (orders : list (list nat)) : option refreshing :=
  if decide (length (feeds st) = 0) then Some (Refreshing st 0 [])
  else
    s ← refresh_loop (length (feeds st)) (feeds st) 0 env orders
          (Refreshing st 0 [Some (0, length (feeds st))]);
    Some (Refreshing (collections s) (completedCount s)
            (refreshProgress s ++ [None])).

(** ** [hooks/useRSS.ts]: batch import *)

(** The [results] object of [addFeedsBatch]. *)
Record results := Results {
  success : nat;
  failed : nat;
  skipped : nat;
  errors : list string;
}.

(** [results.failed++; results.errors.push(message)] *)
Definition fail_with (message : string) (r : results) : results :=
  Results (success r) (S (failed r)) (skipped r) (errors r ++ [message]).

Definition MAX_CONCURRENT : nat := 10.

(** The messages of the two rejections the hook itself produces. *)
Definition cancelled : string := "已取消".
Definition timed_out : string := "请求超时".

Section Prefilter.
Context `{Platform}.

(** One iteration of the validation loop over [urls]: the accumulator
    is [results] together with [validUrls]. *)
Definition prefilter_step (existingUrls : gset string)
    (acc : results * list string) (url : string) : results * list string :=
  let '(r, validUrls) := acc in
  match URL_protocol (trim url) with
  | Some protocol =>
      if decide (protocol ∈ ["http:"; "https:"]) then
        if decide (trim url ∈ existingUrls)
        then (Results (success r) (failed r) (S (skipped r)) (errors r),
              validUrls)
        else (r, validUrls ++ [trim url])
      else (fail_with (url +:+ ": 只支持 HTTP 和 HTTPS 协议") r, validUrls)
  | None => (fail_with (url +:+ ": URL 格式无效") r, validUrls)
  end.

(** The validation and filtering phase of [addFeedsBatch]. *)
Definition prefilter (feeds : list RSSFeed.t) (urls : list string)
    : results * list string :=
  let existingUrls : gset string := list_to_set (RSSFeed.url <$> feeds) in
  foldl (prefilter_step existingUrls) (Results 0 0 0 [], []) urls.

(** Vocabulary for stating what the pre-filter does with a URL. The
    validator looks at the trimmed text: a URL is acceptable when that
    text parses and its scheme is [http] or [https]. *)
Definition acceptable (url : string) : bool :=
  match URL_protocol (trim url) with
  | Some protocol => bool_decide (protocol ∈ ["http:"; "https:"])
  | None => false
  end.

(** The error string recorded for a URL that is not acceptable. *)
Definition rejection (url : string) : string :=
  match URL_protocol (trim url) with
  | Some _ => url +:+ ": 只支持 HTTP 和 HTTPS 协议"
  | None => url +:+ ": URL 格式无效"
  end.

(** Is the trimmed text the source URL of one of [feeds]? *)
Definition subscribed (feeds : list RSSFeed.t) (url : string) : bool :=
  bool_decide (trim url ∈ RSSFeed.url <$> feeds).

End Prefilter.

(** A worker of [executeBatch] is either suspended at its [await], racing
    the resolver for [currentUrl] against cancellation and the 30 s
    timer, or has left its loop. *)
Inductive worker :=
| Waiting (currentUrl : string)
| Finished.

Definition is_finished (x : worker) : bool :=
  match x with
  | Finished => true
  | Waiting _ => false
  end.

(** What the race of a worker settles to. When the resolver wins, the
    environment also fixes what [generateId()] and [Date.now()] return
    should the commit be reached. *)
Inductive settled :=
| Parsed (parsed : ParsedFeed.t) (id : string) (t : Z) (now : nat → Z)
| Thrown (message : string).

(** The state of one call of [addFeedsBatch]: its local variables, the
    shared abort flag, the feed and item collections it publishes into,
    and a log of the two effects observable from outside (the calls of
    [parseRSSFeed] and of [onProgress], oldest first). *)
Record batch := Batch {
  newUrls : list string;
  onProgress : bool;               (* was a callback passed? *)
  res : results;
  index : nat;
  completed : nat;
  aborted : bool;                  (* [controller.signal.aborted] *)
  workers : list worker;
  state : store;
  calls : list string;
  progress : list (nat * nat);
  returned : option results;       (* the value the call resolved with *)
}.

Definition set_res (r : results) (b : batch) : batch :=
  Batch (newUrls b) (onProgress b) r (index b) (completed b) (aborted b)
        (workers b) (state b) (calls b) (progress b) (returned b).
Definition set_index (i : nat) (b : batch) : batch :=
  Batch (newUrls b) (onProgress b) (res b) i (completed b) (aborted b)
        (workers b) (state b) (calls b) (progress b) (returned b).
Definition set_completed (c : nat) (b : batch) : batch :=
  Batch (newUrls b) (onProgress b) (res b) (index b) c (aborted b)
        (workers b) (state b) (calls b) (progress b) (returned b).
Definition set_aborted (a : bool) (b : batch) : batch :=
  Batch (newUrls b) (onProgress b) (res b) (index b) (completed b) a
        (workers b) (state b) (calls b) (progress b) (returned b).
Definition set_worker (w : nat) (x : worker) (b : batch) : batch :=
  Batch (newUrls b) (onProgress b) (res b) (index b) (completed b) (aborted b)
        (<[w := x]> (workers b)) (state b) (calls b) (progress b) (returned b).
Definition set_state (s : store) (b : batch) : batch :=
  Batch (newUrls b) (onProgress b) (res b) (index b) (completed b) (aborted b)
        (workers b) s (calls b) (progress b) (returned b).
Definition log_call (url : string) (b : batch) : batch :=
  Batch (newUrls b) (onProgress b) (res b) (index b) (completed b) (aborted b)
        (workers b) (state b) (calls b ++ [url]) (progress b) (returned b).
Definition log_progress (current total : nat) (b : batch) : batch :=
  Batch (newUrls b) (onProgress b) (res b) (index b) (completed b) (aborted b)
        (workers b) (state b) (calls b) (progress b ++ [(current, total)])
        (returned b).
Definition set_returned (r : option results) (b : batch) : batch :=
  Batch (newUrls b) (onProgress b) (res b) (index b) (completed b) (aborted b)
        (workers b) (state b) (calls b) (progress b) r.

(** [total] *)
Definition total (b : batch) : nat := length (newUrls b).

(** The number of workers suspended at their [await]. *)
Definition waiting (ws : list worker) : nat :=
  length (filter (λ x, is_finished x = false) ws).

(** The head of the [while] loop of [worker], run until the worker
    suspends at its next [await] or leaves the loop. *)
Definition worker_loop (w : nat) (b : batch) : batch :=
  if decide (index b < length (newUrls b)) then
    if aborted b then set_worker w Finished b
    else
      match newUrls b !! index b with
      | Some currentUrl =>
          set_worker w (Waiting currentUrl)
            (log_call currentUrl (set_index (S (index b)) b))
      | None => set_worker w Finished b
      end
  else set_worker w Finished b.

(** The [try] block after the [await]: the new state, and the message of
    the error thrown if one is. *)
Definition try_block (currentUrl : string) (r : settled) (b : batch)
    : batch * option string :=
  match r with
  | Thrown message => (b, Some message)
  | Parsed parsed id t now =>
      if aborted b then (b, Some cancelled)
      else if decide (length (ParsedFeed.items parsed) = 0) then
        (set_res (fail_with (currentUrl +:+ ": 该订阅源没有文章") (res b)) b, None)
      else
        let newFeed :=
          RSSFeed.mk id (ParsedFeed.title parsed) currentUrl
                     (ParsedFeed.description parsed) (Some t) in
        let newItems :=
          convertToRSSItems (ParsedFeed.items parsed) (RSSFeed.id newFeed) now in
        let published :=
          Store (newFeed :: feeds (state b)) (newItems ++ items (state b)) in
        (set_res (Results (S (success (res b))) (failed (res b))
                          (skipped (res b)) (errors (res b)))
           (set_state published b), None)
  end.

(** The [catch] block: the new state, and whether the loop is left by
    [break]. *)
Definition catch_block (currentUrl message : string) (b : batch)
    : batch * bool :=
  if decide (message = cancelled) then (b, true)
  else (set_res (fail_with (currentUrl +:+ ": " +:+ message) (res b)) b, false).

(** The [finally] block. *)
Definition finally_block (b : batch) : batch :=
  let b := set_completed (S (completed b)) b in
  if onProgress b && negb (aborted b)
  then log_progress (completed b) (total b) b
  else b.

(** Worker [w] resumes from its [await] with [r] and runs to its next
    [await] or to the end of its loop. *)
Definition resume (w : nat) (r : settled) (b : batch) : option batch :=
  match workers b !! w with
  | Some (Waiting currentUrl) =>
      let '(b1, thrown) := try_block currentUrl r b in
      let '(b2, break) :=
        match thrown with
        | Some message => catch_block currentUrl message b1
        | None => (b1, false)
        end in
      let b3 := finally_block b2 in
      Some (if break then set_worker w Finished b3 else worker_loop w b3)
  | _ => None
  end.

(** What can happen to a running batch. JavaScript runs a continuation
    to its next [await] without interruption, so what a worker does
    between two of its [await]s is one transition: it resumes with what
    its race settled to, runs the rest of the iteration and the head of
    the next one, and suspends again or ends. The transitions of
    different workers interleave in any order, and so does the press of
    the cancel button. *)
Inductive event :=
| Fulfilled (w : nat) (parsed : ParsedFeed.t) (id : string) (t : Z)
            (now : nat → Z)     (* the resolver returned first *)
| Rejected (w : nat)            (* the resolver threw first *)
| TimedOut (w : nat)            (* the 30 s timer fired first *)
| AbortHeard (w : nat)          (* the abort listener rejected the race *)
| Cancel                        (* [controller.abort()] *)
| Return.                       (* [Promise.all(workers)] resolved *)

(** The worker whose race an event settles. *)
Definition settles (e : event) : option nat :=
  match e with
  | Fulfilled w _ _ _ _ | Rejected w | TimedOut w | AbortHeard w => Some w
  | Cancel | Return => None
  end.

(** Did the resolver itself settle the race, by returning or by
    throwing? *)
Definition resolver_settled (e : event) : bool :=
  match e with
  | Fulfilled _ _ _ _ _ | Rejected _ => true
  | _ => false
  end.

(** Did the timer or a cancel settle the race? The call of
    [parseRSSFeed] behind such a race is given no abort signal: it is
    not stopped, and goes on to its last relay and suffix while the
    worker moves to its next URL. *)
Definition abandons (e : event) : bool :=
  match e with
  | TimedOut _ | AbortHeard _ => true
  | _ => false
  end.

Section Batch.
Context `{Platform}.

(** One transition; [None] when the event cannot occur in the state. *)
Definition step (b : batch) (e : event) : option batch :=
  match returned b with
  | Some _ => None
  | None =>
      match e with
      | Fulfilled w parsed id t now => resume w (Parsed parsed id t now) b
      | Rejected w => resume w (Thrown parse_failed) b
      | TimedOut w => resume w (Thrown timed_out) b
      | AbortHeard w =>
          if aborted b then resume w (Thrown cancelled) b else None
      | Cancel => Some (set_aborted true b)
      | Return =>
          if forallb is_finished (workers b)
          then Some (set_returned (Some (res b)) b)
          else None
      end
  end.

Fixpoint run (b : batch) (es : list event) : option batch :=
  match es with
  | [] => Some b
  | e :: es' =>
      match step b e with
      | Some b' => run b' es'
      | None => None
      end
  end.

(** [addFeedsBatch(urls, onProgress)] up to the first [await]: the
    pre-filter runs, and unless no candidate is left the workers are
    started one after the other, each running to its first [await]. The
    pool is laid out first with a placeholder in each of its
    [min(MAX_CONCURRENT, newUrls.length)] slots, as
    [Array(n).fill(null)] does, and [map] then starts the worker of each
    slot in turn. *)
Definition addFeedsBatch (st : store) (urls : list string)
    (onProgress : bool) : batch :=
  let '(r, newUrls) := prefilter (feeds st) urls in
  if decide (length newUrls = 0) then
    Batch newUrls onProgress r 0 0 false [] st [] [] (Some r)
  else
    let n := MAX_CONCURRENT `min` length newUrls in
    foldl (λ b w, worker_loop w b)
      (Batch newUrls onProgress r 0 0 false (replicate n Finished) st [] []
             None)
      (seq 0 n).

(** What a call of [addFeed] comes to: the promise is rejected with a
    message, or resolves to a boolean after possibly setting [error]. *)
Inductive add_result :=
| AddRejected (message : string)
| AddResolved (value : bool) (error : option string).

(** [addFeed(url)]. [r] is what the race settles to and [aborted] the
    state of the abort flag when the function resumes. *)
Definition addFeed (st : store) (url : string) (r : settled) (aborted : bool)
    : add_result * store :=
  match URL_protocol url with
  | Some protocol =>
      if decide (protocol ∈ ["http:"; "https:"]) then
        let validatedUrl := trim url in
        match find (λ f, bool_decide (RSSFeed.url f = validatedUrl)) (feeds st) with
        | Some existingFeed => (AddResolved false (Some "该订阅源已存在"), st)
        | None =>
            match r with
            | Thrown message =>
                if decide (message = cancelled)
                then (AddResolved false None, st)
                else (AddResolved false (Some message), st)
            | Parsed parsed id t now =>
                if aborted then (AddResolved false None, st)
                else if decide (length (ParsedFeed.items parsed) = 0) then
                  (AddResolved false (Some "该订阅源没有文章"), st)
                else
                  let newFeed :=
                    RSSFeed.mk id (ParsedFeed.title parsed) url
                               (ParsedFeed.description parsed) (Some t) in
                  let newItems :=
                    convertToRSSItems (ParsedFeed.items parsed)
                                      (RSSFeed.id newFeed) now in
                  (AddResolved true None,
                   Store (newFeed :: feeds st) (newItems ++ items st))
            end
        end
      else (AddRejected "无效的 URL 格式", st)
  | None => (AddRejected "无效的 URL 格式", st)
  end.

End Batch.

(** ** [lib/translation.ts]: the endpoint configuration *)

Module JsString.

(** [s.startsWith(p)] *)
Definition startsWith (s p : string) : bool := String.prefix p s.

(** [s.endsWith(p)] *)
Definition endsWith (s p : string) : bool :=
  let n := String.length s in
  let m := String.length p in
  Nat.leb m n && String.eqb (String.substring (n - m) m s) p.

(** [s.slice(0, -1)] *)
Definition slice_last (s : string) : string :=
  String.substring 0 (String.length s - 1) s.

End JsString.

Definition DEFAULT_API_URL : string :=
  "https://api.siliconflow.cn/v1/chat/completions".
Definition DEFAULT_MODEL : string := "deepseek-ai/DeepSeek-V3.2".

(** The object [loadAIConfig()] returns, any field of which may be
    missing, and the configuration [getAIConfig()] makes of it. *)
Module AIConfig.
Record t := mk {
  apiUrl : option string;
  apiKey : option string;
  model : option string;
}.
End AIConfig.

Module Endpoint.
Record t := mk {
  apiUrl : string;
  apiKey : string;
  model : string;
}.
End Endpoint.

Section Translation.
Context `{Platform}.

(** [getAIConfig()]. [customConfig] is what [loadAIConfig()] returns and
    [envKey] the build-time variable [VITE_SILICONFLOW_API_KEY]. *)
Definition getAIConfig (customConfig : option AIConfig.t)
    (envKey : option string) : Endpoint.t :=
  let apiUrl :=
    Js.or_else (trim <$> (customConfig ≫= AIConfig.apiUrl)) DEFAULT_API_URL in
  let apiKey :=
    Js.or_else (trim <$> (customConfig ≫= AIConfig.apiKey))
               (Js.or_else envKey "") in
  let model :=
    Js.or_else (trim <$> (customConfig ≫= AIConfig.model)) DEFAULT_MODEL in
  let apiUrl :=
    if negb (bool_decide (apiUrl = ""))
       && negb (JsString.startsWith apiUrl "http")
    then "https://" +:+ apiUrl else apiUrl in
  let apiUrl :=
    if JsString.endsWith apiUrl "/" then JsString.slice_last apiUrl
    else apiUrl in
  let apiUrl :=
    if negb (JsString.endsWith apiUrl "/chat/completions")
    then apiUrl +:+ (if JsString.endsWith apiUrl "/v1" then "" else "/v1")
                +:+ "/chat/completions"
    else apiUrl in
  Endpoint.mk apiUrl apiKey model.

(** [hasAIConfigured()] *)
Definition hasAIConfigured (customConfig : option AIConfig.t)
    (envKey : option string) : bool :=
  negb (bool_decide (Endpoint.apiKey (getAIConfig customConfig envKey) = "")).

End Translation.

(** ** [lib/opmlParser.ts]: escaping *)

(** [str.replace(/c/g, replacement)] for a pattern that is the single
    character [c] and a replacement without [$]. *)
Fixpoint replace_all (c : ascii) (replacement : string) (str : string)
    : string :=
  match str with
  | EmptyString => EmptyString
  | String x rest =>
      if Ascii.eqb x c
      then replacement +:+ replace_all c replacement rest
      else String x (replace_all c replacement rest)
  end.

(** The double quote. *)
Definition double_quote : ascii := "034"%char.

(** [escapeXml(str)] *)
Definition escapeXml (str : string) : string :=
  replace_all "'" "&apos;"
    (replace_all double_quote "&quot;"
       (replace_all ">" "&gt;"
          (replace_all "<" "&lt;"
             (replace_all "&" "&amp;" str)))).

(** What [escapeXml] makes of one character. *)
Definition escape_char (x : ascii) : string :=
  if Ascii.eqb x "&" then "&amp;"
  else if Ascii.eqb x "<" then "&lt;"
  else if Ascii.eqb x ">" then "&gt;"
  else if Ascii.eqb x double_quote then "&quot;"
  else if Ascii.eqb x "'" then "&apos;"
  else String x "".

(** Does the character occur in the string? *)
Fixpoint mentions (c : ascii) (s : string) : bool :=
  match s with
  | EmptyString => false
  | String x rest => Ascii.eqb x c || mentions c rest
  end.

(** ** A small platform to run the program on

    An instance of [Platform] that is precise enough for the URLs and
    documents used in the examples below: [trim] strips ASCII white
    space and the no-break space, the URL constructor accepts
    [scheme:rest] with an alphabetic scheme and a non-empty rest and
    strips nothing, [encodeURIComponent] leaves its argument alone (the
    examples use no reserved character in a place where that matters),
    and the DOM is a plain element tree with two canned documents. *)

Module Demo.

(** The no-break space U+00A0, which [trim] strips and the URL parser
    does not. In UTF-8 it is the two characters 194 and 160. *)
Definition nbsp : string := String "194" (String "160" "").

(** [strip_start a b s] removes from the front of [s] the ASCII white
    space and the pairs of characters [a b]. *)
Fixpoint strip_start (a b : ascii) (s : string) : string :=
  match s with
  | String c s' =>
      if Ascii.is_space c then strip_start a b s'
      else
        match s' with
        | String d s'' =>
            if Ascii.eqb c a && Ascii.eqb d b then strip_start a b s'' else s
        | EmptyString => s
        end
  | EmptyString => s
  end.

(** From the end, a no-break space is met second character first. *)
Definition trim_white_space (s : string) : string :=
  String.rev (strip_start "160" "194"
                (String.rev (strip_start "194" "160" s))).

Definition is_alpha (c : ascii) : bool :=
  let n := nat_of_ascii c in
  (Nat.leb 65 n && Nat.leb n 90) || (Nat.leb 97 n && Nat.leb n 122).

(** Splits [s] at its first colon when everything before it is a
    letter. *)
Fixpoint scheme_of (s : string) : option (string * string) :=
  match s with
  | EmptyString => None
  | String c s' =>
      if Ascii.eqb c ":"%char then Some (EmptyString, s')
      else if is_alpha c then
        match scheme_of s' with
        | Some (scheme, rest) => Some (String c scheme, rest)
        | None => None
        end
      else None
  end.

Definition protocol_of (s : string) : option string :=
  match scheme_of s with
  | Some (scheme, rest) =>
      if decide (scheme = "" ∨ rest = "") then None else Some (scheme +:+ ":")
  | None => None
  end.

Inductive xml :=
| XText (data : string)
| XElem (tagName : string) (attributes : list (string * string))
        (childNodes : list xml).

Definition tag_of (n : xml) : option string :=
  match n with
  | XElem tag _ _ => Some tag
  | XText _ => None
  end.

Definition attribute (n : xml) (name : string) : option string :=
  match n with
  | XElem _ attrs _ => snd <$> find (λ a, bool_decide (a.1 = name)) attrs
  | XText _ => None
  end.

Fixpoint text_of (n : xml) : string :=
  match n with
  | XText data => data
  | XElem _ _ children =>
      (fix go (l : list xml) : string :=
         match l with
         | [] => ""
         | c :: l' => text_of c +:+ go l'
         end) children
  end.

(** The elements below [n], in document order. *)
Fixpoint descendants (n : xml) : list xml :=
  match n with
  | XText _ => []
  | XElem _ _ children =>
      (fix go (l : list xml) : list xml :=
         match l with
         | [] => []
         | c :: l' =>
             match c with
             | XText _ => go l'
             | XElem _ _ _ => c :: descendants c ++ go l'
             end
         end) children
  end.

Definition by_tag (tag : string) (l : list xml) : list xml :=
  filter (λ n, tag_of n = Some tag) l.

(** The two selectors the parser uses: a tag name, and
    [link[rel="alternate"]]. *)
Definition select (l : list xml) (selector : string) : option xml :=
  if decide (selector = link_rel_alternate)
  then head (filter (λ n, attribute n "rel" = Some "alternate") (by_tag "link" l))
  else head (by_tag selector l).

(** Two canned documents, each with a text standing for it: an RSS 2.0
    document with two items and an Atom document with one entry. *)
Definition sample_text : string := "<rss>sample</rss>".
Definition atom_text : string := "<feed>sample</feed>".

Definition sample_item (title link : string) : xml :=
  XElem "item" []
    [ XElem "title" [] [XText title];
      XElem "link" [] [XText link];
      XElem "description" [] [XText "body"] ].

Definition sample_document : xml :=
  XElem "rss" []
    [ XElem "channel" []
        [ XElem "title" [] [XText "Sample"];
          sample_item "First" "http://a.example/1";
          sample_item "Second" "http://a.example/2" ] ].

Definition atom_document : xml :=
  XElem "feed" []
    [ XElem "title" [] [XText "Atom sample"];
      XElem "entry" []
        [ XElem "title" [] [XText "Entry"];
          XElem "link" [("rel", "alternate"); ("href", "http://a.example/e1")] [];
          XElem "summary" [] [XText "summary"] ] ].

(** Any other text is malformed. *)
Definition parse (text : string) : xml :=
  if decide (text = sample_text) then sample_document
  else if decide (text = atom_text) then atom_document
  else XElem "parsererror" [] [].

#[export] Instance platform : Platform := {|
  trim := trim_white_space;
  URL_protocol := protocol_of;
  encodeURIComponent := id;
  Document := xml;
  Element := xml;
  parseFromString := parse;
  Document_querySelector doc selector := select (doc :: descendants doc) selector;
  Document_getElementsByTagName doc tag := by_tag tag (doc :: descendants doc);
  querySelector el selector := select (descendants el) selector;
  getElementsByTagName el tag := by_tag tag (descendants el);
  textContent := text_of;
  getAttribute := attribute;
|}.

(** The feeds [tryParseUrl] extracts from the two documents. *)
Definition sample_feed : ParsedFeed.t :=
  ParsedFeed.mk "Sample" (Some "body")
    [ ParsedItem.mk (Some "First") (Some "http://a.example/1") (Some "body")
        (Some "body") None None (Some []) None;
      ParsedItem.mk (Some "Second") (Some "http://a.example/2") (Some "body")
        (Some "body") None None (Some []) None ].

Definition atom_feed : ParsedFeed.t :=
  ParsedFeed.mk "Atom sample" None
    [ ParsedItem.mk (Some "Entry") (Some "http://a.example/e1")
        (Some "summary") (Some "summary") None None (Some []) None ].

(** A network on which the first relay serves the texts of [table],
    keyed by target URL, and every other request fails with
    [message]. *)
Definition serving (table : list (string * string)) (message : string)
    : network :=
  λ request,
    match find (λ entry, bool_decide
                  (request = "https://api.allorigins.win/raw?url=" +:+ entry.1))
               table with
    | Some entry => Response true (BodyText entry.2)
    | None => FetchThrows message
    end.

(** A site whose address is no feed, but which serves an RSS document
    under [/rss] and an Atom document under [/atom]. *)
Definition site : network :=
  serving [ ("http://a.example/rss", sample_text);
            ("http://a.example/atom", atom_text) ] "Failed to fetch".

(** Networks on which nothing can be fetched. *)
Definition refusing : network := λ _, FetchThrows "connection refused".
Definition stalled : network := λ _, FetchThrows "The operation was aborted".

End Demo.

(** ** Invariants of a running batch *)

(** What holds of a batch at every moment. *)
Record batch_inv (b : batch) : Prop := BatchInv {
  inv_index : index b ≤ total b;
  inv_completed : completed b + waiting (workers b) = index b;
  inv_progress :
    progress b = (λ k, (k, total b)) <$> seq 1 (length (progress b));
  inv_progress_le : length (progress b) ≤ completed b;
  inv_progress_eq :
    onProgress b = true → aborted b = false →
    length (progress b) = completed b;
  inv_finished :
    aborted b = false → Finished ∈ workers b → total b ≤ index b;
  inv_calls : calls b = take (index b) (newUrls b);
  inv_workers : 0 < total b → workers b ≠ [];
  inv_returned : is_Some (returned b) → waiting (workers b) = 0;
}.

(** The [try] and [catch] blocks touch nothing but [results] and the
    published collections. *)
Definition same_control (b b2 : batch) : Prop :=
  newUrls b2 = newUrls b ∧ onProgress b2 = onProgress b ∧
  index b2 = index b ∧ completed b2 = completed b ∧
  aborted b2 = aborted b ∧ workers b2 = workers b ∧
  calls b2 = calls b ∧ progress b2 = progress b ∧ returned b2 = returned b.

(** What a batch has done so far, relative to the collections [st0] and
    the pre-filter's [r0] it started from: the feeds and items it has
    published sit in front of those it found, every new feed belongs to a
    URL that was fetched, and every error recorded after the pre-filter
    belongs to one, too. *)
Inductive outcome_inv (st0 : store) (r0 : results) (b : batch) : Prop :=
| OutcomeInv (newFeeds : list RSSFeed.t) (newItems : list RSSItem.t)
             (later : list string) :
    feeds (state b) = newFeeds ++ feeds st0 →
    items (state b) = newItems ++ items st0 →
    Forall (λ f, RSSFeed.url f ∈ calls b) newFeeds →
    success (res b) = success r0 + length newFeeds →
    skipped (res b) = skipped r0 →
    errors (res b) = errors r0 ++ later →
    failed (res b) = failed r0 + length later →
    Forall (λ e, ∃ c m, c ∈ calls b ∧ e = c +:+ ": " +:+ m) later →
    (∀ w cur, workers b !! w = Some (Waiting cur) → cur ∈ calls b) →
    outcome_inv st0 r0 b.

(** What settling a race does to the results and to the collections: a
    cancelled iteration touches neither, a commit publishes one feed
    with its entries and counts one success, and everything else
    records one failure. *)
Inductive settle_effect (cur : string) (r : settled) (b b' : batch) : Prop :=
| SettleCancelled :
    (r = Thrown cancelled ∨
     (∃ parsed id t now, r = Parsed parsed id t now) ∧ aborted b = true) →
    res b' = res b → state b' = state b →
    settle_effect cur r b b'
| SettleCommitted parsed id t now :
    r = Parsed parsed id t now → aborted b = false →
    0 < length (ParsedFeed.items parsed) →
    state b' =
      Store (RSSFeed.mk id (ParsedFeed.title parsed) cur
                        (ParsedFeed.description parsed) (Some t)
               :: feeds (state b))
            (convertToRSSItems (ParsedFeed.items parsed) id now
               ++ items (state b)) →
    res b' = Results (S (success (res b))) (failed (res b))
                     (skipped (res b)) (errors (res b)) →
    settle_effect cur r b b'
| SettleFailed message :
    aborted b = false ∨ (∃ m, r = Thrown m ∧ m ≠ cancelled) →
    state b' = state b →
    res b' = fail_with (cur +:+ message) (res b) →
    settle_effect cur r b b'.

(** What an event settles its worker's race to. *)
Definition settled_by (e : event) : option settled :=
  match e with
  | Fulfilled _ parsed id t now => Some (Parsed parsed id t now)
  | Rejected _ => Some (Thrown parse_failed)
  | TimedOut _ => Some (Thrown timed_out)
  | AbortHeard _ => Some (Thrown cancelled)
  | Cancel | Return => None
  end.

(** The bookkeeping of [results] against the counter [completed]; [f0]
    is the number of failures the pre-filter recorded. *)
Record account_inv (f0 : nat) (b : batch) : Prop := AccountInv {
  acc_errors : length (errors (res b)) = failed (res b);
  acc_le : success (res b) + failed (res b) ≤ f0 + completed b;
  acc_eq : aborted b = false →
           success (res b) + failed (res b) = f0 + completed b;
}.

(** What a batch has published so far, relative to the collections
    [st0] it started from: whole feeds, each with its entries. *)
Inductive published_inv (st0 : store) (b : batch) : Prop :=
| PublishedInv (newFeeds : list RSSFeed.t) (newItems : list RSSItem.t) :
    feeds (state b) = newFeeds ++ feeds st0 →
    items (state b) = newItems ++ items st0 →
    length newFeeds = success (res b) →
    Forall (λ f, 0 < length (entries_of (RSSFeed.id f) newItems)) newFeeds →
    Forall (λ i, RSSItem.feedId i ∈ RSSFeed.id <$> newFeeds ∧
                 RSSItem.isRead i = false ∧ RSSItem.isStarred i = false)
           newItems →
    published_inv st0 b.

(** ** Data for the worked examples *)

Module Examples.

Definition clock (t : Z) : nat → Z := λ _, t.

(** An article as parsed from a feed. *)
Definition article (title link content : string) : ParsedItem.t :=
  ParsedItem.mk (Some title) (Some link) (Some content) None None None
                None None.

(** A stored entry. *)
Definition entry (id feedId title link content : string)
    (isRead isStarred : bool) : RSSItem.t :=
  RSSItem.mk id feedId title link (Some content) (Some content) None None
             None isRead isStarred.

(** Flag preservation: an entry the user has read and starred, and the
    same article fetched again under a new title. *)
Definition read_and_starred : RSSItem.t :=
  entry "f-0-1000" "f" "Old title" "http://a.example/1" "old text" true true.

Definition fetched_again : list ParsedItem.t :=
  [ article "New title" "http://a.example/1" "new text" ].

(** Two feeds carrying the same article. The user has read it in feed
    [g], whose entries are ahead of those of feed [f] in the
    collection. *)
Definition shared_article : list ParsedItem.t :=
  [ article "Shared" "http://a.example/shared" "text" ].

Definition read_in_g : RSSItem.t :=
  entry "g-0-900" "g" "Shared" "http://a.example/shared" "text" true true.

Definition two_feeds : store :=
  Store
    [ RSSFeed.mk "g" "Feed g" "http://g.example/feed" None (Some 900%Z);
      RSSFeed.mk "f" "Feed f" "http://f.example/feed" None (Some 800%Z) ]
    (read_in_g :: convertToRSSItems shared_article "f" (clock 800)).

(** A collection in which every link occurs once. *)
Definition distinct_links : store :=
  Store
    [ RSSFeed.mk "f" "Feed f" "http://f.example/feed" None (Some 800%Z) ]
    [ entry "f-0-800" "f" "One" "http://a.example/1" "text one" true false;
      entry "f-1-800" "f" "Two" "http://a.example/2" "text two" false true;
      entry "g-0-700" "g" "Other" "http://b.example/1" "other" true true ].

Definition distinct_links_parse : ParsedFeed.t :=
  ParsedFeed.mk "Feed f" None
    [ article "One" "http://a.example/1" "text one";
      article "Two" "http://a.example/2" "text two" ].

(** A feed two of whose articles share a link; the user has read the
    second one. *)
Definition same_link_twice : ParsedFeed.t :=
  ParsedFeed.mk "Feed h" None
    [ article "Part one" "http://h.example/story" "one";
      article "Part two" "http://h.example/story" "two" ].

Definition second_read : store :=
  Store
    [ RSSFeed.mk "h" "Feed h" "http://h.example/feed" None (Some 800%Z) ]
    (markAsRead "h-1-800" true
       (convertToRSSItems (ParsedFeed.items same_link_twice) "h" (clock 800))).

End Examples.

Module BatchExamples.
Local Existing Instance Demo.platform.

(** One subscription, and a list to import: a new feed listed twice, a
    URL of another scheme, a text that is no URL, the feed already
    subscribed, and one more new feed. *)
Definition one_feed : store :=
  Store
    [ RSSFeed.mk "old" "Old feed" "http://old.example/feed" None (Some 500%Z) ]
    [].

Definition import_list : list string :=
  [ "http://new.example/feed"; "ftp://files.example/feed"; "not a url";
    "http://old.example/feed"; "http://new.example/feed";
    "http://third.example/feed" ].

Definition import_start : batch := addFeedsBatch one_feed import_list true.

(** Both fetches of the new feed succeed, the third feed times out. *)
Definition import_run : list event :=
  [ Fulfilled 0 Demo.sample_feed "id-1" 1000 (Examples.clock 1000);
    Fulfilled 1 Demo.sample_feed "id-2" 1001 (Examples.clock 1001);
    TimedOut 2;
    Return ].

(** The first fetch succeeds, then the user cancels: the abort listeners
    of the two workers still waiting reject their races, and the call
    returns. *)
Definition cancelled_run : list event :=
  [ Fulfilled 0 Demo.sample_feed "id-1" 1000 (Examples.clock 1000);
    Cancel;
    AbortHeard 1;
    AbortHeard 2;
    Return ].

(** A collection holding a feed whose stored URL is not an http URL. *)
Definition legacy_feed : store :=
  Store [ RSSFeed.mk "files" "Files" "ftp://files.example/feed" None None ] [].

(** A URL typed into the add dialog with a blank after it, and the
    collection after [addFeed] has subscribed to it. *)
Definition typed_url : string := "http://old.example/feed ".

Definition typed_feed : store :=
  (addFeed (Store [] []) typed_url
     (Parsed Demo.sample_feed "old" 500 (Examples.clock 500)) false).2.

(** The URL of a feed with a no-break space before it, as an [xmlUrl]
    attribute of an imported OPML file may hold it. *)
Definition padded_url : string := Demo.nbsp +:+ "http://new.example/feed".

End BatchExamples.

Module MoreExamples.
Local Existing Instance Demo.platform.

(** The collection after [addFeed] has subscribed to a new feed. *)
Definition with_new_feed : store :=
  (addFeed BatchExamples.one_feed "http://new.example/feed"
     (Parsed Demo.sample_feed "id-1" 1000 (Examples.clock 1000)) false).2.

(** A batch in which the first fetch has succeeded and the user has
    cancelled. *)
Definition cancelled_import : batch :=
  default BatchExamples.import_start
    (run BatchExamples.import_start (take 2 BatchExamples.cancelled_run)).

(** A list none of whose URLs is a candidate. *)
Definition nothing_new : list string :=
  [ "ftp://files.example/feed"; "http://old.example/feed"; "not a url" ].



(** Twelve feeds, the environment in which every refresh fails, and the
    two batches completing back to front. *)
Definition twelve_feeds : store :=
  Store
    ((λ k, RSSFeed.mk (pretty k) "Feed" ("http://feeds.example/" +:+ pretty k)
             None None) <$> seq 0 12)
    [].

Definition offline : nat → refreshed :=
  λ _, Refreshed (inl "请求超时") (Examples.clock 0) 0.

Definition back_to_front : list (list nat) :=
  [ reverse (seq 0 10); [1; 0] ].

(** Two feeds, of which the refresh of the first fails and that of the
    second finds the shared article; the second completes first. *)
Definition first_fails : nat → refreshed :=
  λ i, match i with
       | 0 => Refreshed (inl "请求超时") (Examples.clock 0) 0
       | _ => Refreshed (inr (ParsedFeed.mk "Feed f" None Examples.shared_article))
                (Examples.clock 2000) 2000
       end.

(** Twelve URLs to import. *)
Definition many_urls : list string :=
  (λ k, "http://feeds.example/" +:+ pretty k) <$> seq 0 12.

(** A guid shared by two articles of one parse. *)
Definition shared_guid : list ParsedItem.t :=
  [ ParsedItem.mk (Some "One") (Some "http://a.example/1") None None None None
      None (Some "post");
    ParsedItem.mk (Some "Two") (Some "http://a.example/2") None None None None
      None (Some "post");
    ParsedItem.mk (Some "Three") (Some "http://a.example/3") None None None None
      None None ].

End MoreExamples.

(* ================================================================== *)
(** * Part II: properties *)
(* ================================================================== *)

(** ** Proof automation *)

(** Splits a goal [batch_inv b] into its clauses and closes the routine
    ones. *)
Ltac split_inv :=
  constructor; simpl; unfold total in *; simpl;
  try done; try lia; try (by auto); try (intros; congruence);
  try (by intros [? ?]; simplify_eq).

(** ** Lists *)

Lemma filter_all {A} (P : A → Prop) `{!∀ x, Decision (P x)} (l : list A) :
  Forall P l → filter P l = l.
Proof.
  induction 1 as [|x l Hx _ IH]; [done|].
  by rewrite filter_cons_True, IH.
Qed.

Lemma filter_none {A} (P : A → Prop) `{!∀ x, Decision (P x)} (l : list A) :
  Forall (λ x, ¬ P x) l → filter P l = [].
Proof.
  induction 1 as [|x l Hx _ IH]; [done|].
  by rewrite filter_cons_False.
Qed.

(** ** Refresh merge *)

(** The entry [convertToRSSItems] builds at position [index]. *)
Lemma convertToRSSItems_lookup parsedItems feedId now index item :
  parsedItems !! index = Some item →
  ∃ n, convertToRSSItems parsedItems feedId now !! index = Some n ∧
    RSSItem.feedId n = feedId ∧
    RSSItem.title n = Js.or_else (ParsedItem.title item) "无标题" ∧
    RSSItem.link n = Js.or_else (ParsedItem.link item) "" ∧
    RSSItem.content n =
      Some (Js.or_else (ParsedItem.content item)
              (Js.or_else (ParsedItem.contentSnippet item) "")) ∧
    RSSItem.pubDate n = ParsedItem.pubDate item ∧
    RSSItem.author n = ParsedItem.author item ∧
    RSSItem.categories n = ParsedItem.categories item ∧
    RSSItem.isRead n = false ∧ RSSItem.isStarred n = false.
Proof.
  intros Hitem. unfold convertToRSSItems.
  eexists. rewrite list_lookup_imap, Hitem. simpl. split; [reflexivity|].
  repeat split.
Qed.

Lemma convertToRSSItems_lookup_None parsedItems feedId now index :
  parsedItems !! index = None →
  convertToRSSItems parsedItems feedId now !! index = None.
Proof.
  intros Hnone. unfold convertToRSSItems.
  by rewrite list_lookup_imap, Hnone.
Qed.

Lemma convertToRSSItems_length parsedItems feedId now :
  length (convertToRSSItems parsedItems feedId now) = length parsedItems.
Proof. unfold convertToRSSItems. apply length_imap. Qed.

Lemma convertToRSSItems_feedId parsedItems feedId now n :
  n ∈ convertToRSSItems parsedItems feedId now → RSSItem.feedId n = feedId.
Proof.
  intros [i Hi]%list_elem_of_lookup. unfold convertToRSSItems in Hi.
  rewrite list_lookup_imap in Hi.
  destruct (parsedItems !! i); simplify_eq/=. reflexivity.
Qed.

(** [find_by_link] returns the first entry, in collection order, that has
    the link. *)
Lemma find_by_link_Some prev l e :
  find_by_link prev l = Some e ↔
  ∃ before after, prev = before ++ e :: after ∧ RSSItem.link e = l ∧
    ∀ x, x ∈ before → RSSItem.link x ≠ l.
Proof.
  unfold find_by_link. induction prev as [|y prev IH]; simpl.
  - split; [done|]. intros (before & after & Heq & _).
    by destruct before.
  - case_bool_decide as Hy.
    + split.
      * intros [= <-]. exists [], prev. split_and!; [done..|]. set_solver.
      * intros (before & after & Heq & Hl & Hnone).
        destruct before as [|z before]; simplify_eq/=.
        -- done.
        -- exfalso. apply (Hnone z); [apply elem_of_cons; by left|done].
    + rewrite IH. split.
      * intros (before & after & -> & Hl & Hnone).
        exists (y :: before), after. split_and!; [done..|].
        intros x [->|?]%elem_of_cons; auto.
      * intros (before & after & Heq & Hl & Hnone).
        destruct before as [|z before]; simplify_eq/=.
        exists before, after. split_and!; [done..|].
        intros x Hx. apply Hnone. apply elem_of_cons. by right.
Qed.

Lemma find_by_link_None prev l :
  find_by_link prev l = None ↔ ∀ x, x ∈ prev → RSSItem.link x ≠ l.
Proof.
  unfold find_by_link. induction prev as [|y prev IH]; simpl.
  - split; [|done]. intros _ x Hx. by apply elem_of_nil in Hx.
  - case_bool_decide as Hy.
    + split; [done|]. intros Hnone. exfalso.
      apply (Hnone y); [apply elem_of_cons; by left|done].
    + rewrite IH. split.
      * intros Hnone x [->|?]%elem_of_cons; auto.
      * intros Hnone x Hx. apply Hnone. apply elem_of_cons. by right.
Qed.

Lemma find_by_link_is_Some prev l e :
  e ∈ prev → RSSItem.link e = l → is_Some (find_by_link prev l).
Proof.
  intros He Hl. destruct (find_by_link prev l) eqn:Hfind; [by eexists|].
  exfalso. by eapply find_by_link_None.
Qed.

(** The merged part of the refreshed collection comes first, position by
    position. *)
Lemma refresh_items_lookup feedId newItems prev i n :
  newItems !! i = Some n →
  refresh_items feedId newItems prev !! i =
    Some (match find_by_link prev (RSSItem.link n) with
          | Some existing =>
              RSSItem.with_flags n (RSSItem.isRead existing)
                                 (RSSItem.isStarred existing)
          | None => n
          end).
Proof.
  intros Hn. unfold refresh_items.
  rewrite lookup_app_l.
  - by rewrite list_lookup_fmap, Hn.
  - rewrite length_fmap. by eapply lookup_lt_Some.
Qed.

Lemma entries_of_refresh_items feedId newItems prev :
  (∀ n, n ∈ newItems → RSSItem.feedId n = feedId) →
  entries_of feedId (refresh_items feedId newItems prev) =
    (λ newItem,
      match find_by_link prev (RSSItem.link newItem) with
      | Some existing =>
          RSSItem.with_flags newItem (RSSItem.isRead existing)
                             (RSSItem.isStarred existing)
      | None => newItem
      end) <$> newItems.
Proof.
  intros Hown. unfold entries_of, refresh_items.
  rewrite filter_app.
  replace (filter (λ i, RSSItem.feedId i = feedId)
             (filter (λ i, RSSItem.feedId i ≠ feedId) prev)) with (@nil RSSItem.t).
  - rewrite app_nil_r. apply filter_all.
    apply Forall_forall. intros m [n [-> Hn]]%list_elem_of_fmap.
    specialize (Hown n Hn). by destruct (find_by_link prev (RSSItem.link n)).
  - symmetry. apply filter_none. apply Forall_forall.
    intros x [Hx _]%list_elem_of_filter. done.
Qed.

Lemma others_of_refresh_items feedId newItems prev :
  (∀ n, n ∈ newItems → RSSItem.feedId n = feedId) →
  filter (λ i, RSSItem.feedId i ≠ feedId) (refresh_items feedId newItems prev) =
  filter (λ i, RSSItem.feedId i ≠ feedId) prev.
Proof.
  intros Hown. unfold refresh_items. rewrite filter_app.
  rewrite list_filter_filter.
  replace (filter (λ i, RSSItem.feedId i ≠ feedId) _) with (@nil RSSItem.t) at 1.
  - simpl. apply list_filter_iff. tauto.
  - symmetry. apply filter_none. apply Forall_forall.
    intros m [n [-> Hn]]%list_elem_of_fmap.
    specialize (Hown n Hn). destruct (find_by_link prev (RSSItem.link n)); simpl; auto.
Qed.

Lemma flags_follow_first_match_elim feedId prev e e0 :
  flags_follow_first_match feedId prev = true →
  e ∈ prev → RSSItem.feedId e = feedId →
  find_by_link prev (RSSItem.link e) = Some e0 →
  RSSItem.isRead e0 = RSSItem.isRead e ∧
  RSSItem.isStarred e0 = RSSItem.isStarred e.
Proof.
  unfold flags_follow_first_match. intros Hall He Hfeed Hfind.
  rewrite forallb_forall in Hall.
  specialize (Hall e). rewrite <- list_elem_of_In in Hall.
  specialize (Hall He). rewrite decide_True in Hall by done.
  rewrite Hfind in Hall.
  apply andb_prop in Hall as [?%bool_decide_eq_true ?%bool_decide_eq_true].
  done.
Qed.

(** Links that are pairwise distinct over the whole collection are one way
    to meet [flags_follow_first_match]. *)
Lemma unique_links_follow_first_match feedId prev :
  NoDup (RSSItem.link <$> prev) → flags_follow_first_match feedId prev = true.
Proof.
  intros Hnodup. unfold flags_follow_first_match.
  apply forallb_forall. intros e He%list_elem_of_In.
  case_decide; [|done].
  destruct (find_by_link prev (RSSItem.link e)) as [e0|] eqn:Hfind; [|done].
  apply find_by_link_Some in Hfind as (before & after & -> & Hl & Hnone).
  assert (e0 = e) as ->; [|by rewrite !bool_decide_eq_true_2].
  rewrite fmap_app, fmap_cons in Hnodup.
  apply NoDup_app in Hnodup as (_ & Hdisj & [Hnot _]%NoDup_cons).
  apply elem_of_app in He as [He|[->|He]%elem_of_cons]; [|done|].
  - exfalso. by eapply Hnone.
  - exfalso. apply Hnot. rewrite Hl. apply list_elem_of_fmap. eauto.
Qed.

(** C1, as the code has it. In a refresh merge, the entry built from a
    newly parsed article has the title, content, date, author and
    categories of that article. When its link equals the link of an
    existing entry, its [isRead] and [isStarred] are those of the entry
    the lookup finds, which is the first one in collection order, over
    all feeds, with that link, and so that very entry when no other one
    shares the link; when no existing entry has its link, both flags
    are [false]. *)
Theorem refresh_merge_carries_flags prev parsedItems feedId now index item :
  parsedItems !! index = Some item →
  ∃ m,
    refresh_items feedId (convertToRSSItems parsedItems feedId now) prev
      !! index = Some m ∧
    RSSItem.title m = Js.or_else (ParsedItem.title item) "无标题" ∧
    RSSItem.link m = Js.or_else (ParsedItem.link item) "" ∧
    RSSItem.content m =
      Some (Js.or_else (ParsedItem.content item)
              (Js.or_else (ParsedItem.contentSnippet item) "")) ∧
    RSSItem.pubDate m = ParsedItem.pubDate item ∧
    RSSItem.author m = ParsedItem.author item ∧
    RSSItem.categories m = ParsedItem.categories item ∧
    (∀ e, e ∈ prev → RSSItem.link e = RSSItem.link m →
       ∃ before existing after,
         prev = before ++ existing :: after ∧
         RSSItem.link existing = RSSItem.link m ∧
         (∀ x, x ∈ before → RSSItem.link x ≠ RSSItem.link m) ∧
         RSSItem.isRead m = RSSItem.isRead existing ∧
         RSSItem.isStarred m = RSSItem.isStarred existing) ∧
    (∀ e, e ∈ prev → RSSItem.link e = RSSItem.link m →
       (∀ e', e' ∈ prev → RSSItem.link e' = RSSItem.link m → e' = e) →
       RSSItem.isRead m = RSSItem.isRead e ∧
       RSSItem.isStarred m = RSSItem.isStarred e) ∧
    ((∀ e, e ∈ prev → RSSItem.link e ≠ RSSItem.link m) →
       RSSItem.isRead m = false ∧ RSSItem.isStarred m = false).
Proof.
  intros Hitem.
  destruct (convertToRSSItems_lookup _ feedId now _ _ Hitem)
    as (n & Hn & _ & Htitle & Hlink & Hcontent & Hdate & Hauthor & Hcat
          & Hread & Hstar).
  eexists. split; [by apply refresh_items_lookup|].
  destruct (find_by_link prev (RSSItem.link n)) as [existing|] eqn:Hfind;
    simpl; (split_and!; [done..| | |]).
  - intros e He Hl.
    apply find_by_link_Some in Hfind as (before & after & -> & Hl' & Hnone).
    exists before, existing, after. split_and!; done.
  - intros e He Hl Honly.
    apply find_by_link_Some in Hfind as (before & after & -> & Hl' & _).
    rewrite <- (Honly existing); [done| |done].
    apply elem_of_app. right. apply elem_of_cons. by left.
  - intros Hnone. apply find_by_link_Some in Hfind as (? & ? & -> & ? & _).
    exfalso. apply (Hnone existing); [set_solver|done].
  - intros e He Hl. exfalso.
    by eapply (proj1 (find_by_link_None prev (RSSItem.link n))).
  - intros e He Hl. exfalso.
    by eapply (proj1 (find_by_link_None prev (RSSItem.link n))).
  - done.
Qed.

(** The flag-preservation example of the specification: the re-fetched
    article keeps [isRead = true] and [isStarred = true] and shows its
    new title and text. *)
Lemma refresh_merge_carries_flags_witness :
  Examples.fetched_again !! 0 = Some (Examples.article "New title" "http://a.example/1" "new text") ∧
  ∃ m,
    refresh_items "f"
      (convertToRSSItems Examples.fetched_again "f" (Examples.clock 2000))
      [Examples.read_and_starred] !! 0 = Some m ∧
    RSSItem.title m = "New title" ∧
    RSSItem.content m = Some "new text" ∧
    RSSItem.isRead m = true ∧ RSSItem.isStarred m = true.
Proof.
  split; [reflexivity|].
  destruct (refresh_merge_carries_flags [Examples.read_and_starred]
              Examples.fetched_again "f" (Examples.clock 2000) 0 _ eq_refl)
    as (m & Hm & Htitle & Hlink & Hcontent & _).
  exists m. split; [exact Hm|].
  vm_compute in Hm. injection Hm as <-. vm_compute. auto.
Defined.

(** C1, as stated, fails: the link of a newly parsed entry equals the
    link of an existing entry, and the merged entry does not have that
    entry's flags. First input: a feed [h] two of whose articles share a
    link, the entry of the second one read; the entry merged for the
    second article is unread, as the entry of the first one is. Second
    input: feed [f] owns an entry that is neither read nor starred; the
    entry merged for the same article is both, as the entry of feed
    [g] ahead of it is. *)
Lemma refresh_merge_flags_of_another_entry :
  (∃ e m,
     items Examples.second_read !! 1 = Some e ∧
     refresh_items "h"
       (convertToRSSItems (ParsedFeed.items Examples.same_link_twice) "h"
          (Examples.clock 2000))
       (items Examples.second_read) !! 1 = Some m ∧
     RSSItem.title e = "Part two" ∧ RSSItem.title m = "Part two" ∧
     RSSItem.link m = RSSItem.link e ∧
     RSSItem.isRead e = true ∧ RSSItem.isRead m = false) ∧
  (∃ e m,
     items Examples.two_feeds !! 1 = Some e ∧
     RSSItem.feedId e = "f" ∧
     refresh_items "f"
       (convertToRSSItems Examples.shared_article "f" (Examples.clock 2000))
       (items Examples.two_feeds) !! 0 = Some m ∧
     RSSItem.link m = RSSItem.link e ∧
     (RSSItem.isRead e, RSSItem.isStarred e) = (false, false) ∧
     (RSSItem.isRead m, RSSItem.isStarred m) = (true, true)).
Proof.
  split; do 2 eexists; split_and!; reflexivity.
Qed.

(** C4, as the code has it. The lookup of the refresh merge runs over the
    whole collection, whatever feed an entry belongs to: the flags carried
    forward for a new entry are those of the first entry in collection
    order whose link equals the new entry's link, and nothing relates the
    feed of that entry to the feed being refreshed. *)
Theorem refresh_lookup_spans_all_feeds before existing after parsedItems
    feedId now index item :
  parsedItems !! index = Some item →
  RSSItem.link existing = Js.or_else (ParsedItem.link item) "" →
  (∀ x, x ∈ before → RSSItem.link x ≠ RSSItem.link existing) →
  ∃ m,
    refresh_items feedId (convertToRSSItems parsedItems feedId now)
      (before ++ existing :: after) !! index = Some m ∧
    RSSItem.isRead m = RSSItem.isRead existing ∧
    RSSItem.isStarred m = RSSItem.isStarred existing.
Proof.
  intros Hitem Hlink Hnone.
  destruct (convertToRSSItems_lookup _ feedId now _ _ Hitem)
    as (n & Hn & _ & _ & Hlink_n & _).
  eexists. split; [by apply refresh_items_lookup|].
  assert (find_by_link (before ++ existing :: after) (RSSItem.link n)
          = Some existing) as ->; [|done].
  apply find_by_link_Some. exists before, after.
  rewrite Hlink_n, <- Hlink. done.
Qed.

(** Refreshing feed [f] while the collection holds an entry of feed [g]
    with the same link. *)
Lemma refresh_lookup_spans_all_feeds_witness :
  Examples.shared_article !! 0
    = Some (Examples.article "Shared" "http://a.example/shared" "text") ∧
  RSSItem.link Examples.read_in_g = "http://a.example/shared" ∧
  (∀ x, x ∈ @nil RSSItem.t → RSSItem.link x ≠ RSSItem.link Examples.read_in_g) ∧
  RSSItem.feedId Examples.read_in_g ≠ "f" ∧
  ∃ m,
    refresh_items "f"
      (convertToRSSItems Examples.shared_article "f" (Examples.clock 2000))
      (items Examples.two_feeds) !! 0 = Some m ∧
    RSSItem.isRead m = true ∧ RSSItem.isStarred m = true.
Proof.
  assert (∀ x, x ∈ @nil RSSItem.t →
            RSSItem.link x ≠ RSSItem.link Examples.read_in_g) as Hnil.
  { intros x Hx. by apply elem_of_nil in Hx. }
  split_and!; [reflexivity|reflexivity|exact Hnil|by vm_compute|].
  exact (refresh_lookup_spans_all_feeds [] Examples.read_in_g
           (convertToRSSItems Examples.shared_article "f" (Examples.clock 800))
           Examples.shared_article "f" (Examples.clock 2000) 0 _
           eq_refl eq_refl Hnil).
Defined.

(** C4, as stated, fails: feed [f] owns one entry, unread and unstarred,
    yet after a refresh of [f] its entry is read and starred, the flags
    having come from the entry of feed [g] that shares its link. *)
Lemma refresh_lookup_crosses_feeds :
  entry_key <$> entries_of "f" (items Examples.two_feeds)
    = [("http://a.example/shared", Some "text", false, false)] ∧
  entry_key <$> entries_of "f"
      (refresh_items "f"
         (convertToRSSItems Examples.shared_article "f" (Examples.clock 2000))
         (items Examples.two_feeds))
    = [("http://a.example/shared", Some "text", true, true)].
Proof. split; reflexivity. Qed.

(** C5, as the code has it. If the parse yields the entries the stored set
    of the feed was built from (same links and contents, in the same
    order), and every stored entry of the feed carries the flags of the
    first entry of the collection that has its link (as is the case when
    links are unique in the collection), then a refresh leaves the feed's
    entries unchanged when compared by link, content, [isRead] and
    [isStarred], and leaves the entries of every other feed as they
    were. *)
Theorem refresh_idempotent st feedId parsed now0 now t :
  (λ i, (RSSItem.link i, RSSItem.content i)) <$> entries_of feedId (items st)
    = (λ i, (RSSItem.link i, RSSItem.content i))
        <$> convertToRSSItems (ParsedFeed.items parsed) feedId now0 →
  flags_follow_first_match feedId (items st) = true →
  let st' := refreshFeed st feedId (inr parsed) now t in
  entry_key <$> entries_of feedId (items st')
    = entry_key <$> entries_of feedId (items st) ∧
  filter (λ i, RSSItem.feedId i ≠ feedId) (items st')
    = filter (λ i, RSSItem.feedId i ≠ feedId) (items st).
Proof.
  intros Hsame Hflags st'. subst st'. unfold refreshFeed.
  destruct (find _ (feeds st)) as [feed|]; [|done]. simpl.
  set (newItems := convertToRSSItems (ParsedFeed.items parsed) feedId now).
  assert (∀ n, n ∈ newItems → RSSItem.feedId n = feedId) as Hown.
  { intros n. apply convertToRSSItems_feedId. }
  split; [|by apply others_of_refresh_items].
  rewrite entries_of_refresh_items by done.
  apply list_eq. intros i.
  rewrite <- list_fmap_compose, !list_lookup_fmap.
  pose proof (f_equal (λ l, l !! i) Hsame) as Hi. simpl in Hi.
  rewrite !list_lookup_fmap in Hi. subst newItems.
  destruct (ParsedFeed.items parsed !! i) as [item|] eqn:Hitem.
  - destruct (convertToRSSItems_lookup _ feedId now _ _ Hitem)
      as (n & -> & _ & _ & Hlink & Hcontent & _).
    destruct (convertToRSSItems_lookup _ feedId now0 _ _ Hitem)
      as (n0 & Hn0 & _ & _ & Hlink0 & Hcontent0 & _).
    rewrite Hn0 in Hi.
    destruct (entries_of feedId (items st) !! i) as [e|] eqn:He;
      simplify_eq/=.
    assert (e ∈ items st ∧ RSSItem.feedId e = feedId) as [Hin Hfeed].
    { apply list_elem_of_lookup_2 in He.
      apply list_elem_of_filter in He. tauto. }
    destruct (find_by_link_is_Some (items st) (RSSItem.link e) e Hin eq_refl)
      as [e0 Hfind].
    destruct (flags_follow_first_match_elim _ _ _ _ Hflags Hin Hfeed Hfind)
      as [Hread Hstar].
    assert (RSSItem.link n = RSSItem.link e) as Hl by congruence.
    assert (RSSItem.content n = RSSItem.content e) as Hc by congruence.
    rewrite Hl, Hfind. unfold entry_key. simpl. congruence.
  - rewrite (convertToRSSItems_lookup_None _ feedId now _ Hitem).
    rewrite (convertToRSSItems_lookup_None _ feedId now0 _ Hitem) in Hi.
    by destruct (entries_of feedId (items st) !! i).
Qed.

(** A refresh of feed [f] in a collection whose links are all distinct:
    the flags the user has set survive and nothing else changes. *)
Lemma refresh_idempotent_witness :
  let st := Examples.distinct_links in
  let st' := refreshFeed st "f" (inr Examples.distinct_links_parse)
               (Examples.clock 2000) 2000 in
  (λ i, (RSSItem.link i, RSSItem.content i)) <$> entries_of "f" (items st)
    = (λ i, (RSSItem.link i, RSSItem.content i))
        <$> convertToRSSItems (ParsedFeed.items Examples.distinct_links_parse)
              "f" (Examples.clock 800) ∧
  flags_follow_first_match "f" (items st) = true ∧
  entry_key <$> entries_of "f" (items st')
    = entry_key <$> entries_of "f" (items st) ∧
  filter (λ i, RSSItem.feedId i ≠ "f") (items st')
    = filter (λ i, RSSItem.feedId i ≠ "f") (items st).
Proof.
  split; [reflexivity|]. split; [reflexivity|].
  exact (refresh_idempotent Examples.distinct_links "f"
           Examples.distinct_links_parse (Examples.clock 800)
           (Examples.clock 2000) 2000 eq_refl eq_refl).
Defined.

(** C5, as stated, fails. First input: feed [f] holds exactly what its
    parse produced, one unread entry; the same parse again turns it into a
    read and starred one, because feed [g] holds a read entry with the
    same link. Second input: a single feed [h] two of whose articles share
    a link, the second one read; the same parse again resets the second
    entry to unread. *)
Lemma refresh_not_idempotent :
  (let st := Examples.two_feeds in
   let parsed := ParsedFeed.mk "Feed f" None Examples.shared_article in
   entries_of "f" (items st)
     = convertToRSSItems (ParsedFeed.items parsed) "f" (Examples.clock 800) ∧
   entry_key <$> entries_of "f" (items st)
     = [("http://a.example/shared", Some "text", false, false)] ∧
   entry_key <$> entries_of "f"
       (items (refreshFeed st "f" (inr parsed) (Examples.clock 2000) 2000))
     = [("http://a.example/shared", Some "text", true, true)]) ∧
  (let st := Examples.second_read in
   let parsed := Examples.same_link_twice in
   items st
     = markAsRead "h-1-800" true
         (convertToRSSItems (ParsedFeed.items parsed) "h" (Examples.clock 800)) ∧
   entry_key <$> entries_of "h" (items st)
     = [("http://h.example/story", Some "one", false, false);
        ("http://h.example/story", Some "two", true, false)] ∧
   entry_key <$> entries_of "h"
       (items (refreshFeed st "h" (inr parsed) (Examples.clock 2000) 2000))
     = [("http://h.example/story", Some "one", false, false);
        ("http://h.example/story", Some "two", false, false)]).
Proof. split; split_and!; reflexivity. Qed.

(** ** Resolver *)

Section ResolverFacts.
Context `{Platform}.

(** Storing each arrival at its own index makes the slots independent
    of the order of arrival. *)
Lemma settle_slots_lookup {A B} (g : B → A) (xs : list B) order slots i :
  length slots = length xs →
  foldl (λ s a, <[a.1 := Some a.2]> s) slots
    (omap (λ j, (λ x, (j, g x)) <$> xs !! j) order) !! i
  = if decide (i ∈ order) then Some ∘ g <$> xs !! i else slots !! i.
Proof.
  revert slots. induction order as [|j order IH]; intros slots Hlen.
  - done.
  - assert (i ∈ j :: order ↔ i = j ∨ i ∈ order) as Hcons
      by apply elem_of_cons.
    change (omap ?f (j :: order))
      with (match f j with Some y => y :: omap f order | None => omap f order end).
    cbn beta.
    destruct (xs !! j) as [x|] eqn:Hx; cbn [fmap option_fmap option_map foldl fst snd].
    + rewrite IH by (by rewrite length_insert).
      destruct (decide (i ∈ order)) as [Hin|Hnin].
      * rewrite decide_True; [done|]. tauto.
      * destruct (decide (i = j)) as [->|Hne].
        -- rewrite decide_True by tauto.
           rewrite list_lookup_insert_eq; [by rewrite Hx|].
           rewrite Hlen. by eapply lookup_lt_Some.
        -- rewrite list_lookup_insert_ne by done.
           rewrite decide_False; [done|]. tauto.
    + rewrite IH by done.
      destruct (decide (i ∈ order)) as [Hin|Hnin].
      * rewrite decide_True; [done|]. tauto.
      * destruct (decide (i = j)) as [->|Hne].
        -- rewrite decide_True by tauto.
           rewrite Hx. simpl.
           apply lookup_ge_None. rewrite Hlen. by apply lookup_ge_None.
        -- rewrite decide_False; [done|]. tauto.
Qed.

Lemma Promise_all_complete {A B} (g : B → A) (xs : list B) order :
  order ≡ₚ seq 0 (length xs) →
  Promise_all (length xs) (omap (λ j, (λ x, (j, g x)) <$> xs !! j) order)
  = Some (g <$> xs).
Proof.
  intros Hperm. unfold Promise_all, settle.
  assert (foldl (λ s a, <[a.1 := Some a.2]> s) (replicate (length xs) None)
            (omap (λ j, (λ x, (j, g x)) <$> xs !! j) order)
          = Some ∘ g <$> xs) as ->.
  { apply list_eq. intros i.
    rewrite settle_slots_lookup by apply length_replicate.
    rewrite list_lookup_fmap.
    case_decide as Hi; [done|].
    assert (length xs ≤ i) as Hge.
    { destruct (decide (i < length xs)) as [Hlt|]; [|lia].
      exfalso. apply Hi. rewrite Hperm. apply elem_of_seq. lia. }
    rewrite (proj2 (lookup_ge_None xs i)) by done.
    apply lookup_ge_None. by rewrite length_replicate. }
  apply mapM_Some. rewrite list_fmap_compose.
  apply Forall2_fmap_l, Forall_Forall2_diag, Forall_forall. done.
Qed.

(** [find] picks the element at the least position that satisfies the
    test. *)
Lemma find_first {A} (P : A → bool) (l : list A) i x :
  l !! i = Some x → P x = true →
  (∀ j y, j < i → l !! j = Some y → P y = false) →
  find P l = Some x.
Proof.
  revert i. induction l as [|z l IH]; intros i Hi HP Hbefore; [done|].
  destruct i as [|i]; simplify_eq/=.
  - by rewrite HP.
  - rewrite (Hbefore 0 z) by (done || lia).
    apply (IH i); [done..|].
    intros j y Hj Hy. apply (Hbefore (S j) y); [lia|done].
Qed.

Lemma find_nowhere {A} (P : A → bool) (l : list A) :
  (∀ y, y ∈ l → P y = false) → find P l = None.
Proof.
  induction l as [|z l IH]; intros Hall; [done|]. simpl.
  rewrite (Hall z) by set_solver. apply IH. intros y Hy. apply Hall. set_solver.
Qed.

(** Once every probe has completed, in whatever order, the outcome of
    the suffix phase is a function of the probes alone. *)
Lemma probe_suffixes_complete net order baseUrl :
  order ≡ₚ seq 0 (length (drop 1 RSS_SUFFIXES)) →
  probe_suffixes net order baseUrl =
    Some (match find (λ r : option ParsedFeed.t, bool_decide (r ≠ None))
                  (probe net baseUrl <$> drop 1 RSS_SUFFIXES) with
          | Some (Some successfulResult) => inr successfulResult
          | _ => inl parse_failed
          end).
Proof.
  intros Hperm. unfold probe_suffixes.
  rewrite (Promise_all_complete (probe net baseUrl)) by done.
  cbn [mbind option_bind].
  by destruct (find (λ r : option ParsedFeed.t, bool_decide (r ≠ None)) _)
    as [[?|]|].
Qed.

Lemma probe_Some net baseUrl suffix result :
  probe net baseUrl suffix = Some result ↔
  tryParseUrl net (baseUrl +:+ suffix) = Some result ∧
  0 < length (ParsedFeed.items result).
Proof.
  unfold probe. destruct (tryParseUrl net (baseUrl +:+ suffix)) as [r|].
  - case_decide; split; try intros [= <-]; try intros [[= <-] ?]; try done.
  - split; [done|]. by intros [? ?].
Qed.

Lemma probe_None net baseUrl suffix :
  probe net baseUrl suffix = None ↔
  ∀ r, tryParseUrl net (baseUrl +:+ suffix) = Some r →
       length (ParsedFeed.items r) = 0.
Proof.
  unfold probe. destruct (tryParseUrl net (baseUrl +:+ suffix)) as [r|].
  - case_decide; split; try done.
    + intros Hall. specialize (Hall r eq_refl). lia.
    + intros _ r' [= <-]. lia.
  - split; [|done]. by intros _ r.
Qed.

End ResolverFacts.

Section ResolverClaims.
Context `{Platform}.

(** C3. When the direct attempt fails, the resolver returns the feed of
    the suffix that comes first in the fixed suffix list among those
    whose probe yields a parseable document with at least one entry,
    whatever the order in which the concurrent probes complete. *)
Theorem suffix_chosen_by_list_position net order url i suffix result :
  let baseUrl := strip_trailing_slash (trim url) in
  (∀ direct, tryParseUrl net baseUrl = Some direct →
             length (ParsedFeed.items direct) = 0) →
  order ≡ₚ seq 0 (length (drop 1 RSS_SUFFIXES)) →
  drop 1 RSS_SUFFIXES !! i = Some suffix →
  tryParseUrl net (baseUrl +:+ suffix) = Some result →
  0 < length (ParsedFeed.items result) →
  (∀ j earlier r, j < i → drop 1 RSS_SUFFIXES !! j = Some earlier →
     tryParseUrl net (baseUrl +:+ earlier) = Some r →
     length (ParsedFeed.items r) = 0) →
  drop 1 RSS_SUFFIXES =
    [ "/feed"; "/feed/"; "/rss"; "/rss/"; "/index.xml"; "/feed.xml";
      "/rss.xml"; "?format=rss"; "?format=atom"; "/atom"; "/atom.xml" ] ∧
  parseRSSFeed net order url = Some (inr result).
Proof.
  intros baseUrl Hdirect Hperm Hsuffix Hresult Hitems Hearlier.
  split; [reflexivity|].
  assert (probe_suffixes net order baseUrl = Some (inr result)) as Hprobe.
  { rewrite probe_suffixes_complete by done.
    rewrite (find_first _ _ i (Some result)); [done| |done|].
    - rewrite list_lookup_fmap, Hsuffix. simpl. f_equal.
      by apply probe_Some.
    - intros j y Hj Hy. rewrite list_lookup_fmap in Hy.
      destruct (drop 1 RSS_SUFFIXES !! j) as [earlier|] eqn:Hj';
        simplify_eq/=.
      rewrite (proj2 (probe_None net baseUrl earlier)); [done|].
      intros r. by apply Hearlier with j. }
  unfold parseRSSFeed. fold baseUrl.
  destruct (tryParseUrl net baseUrl) as [direct|] eqn:Hd; [|done].
  rewrite decide_False; [done|].
  specialize (Hdirect direct eq_refl). lia.
Qed.

(** C6, as the code has it. When the direct URL and every suffix fail
    to yield a parseable non-empty feed, the resolver throws an error
    whose message is one fixed text; what went wrong underneath is not
    part of it. *)
Theorem exhausted_resolver_message net order url :
  let baseUrl := strip_trailing_slash (trim url) in
  order ≡ₚ seq 0 (length (drop 1 RSS_SUFFIXES)) →
  (∀ direct, tryParseUrl net baseUrl = Some direct →
             length (ParsedFeed.items direct) = 0) →
  (∀ suffix r, suffix ∈ drop 1 RSS_SUFFIXES →
     tryParseUrl net (baseUrl +:+ suffix) = Some r →
     length (ParsedFeed.items r) = 0) →
  parseRSSFeed net order url
    = Some (inl "无法解析该订阅源，请检查 URL 是否正确").
Proof.
  intros baseUrl Hperm Hdirect Hsuffixes.
  assert (probe_suffixes net order baseUrl = Some (inl parse_failed))
    as Hprobe.
  { rewrite probe_suffixes_complete by done.
    rewrite find_nowhere; [done|].
    intros y [suffix [-> Hin]]%list_elem_of_fmap.
    rewrite (proj2 (probe_None net baseUrl suffix)); [done|].
    intros r. by apply Hsuffixes. }
  unfold parseRSSFeed. fold baseUrl.
  destruct (tryParseUrl net baseUrl) as [direct|] eqn:Hd; [|done].
  rewrite decide_False; [done|].
  specialize (Hdirect direct eq_refl). lia.
Qed.

End ResolverClaims.

Section ResolverRuns.
Local Existing Instance Demo.platform.

(** A site whose own address is no feed but which serves feeds under
  [/rss] and [/atom]. The probes complete in reverse list order, so the
  Atom feed of [/atom] is there before the RSS feed of [/rss]; the RSS
  feed is returned all the same. *)
Lemma suffix_chosen_by_list_position_witness :
reverse (seq 0 11) ≡ₚ seq 0 (length (drop 1 RSS_SUFFIXES)) ∧
tryParseUrl Demo.site "http://a.example" = None ∧
tryParseUrl Demo.site "http://a.example/rss" = Some Demo.sample_feed ∧
tryParseUrl Demo.site "http://a.example/atom" = Some Demo.atom_feed ∧
parseRSSFeed Demo.site (reverse (seq 0 11)) " http://a.example/ "
  = Some (inr Demo.sample_feed).
Proof.
assert (reverse (seq 0 11) ≡ₚ seq 0 (length (drop 1 RSS_SUFFIXES))) as Hperm
  by apply reverse_Permutation.
split_and!; [exact Hperm|by vm_compute..|].
refine (proj2 (suffix_chosen_by_list_position Demo.site (reverse (seq 0 11))
          " http://a.example/ " 2 "/rss" Demo.sample_feed _ Hperm _ _ _ _)).
- intros direct Hdirect. vm_compute in Hdirect. discriminate.
- reflexivity.
- by vm_compute.
- vm_compute. lia.
- intros j earlier r Hj Hlookup Hr.
  destruct j as [|[|j]]; [| |lia]; vm_compute in Hlookup;
    injection Hlookup as <-; vm_compute in Hr; discriminate.
Defined.

Lemma refusing_never_parses url :
tryParseUrl Demo.refusing url = None.
Proof. reflexivity. Qed.

(** Nothing can be fetched: the resolver throws the fixed message. *)
Lemma exhausted_resolver_message_witness :
seq 0 11 ≡ₚ seq 0 (length (drop 1 RSS_SUFFIXES)) ∧
(∀ suffix, tryParseUrl Demo.refusing ("http://a.example" +:+ suffix) = None) ∧
parseRSSFeed Demo.refusing (seq 0 11) "http://a.example/"
  = Some (inl "无法解析该订阅源，请检查 URL 是否正确").
Proof.
split; [reflexivity|]. split; [intros suffix; apply refusing_never_parses|].
apply (exhausted_resolver_message Demo.refusing (seq 0 11) "http://a.example/").
- reflexivity.
- intros direct Hdirect. by rewrite refusing_never_parses in Hdirect.
- intros suffix r _ Hr. by rewrite refusing_never_parses in Hr.
Defined.

(** C6, as stated, fails: with every request refused, and again with
  every request aborted by its timer, the last error underneath is the
  one [fetchWithProxy] reports for the last suffix; the error of the
  resolver is the same text in both cases and mentions neither. *)
Lemma exhausted_resolver_drops_diagnostic :
fetchWithProxy Demo.refusing "http://a.example/atom.xml"
  = inl "无法获取订阅内容: connection refused" ∧
fetchWithProxy Demo.stalled "http://a.example/atom.xml"
  = inl "无法获取订阅内容: The operation was aborted" ∧
parseRSSFeed Demo.refusing (seq 0 11) "http://a.example"
  = Some (inl "无法解析该订阅源，请检查 URL 是否正确") ∧
parseRSSFeed Demo.stalled (seq 0 11) "http://a.example"
  = Some (inl "无法解析该订阅源，请检查 URL 是否正确") ∧
String.index 0 "connection refused" "无法解析该订阅源，请检查 URL 是否正确" = None ∧
String.index 0 "The operation was aborted"
  "无法解析该订阅源，请检查 URL 是否正确" = None.
Proof. split_and!; reflexivity. Qed.

End ResolverRuns.

(** ** Batch import: the pre-filter *)

Section PrefilterFacts.
Context `{Platform}.

Lemma prefilter_step_spec existingUrls feeds r validUrls url :
  existingUrls = list_to_set (RSSFeed.url <$> feeds) →
  prefilter_step existingUrls (r, validUrls) url =
    if acceptable url then
      if subscribed feeds url
      then (Results (success r) (failed r) (S (skipped r)) (errors r), validUrls)
      else (r, validUrls ++ [trim url])
    else (fail_with (rejection url) r, validUrls).
Proof.
  intros ->. unfold prefilter_step, acceptable, subscribed, rejection.
  destruct (URL_protocol (trim url)) as [protocol|]; [|done].
  destruct (decide (protocol ∈ ["http:"; "https:"])) as [Hp|Hp].
  - rewrite bool_decide_eq_true_2 by done.
    destruct (decide (trim url ∈ list_to_set (RSSFeed.url <$> feeds)))
      as [Hin|Hin]; rewrite elem_of_list_to_set in Hin.
    + by rewrite bool_decide_eq_true_2.
    + by rewrite bool_decide_eq_false_2.
  - by rewrite bool_decide_eq_false_2.
Qed.

(** The pre-filter treats every URL on its own: what it does with one
    occurrence depends on the feeds present when the batch starts and on
    nothing that comes earlier in the list. *)
Lemma prefilter_spec feeds urls :
  prefilter feeds urls =
    (Results 0
       (length (filter (λ u, acceptable u = false) urls))
       (length (filter (λ u, acceptable u = true ∧ subscribed feeds u = true) urls))
       (rejection <$> filter (λ u, acceptable u = false) urls),
     trim <$> filter (λ u, acceptable u = true ∧ subscribed feeds u = false) urls).
Proof.
  unfold prefilter.
  set (existingUrls := list_to_set (RSSFeed.url <$> feeds) : gset string).
  enough (∀ r validUrls,
    foldl (prefilter_step existingUrls) (r, validUrls) urls =
      (Results (success r)
         (failed r + length (filter (λ u, acceptable u = false) urls))
         (skipped r + length (filter (λ u, acceptable u = true
                                           ∧ subscribed feeds u = true) urls))
         (errors r ++ (rejection <$> filter (λ u, acceptable u = false) urls)),
       validUrls ++ (trim <$> filter (λ u, acceptable u = true
                                         ∧ subscribed feeds u = false) urls)))
    as Hgen by apply Hgen.
  induction urls as [|url urls IH]; intros r validUrls.
  - simpl. rewrite !Nat.add_0_r, !app_nil_r. by destruct r.
  - cbn [foldl]. rewrite (prefilter_step_spec _ feeds) by done.
    destruct (acceptable url) eqn:Hacc.
    + rewrite (filter_cons_False (λ u, acceptable u = false)) by congruence.
      destruct (subscribed feeds url) eqn:Hsub.
      * rewrite IH. simpl.
        rewrite (filter_cons_True _ url) by done.
        rewrite (filter_cons_False _ url) by (intros [_ ?]; congruence).
        simpl. do 2 f_equal. lia.
      * rewrite IH.
        rewrite (filter_cons_False _ url) by (intros [_ ?]; congruence).
        rewrite (filter_cons_True _ url) by done.
        simpl. by rewrite <- app_assoc.
    + rewrite IH. simpl.
      rewrite (filter_cons_True (λ u, acceptable u = false)) by done.
      rewrite !(filter_cons_False _ url) by (intros [? _]; congruence).
      simpl. rewrite <- app_assoc. simpl. do 2 f_equal. lia.
Qed.

End PrefilterFacts.

(** ** Batch import: the worker pool *)

Lemma waiting_cons z ws :
  waiting (z :: ws) = (if is_finished z then 0 else 1) + waiting ws.
Proof. by destruct z. Qed.

Lemma waiting_insert (ws : list worker) (w : nat) x y :
  ws !! w = Some y →
  waiting (<[w:=x]> ws) + (if is_finished y then 0 else 1)
  = waiting ws + (if is_finished x then 0 else 1).
Proof.
  revert w. induction ws as [|z ws IH]; intros w Hw; [done|].
  destruct w as [|w]; simplify_eq/=.
  - rewrite !waiting_cons. lia.
  - specialize (IH w Hw). rewrite !waiting_cons. lia.
Qed.

Lemma finished_insert (ws : list worker) (w : nat) x :
  Finished ∈ <[w:=x]> ws → x = Finished ∨ Finished ∈ ws.
Proof.
  revert w. induction ws as [|z ws IH]; intros w; [by right|].
  destruct w as [|w]; simpl.
  - intros [->|Hin]%elem_of_cons; [by left|].
    right. apply elem_of_cons. by right.
  - intros [->|Hin]%elem_of_cons.
    + right. apply elem_of_cons. by left.
    + destruct (IH w Hin) as [->|Hin']; [by left|].
      right. apply elem_of_cons. by right.
Qed.

Lemma waiting_zero ws :
  waiting ws = 0 ↔ forallb is_finished ws = true.
Proof.
  induction ws as [|z ws IH]; [done|].
  rewrite waiting_cons. destruct z; simpl; [split; [lia|done]|done].
Qed.

Lemma all_finished ws :
  forallb is_finished ws = true → ws ≠ [] → Finished ∈ ws.
Proof.
  destruct ws as [|[]]; simpl; [done|done|]. intros _ _. set_solver.
Qed.

Lemma progress_extend (n t : nat) :
  ((λ k, (k, t)) <$> seq 1 n) ++ [(S n, t)] = (λ k, (k, t)) <$> seq 1 (S n).
Proof. by rewrite seq_S, fmap_app. Qed.

(** The loop head keeps the invariant when it is entered by a worker
    whose item has just been counted as completed. *)
Lemma worker_loop_inv w b cur :
  workers b !! w = Some (Waiting cur) →
  index b ≤ total b →
  completed b + waiting (workers b) = S (index b) →
  progress b = (λ k, (k, total b)) <$> seq 1 (length (progress b)) →
  length (progress b) ≤ completed b →
  (onProgress b = true → aborted b = false → length (progress b) = completed b) →
  (aborted b = false → Finished ∈ workers b → total b ≤ index b) →
  calls b = take (index b) (newUrls b) →
  returned b = None →
  batch_inv (worker_loop w b).
Proof.
  intros Hw Hidx Hcount Hprog Hle Heq Hfin Hcalls Hret.
  pose proof (waiting_insert (workers b) w Finished _ Hw) as Hdone.
  simpl in Hdone.
  assert (∀ x, <[w:=x]> (workers b) ≠ []) as Hne.
  { intros x Hnil. apply (f_equal length) in Hnil.
    rewrite length_insert in Hnil. apply lookup_lt_Some in Hw.
    simpl in Hnil. lia. }
  unfold worker_loop.
  destruct (decide (index b < length (newUrls b))) as [Hlt|Hge].
  - destruct (aborted b) eqn:Hab.
    + split_inv.
    + destruct (newUrls b !! index b) as [currentUrl|] eqn:Hcur.
      * pose proof (waiting_insert (workers b) w (Waiting currentUrl) _ Hw)
          as Hnext. simpl in Hnext.
        split_inv.
        -- intros _ Hin.
           apply finished_insert in Hin as [?|Hin]; [done|].
           specialize (Hfin eq_refl Hin). lia.
        -- rewrite Hcalls. symmetry. by apply take_S_r.
      * apply lookup_ge_None in Hcur. lia.
  - split_inv.
Qed.

(** Leaving the loop by [break] keeps the invariant, too; that happens
    only once the batch has been cancelled. *)
Lemma break_inv w b cur :
  workers b !! w = Some (Waiting cur) →
  aborted b = true →
  index b ≤ total b →
  completed b + waiting (workers b) = S (index b) →
  progress b = (λ k, (k, total b)) <$> seq 1 (length (progress b)) →
  length (progress b) ≤ completed b →
  calls b = take (index b) (newUrls b) →
  returned b = None →
  batch_inv (set_worker w Finished b).
Proof.
  intros Hw Hab Hidx Hcount Hprog Hle Hcalls Hret.
  pose proof (waiting_insert (workers b) w Finished _ Hw) as Hdone.
  simpl in Hdone.
  assert (<[w:=Finished]> (workers b) ≠ []) as Hne.
  { intros Hnil. apply (f_equal length) in Hnil.
    rewrite length_insert in Hnil. apply lookup_lt_Some in Hw.
    simpl in Hnil. lia. }
  split_inv.
Qed.

(** The [finally] block counts the item and reports it. *)
Lemma finally_block_facts b :
  progress b = (λ k, (k, total b)) <$> seq 1 (length (progress b)) →
  length (progress b) ≤ completed b →
  (onProgress b = true → aborted b = false → length (progress b) = completed b) →
  let b' := finally_block b in
  newUrls b' = newUrls b ∧ onProgress b' = onProgress b ∧ res b' = res b ∧
  index b' = index b ∧ aborted b' = aborted b ∧ workers b' = workers b ∧
  state b' = state b ∧ calls b' = calls b ∧ returned b' = returned b ∧
  completed b' = S (completed b) ∧
  progress b' = (λ k, (k, total b')) <$> seq 1 (length (progress b')) ∧
  length (progress b') ≤ completed b' ∧
  (onProgress b' = true → aborted b' = false →
   length (progress b') = completed b').
Proof.
  intros Hprog Hle Heq. unfold finally_block. simpl.
  destruct (onProgress b) eqn:Hon, (aborted b) eqn:Hab; simpl;
    unfold total; simpl; rewrite ?Hon, ?Hab;
    split_and!; try done; try lia.
  - rewrite length_app. simpl. rewrite <- (Heq eq_refl eq_refl).
    rewrite Hprog at 1. rewrite Nat.add_1_r. apply progress_extend.
  - rewrite length_app. simpl. rewrite <- (Heq eq_refl eq_refl). lia.
  - intros _ _. rewrite length_app. simpl. rewrite <- (Heq eq_refl eq_refl). lia.
Qed.

Lemma after_settle_inv w cur b b2 (break : bool) :
  batch_inv b →
  workers b !! w = Some (Waiting cur) →
  returned b = None →
  same_control b b2 →
  (break = true → aborted b = true) →
  batch_inv (if break then set_worker w Finished (finally_block b2)
             else worker_loop w (finally_block b2)).
Proof.
  intros [] Hw Hret (Hnew & Hon & Hidx & Hcomp & Hab & Hws & Hcalls & Hprog
                       & Hret2) Hbreak.
  assert (total b2 = total b) as Htotal by (unfold total; congruence).
  destruct (finally_block_facts b2)
    as (Fnew & Fon & _ & Fidx & Fab & Fws & _ & Fcalls & Fret & Fcomp
          & Fprog & Fle & Feq).
  { rewrite Hprog, Htotal. done. }
  { rewrite Hprog, Hcomp. done. }
  { rewrite Hon, Hab, Hprog, Hcomp. done. }
  assert (total (finally_block b2) = total b) as Ftotal
    by (unfold total; congruence).
  destruct break.
  - apply break_inv with cur;
      first [ exact Fprog | exact Fle
            | rewrite ?Ftotal, ?Fab, ?Fidx, ?Fcomp, ?Fws, ?Fcalls, ?Fret, ?Fnew,
                ?Hab, ?Hidx, ?Hcomp, ?Hws, ?Hcalls, ?Hret2, ?Hnew;
              first [ done | lia | auto ] ].
  - apply worker_loop_inv with cur;
      first [ exact Fprog | exact Fle | exact Feq
            | rewrite ?Ftotal, ?Fab, ?Fidx, ?Fcomp, ?Fws, ?Fcalls, ?Fret, ?Fnew,
                ?Hab, ?Hidx, ?Hcomp, ?Hws, ?Hcalls, ?Hret2, ?Hnew;
              first [ done | lia | auto ] ].
Qed.

Lemma resume_inv w r b b' :
  batch_inv b →
  returned b = None →
  (∀ message, r = Thrown message → message = cancelled → aborted b = true) →
  resume w r b = Some b' →
  batch_inv b'.
Proof.
  intros Hinv Hret Hcancel. unfold resume.
  destruct (workers b !! w) as [[cur|]|] eqn:Hw; try done.
  destruct r as [parsed id t now|message];
    unfold try_block, catch_block.
  - destruct (aborted b) eqn:Hab.
    + rewrite decide_True by done. intros [= <-].
      by apply (after_settle_inv w cur b b true).
    + destruct (decide (length (ParsedFeed.items parsed) = 0));
        intros [= <-];
        by apply (after_settle_inv w cur b _ false).
  - destruct (decide (message = cancelled)) as [Hmsg|Hmsg]; intros [= <-].
    + apply (after_settle_inv w cur b b true); try done.
      intros _. by eapply Hcancel.
    + by apply (after_settle_inv w cur b _ false).
Qed.

Lemma step_inv b e b' :
  batch_inv b → step b e = Some b' → batch_inv b'.
Proof.
  intros Hinv. unfold step.
  destruct (returned b) eqn:Hret; [done|].
  destruct e as [w parsed id t now|w|w|w| |].
  - apply resume_inv; done.
  - apply resume_inv; [done..|]. by intros ? [= <-].
  - apply resume_inv; [done..|]. by intros ? [= <-].
  - destruct (aborted b) eqn:Hab; [|done].
    apply resume_inv; done.
  - intros [= <-]. destruct Hinv. split_inv.
  - destruct (forallb is_finished (workers b)) eqn:Hall; [|done].
    intros [= <-]. destruct Hinv. split_inv.
    intros _. by apply waiting_zero.
Qed.

Lemma run_inv b es b' :
  batch_inv b → run b es = Some b' → batch_inv b'.
Proof.
  revert b. induction es as [|e es IH]; intros b Hinv; simpl.
  - by intros [= <-].
  - destruct (step b e) as [b1|] eqn:Hstep; [|done].
    apply IH. by eapply step_inv.
Qed.

(** Starting the workers: worker [k] claims candidate [k]. *)
Lemma start_workers newUrls onP r st n k :
  k ≤ n → n ≤ length newUrls →
  foldl (λ b w, worker_loop w b)
    (Batch newUrls onP r 0 0 false (replicate n Finished) st [] [] None)
    (seq 0 k)
  = Batch newUrls onP r k 0 false
      ((Waiting <$> take k newUrls) ++ replicate (n - k) Finished)
      st (take k newUrls) [] None.
Proof.
  intros Hk Hn. induction k as [|k IH].
  - simpl. by rewrite Nat.sub_0_r.
  - rewrite seq_S, foldl_app, IH by lia. simpl.
    unfold worker_loop. simpl.
    rewrite decide_True by lia.
    destruct (lookup_lt_is_Some_2 newUrls k) as [u Hu]; [lia|].
    rewrite Hu. unfold set_worker, log_call, set_index. simpl.
    f_equal.
    + rewrite (take_S_r _ _ _ Hu), fmap_app. simpl.
      replace (n - k) with (S (n - S k)) by lia. simpl.
      rewrite insert_app_r_alt by (rewrite length_fmap, length_take; lia).
      rewrite length_fmap, length_take.
      replace (k - k `min` length newUrls) with 0 by lia. simpl.
      by rewrite <- app_assoc.
    + symmetry. by apply take_S_r.
Qed.

Lemma waiting_all (urls : list string) : waiting (Waiting <$> urls) = length urls.
Proof.
  induction urls as [|u urls IH]; [done|].
  rewrite fmap_cons, waiting_cons. simpl. by rewrite IH.
Qed.

Lemma started_inv newUrls onP r st n :
  0 < n → n ≤ length newUrls →
  batch_inv (Batch newUrls onP r n 0 false (Waiting <$> take n newUrls) st
                   (take n newUrls) [] None).
Proof.
  intros Hpos Hle. split_inv.
  - rewrite waiting_all, length_take. lia.
  - intros _ [u [? _]]%list_elem_of_fmap. done.
  - intros _ Hnil. apply (f_equal length) in Hnil.
    rewrite length_fmap, length_take in Hnil. simpl in Hnil. lia.
Qed.

Section BatchFacts.
Context `{Platform}.

(** After the pre-filter and the start of the workers, the first
    [min(10, total)] candidates are being fetched, one per worker. *)
Lemma addFeedsBatch_start st urls onP :
  let '(r, newUrls) := prefilter (feeds st) urls in
  addFeedsBatch st urls onP =
    if decide (length newUrls = 0) then
      Batch newUrls onP r 0 0 false [] st [] [] (Some r)
    else
      let n := MAX_CONCURRENT `min` length newUrls in
      Batch newUrls onP r n 0 false (Waiting <$> take n newUrls) st
            (take n newUrls) [] None.
Proof.
  unfold addFeedsBatch. destruct (prefilter (feeds st) urls) as [r newUrls].
  case_decide; [done|]. cbv zeta.
  rewrite start_workers by lia.
  by rewrite Nat.sub_diag, app_nil_r.
Qed.

Lemma addFeedsBatch_inv st urls onP :
  batch_inv (addFeedsBatch st urls onP).
Proof.
  pose proof (addFeedsBatch_start st urls onP) as Hstart.
  destruct (prefilter (feeds st) urls) as [r newUrls]. rewrite Hstart.
  case_decide as Hlen.
  - split_inv.
  - apply started_inv; unfold MAX_CONCURRENT; lia.
Qed.

(** The invariant holds in every state a batch can reach. *)
Lemma reachable_inv st urls onP es b :
  run (addFeedsBatch st urls onP) es = Some b → batch_inv b.
Proof. apply run_inv, addFeedsBatch_inv. Qed.

End BatchFacts.

Lemma finally_block_frame b :
  let b' := finally_block b in
  newUrls b' = newUrls b ∧ onProgress b' = onProgress b ∧ res b' = res b ∧
  index b' = index b ∧ aborted b' = aborted b ∧ workers b' = workers b ∧
  state b' = state b ∧ calls b' = calls b ∧ returned b' = returned b.
Proof.
  unfold finally_block. simpl.
  by destruct (onProgress b && negb (aborted b)).
Qed.

Lemma insert_waiting (ws : list worker) (w w' : nat) x cur :
  <[w:=x]> ws !! w' = Some (Waiting cur) →
  x = Waiting cur ∨ ws !! w' = Some (Waiting cur).
Proof.
  intros [(_ & -> & _)|[_ Hl]]%list_lookup_insert_Some; [by left|by right].
Qed.

Lemma worker_loop_frame w b :
  let b' := worker_loop w b in
  newUrls b' = newUrls b ∧ onProgress b' = onProgress b ∧ res b' = res b ∧
  aborted b' = aborted b ∧ state b' = state b ∧ returned b' = returned b ∧
  (∃ more, calls b' = calls b ++ more) ∧
  (∀ w' cur, workers b' !! w' = Some (Waiting cur) →
     cur ∈ calls b' ∨ workers b !! w' = Some (Waiting cur)).
Proof.
  unfold worker_loop.
  destruct (decide (index b < length (newUrls b))) as [Hlt|Hge];
    [destruct (aborted b) eqn:Hab;
       [|destruct (newUrls b !! index b) as [currentUrl|] eqn:Hcur]|];
    simpl; rewrite ?Hab; split_and!; try done;
    try (by exists []; rewrite app_nil_r); try (by eexists);
    intros w' cur [?|?]%insert_waiting; simplify_eq; auto.
  left. set_solver.
Qed.

(** How the end of an iteration (the [finally] block, then either
    [break] or the loop head) relates to the state before it. *)
Lemma iteration_end w b2 (break : bool) :
  let b3 := if break then set_worker w Finished (finally_block b2)
            else worker_loop w (finally_block b2) in
  res b3 = res b2 ∧ state b3 = state b2 ∧
  newUrls b3 = newUrls b2 ∧ onProgress b3 = onProgress b2 ∧
  aborted b3 = aborted b2 ∧ returned b3 = returned b2 ∧
  (∃ more, calls b3 = calls b2 ++ more) ∧
  (∀ w' cur, workers b3 !! w' = Some (Waiting cur) →
     cur ∈ calls b3 ∨ workers b2 !! w' = Some (Waiting cur)).
Proof.
  destruct (finally_block_frame b2)
    as (Fnew & Fon & Fres & Fidx & Fab & Fws & Fst & Fcalls & Fret).
  destruct break; cbv zeta.
  - simpl. rewrite Fnew, Fon, Fres, Fab, Fst, Fcalls, Fret, Fws.
    split_and!; try done; [by exists []; rewrite app_nil_r|].
    intros w' cur [?|?]%insert_waiting; [done|by right].
  - destruct (worker_loop_frame w (finally_block b2))
      as (Wnew & Won & Wres & Wab & Wst & Wret & Wcalls & Wws).
    rewrite Wnew, Won, Wres, Wab, Wst, Wret.
    rewrite Fcalls, Fws in *.
    split_and!; try done.
Qed.

(** Transfers [outcome_inv] across the end of an iteration. *)
Lemma outcome_iteration_end st0 r0 w cur b b2 (break : bool) newFeeds newItems later :
  workers b !! w = Some (Waiting cur) →
  (∀ w' c, workers b !! w' = Some (Waiting c) → c ∈ calls b) →
  workers b2 = workers b → calls b2 = calls b →
  feeds (state b2) = newFeeds ++ feeds st0 →
  items (state b2) = newItems ++ items st0 →
  Forall (λ f, RSSFeed.url f ∈ calls b) newFeeds →
  success (res b2) = success r0 + length newFeeds →
  skipped (res b2) = skipped r0 →
  errors (res b2) = errors r0 ++ later →
  failed (res b2) = failed r0 + length later →
  Forall (λ e, ∃ c m, c ∈ calls b ∧ e = c +:+ ": " +:+ m) later →
  outcome_inv st0 r0
    (if break then set_worker w Finished (finally_block b2)
     else worker_loop w (finally_block b2)).
Proof.
  intros Hw Hwait Hws Hcalls Hfeeds Hitems Hurls Hsucc Hskip Herr Hfail Hlater.
  destruct (iteration_end w b2 break)
    as (Eres & Est & _ & _ & _ & _ & [more Ecalls] & Ews).
  apply OutcomeInv with newFeeds newItems later;
    rewrite ?Eres, ?Est, ?Ecalls, ?Hcalls; try done.
  - eapply Forall_impl; [exact Hurls|]. intros f Hf. set_solver.
  - eapply Forall_impl; [exact Hlater|].
    intros e (c & m & Hc & ->). exists c, m. split; [set_solver|done].
  - intros w' c Hl. destruct (Ews w' c Hl) as [Hin|Hold].
    + by rewrite Ecalls, Hcalls in Hin.
    + rewrite Hws in Hold. apply Hwait in Hold. set_solver.
Qed.

Lemma resume_outcome st0 r0 w r b b' :
  outcome_inv st0 r0 b → resume w r b = Some b' → outcome_inv st0 r0 b'.
Proof.
  intros [newFeeds newItems later Hfeeds Hitems Hurls Hsucc Hskip Herr Hfail
            Hlater Hwait].
  unfold resume.
  destruct (workers b !! w) as [[cur|]|] eqn:Hw; try done.
  pose proof (Hwait w cur Hw) as Hcur.
  destruct r as [parsed id t now|message]; unfold try_block, catch_block.
  - destruct (aborted b) eqn:Hab.
    + rewrite decide_True by done. intros [= <-].
      by eapply (outcome_iteration_end _ _ _ _ b b true).
    + destruct (decide (length (ParsedFeed.items parsed) = 0)); intros [= <-].
      * eapply (outcome_iteration_end _ _ _ _ b _ false newFeeds newItems
                  (later ++ [cur +:+ ": 该订阅源没有文章"])); simpl; try done.
        -- by rewrite Herr, app_assoc.
        -- rewrite Hfail, length_app. simpl. lia.
        -- apply Forall_app. split; [done|].
           apply Forall_singleton. by exists cur, "该订阅源没有文章".
      * eapply (outcome_iteration_end _ _ _ _ b _ false
                  (_ :: newFeeds) (_ ++ newItems) later); simpl; try done.
        -- by rewrite Hfeeds.
        -- by rewrite Hitems, app_assoc.
        -- by apply Forall_cons.
        -- rewrite Hsucc. lia.
  - destruct (decide (message = cancelled)); intros [= <-].
    + by eapply (outcome_iteration_end _ _ _ _ b b true).
    + eapply (outcome_iteration_end _ _ _ _ b _ false newFeeds newItems
                (later ++ [cur +:+ ": " +:+ message])); simpl; try done.
      * by rewrite Herr, app_assoc.
      * rewrite Hfail, length_app. simpl. lia.
      * apply Forall_app. split; [done|].
        apply Forall_singleton. by exists cur, message.
Qed.

Lemma step_outcome st0 r0 b e b' :
  outcome_inv st0 r0 b → step b e = Some b' → outcome_inv st0 r0 b'.
Proof.
  intros Hout. unfold step.
  destruct (returned b); [done|].
  destruct e as [w parsed id t now|w|w|w| |];
    try (by apply resume_outcome).
  - destruct (aborted b); [|done]. by apply resume_outcome.
  - intros [= <-]. destruct Hout. by econstructor.
  - destruct (forallb is_finished (workers b)); [|done].
    intros [= <-]. destruct Hout. by econstructor.
Qed.

Lemma run_outcome st0 r0 b es b' :
  outcome_inv st0 r0 b → run b es = Some b' → outcome_inv st0 r0 b'.
Proof.
  revert b. induction es as [|e es IH]; intros b Hout; simpl.
  - by intros [= <-].
  - destruct (step b e) as [b1|] eqn:Hstep; [|done].
    apply IH. by eapply step_outcome.
Qed.

(** A step changes neither the candidates nor the callback. *)
Lemma step_config b e b' :
  step b e = Some b' →
  newUrls b' = newUrls b ∧ onProgress b' = onProgress b.
Proof.
  unfold step. destruct (returned b); [done|].
  assert (∀ w r, resume w r b = Some b' →
            newUrls b' = newUrls b ∧ onProgress b' = onProgress b) as Hres.
  { intros w r. unfold resume.
    destruct (workers b !! w) as [[cur|]|]; try done.
    destruct (try_block cur r b) as [b1 thrown] eqn:Htry.
    assert (newUrls b1 = newUrls b ∧ onProgress b1 = onProgress b) as [H1 H2].
    { unfold try_block in Htry.
      destruct r; repeat (case_match || case_decide); by simplify_eq/=. }
    destruct thrown as [message|].
    - destruct (catch_block cur message b1) as [b2 break] eqn:Hcatch.
      assert (newUrls b2 = newUrls b1 ∧ onProgress b2 = onProgress b1)
        as [H3 H4].
      { unfold catch_block in Hcatch. case_decide; by simplify_eq/=. }
      intros [= <-].
      destruct (iteration_end w b2 break) as (_ & _ & -> & -> & _).
      split; congruence.
    - intros [= <-].
      destruct (iteration_end w b1 false) as (_ & _ & -> & -> & _).
      split; congruence. }
  destruct e; eauto.
  - destruct (aborted b); [eauto|done].
  - by intros [= <-].
  - destruct (forallb is_finished (workers b)); [|done]. by intros [= <-].
Qed.

Lemma run_config b es b' :
  run b es = Some b' →
  newUrls b' = newUrls b ∧ onProgress b' = onProgress b.
Proof.
  revert b. induction es as [|e es IH]; intros b; simpl.
  - by intros [= <-].
  - destruct (step b e) as [b1|] eqn:Hstep; [|done].
    intros Hrun. destruct (IH _ Hrun) as [-> ->]. by eapply step_config.
Qed.

(** Once the batch has been cancelled nothing is published and nothing is
    taken back, the callback stays silent and the flag stays set. *)
Lemma step_after_abort b e b' :
  aborted b = true → step b e = Some b' →
  aborted b' = true ∧ state b' = state b ∧
  success (res b') = success (res b) ∧ progress b' = progress b.
Proof.
  intros Hab. unfold step. destruct (returned b); [done|].
  assert (∀ w r, resume w r b = Some b' →
            aborted b' = true ∧ state b' = state b ∧
            success (res b') = success (res b) ∧ progress b' = progress b)
    as Hres.
  { intros w r. unfold resume.
    destruct (workers b !! w) as [[cur|]|]; try done.
    unfold try_block, catch_block, finally_block, worker_loop.
    destruct r as [parsed id t now|message]; rewrite ?Hab;
      repeat case_decide; intros [= <-]; simpl; rewrite ?Hab; simpl;
      rewrite ?andb_false_r; simpl; rewrite ?Hab; simpl;
      repeat case_decide; done. }
  destruct e; eauto.
  - rewrite Hab. eauto.
  - by intros [= <-].
  - destruct (forallb is_finished (workers b)); [|done]. by intros [= <-].
Qed.

Lemma run_after_abort b es b' :
  aborted b = true → run b es = Some b' →
  aborted b' = true ∧ state b' = state b ∧
  success (res b') = success (res b) ∧ progress b' = progress b.
Proof.
  revert b. induction es as [|e es IH]; intros b Hab; simpl.
  - by intros [= <-].
  - destruct (step b e) as [b1|] eqn:Hstep; [|done]. intros Hrun.
    destruct (step_after_abort _ _ _ Hab Hstep) as (Hab1 & Hst & Hsu & Hpr).
    destruct (IH _ Hab1 Hrun) as (? & ? & ? & ?).
    split_and!; congruence.
Qed.

(** The callback is called by no event but the settling of a worker's
    race, at most once, and after the item has been counted. *)
Lemma step_progress b e b' :
  step b e = Some b' →
  progress b' = progress b ∨
  ∃ w cur, settles e = Some w ∧ workers b !! w = Some (Waiting cur) ∧
    completed b' = S (completed b) ∧
    progress b' = progress b ++ [(S (completed b), total b)].
Proof.
  unfold step. destruct (returned b); [done|].
  assert (∀ w r, resume w r b = Some b' →
            progress b' = progress b ∨
            ∃ cur, workers b !! w = Some (Waiting cur) ∧
              completed b' = S (completed b) ∧
              progress b' = progress b ++ [(S (completed b), total b)])
    as Hres.
  { intros w r. unfold resume.
    destruct (workers b !! w) as [[cur|]|]; try done.
    unfold try_block, catch_block, finally_block, worker_loop, total.
    destruct r as [parsed id t now|message];
      destruct (aborted b) eqn:Hab, (onProgress b) eqn:Hon;
      repeat case_decide; intros [= <-]; simpl; rewrite ?Hab, ?Hon; simpl;
      repeat (case_decide || case_match); simpl; eauto. }
  destruct e as [w parsed id t now|w|w|w| |]; simpl.
  - intros [?|(cur & ?)]%Hres; [by left|right; eauto].
  - intros [?|(cur & ?)]%Hres; [by left|right; eauto].
  - intros [?|(cur & ?)]%Hres; [by left|right; eauto].
  - destruct (aborted b); [|done].
    intros [?|(cur & ?)]%Hres; [by left|right; eauto].
  - intros [= <-]. by left.
  - destruct (forallb is_finished (workers b)); [|done].
    intros [= <-]. by left.
Qed.

(** A successful fetch is published at once, whatever the collections
    hold by then. *)
Lemma commit_step b w currentUrl parsed id t now :
  workers b !! w = Some (Waiting currentUrl) →
  aborted b = false → returned b = None →
  0 < length (ParsedFeed.items parsed) →
  ∃ b', step b (Fulfilled w parsed id t now) = Some b' ∧
    feeds (state b') =
      RSSFeed.mk id (ParsedFeed.title parsed) currentUrl
                 (ParsedFeed.description parsed) (Some t) :: feeds (state b) ∧
    items (state b') =
      convertToRSSItems (ParsedFeed.items parsed) id now ++ items (state b) ∧
    success (res b') = S (success (res b)).
Proof.
  intros Hw Hab Hret Hitems. unfold step, resume. rewrite Hret, Hw.
  unfold try_block. rewrite Hab. rewrite decide_False by lia.
  cbv beta iota zeta.
  eexists. split; [reflexivity|].
  match goal with |- context [worker_loop w (finally_block ?b2)] =>
    destruct (iteration_end w b2 false) as (Hres & Hstate & _)
  end.
  cbv zeta in Hres, Hstate. rewrite Hres, Hstate. done.
Qed.

(** A batch that returns without having been cancelled has claimed and
    completed every candidate. *)
Lemma uninterrupted_return b :
  batch_inv b → is_Some (returned b) → aborted b = false →
  index b = total b ∧ completed b = total b.
Proof.
  intros [] Hret Hab.
  pose proof (inv_returned0 Hret) as Hnone.
  destruct (decide (0 < total b)) as [Hpos|Hzero]; [|lia].
  assert (total b ≤ index b); [|lia].
  apply inv_finished0; [done|].
  apply all_finished; [by apply waiting_zero|auto].
Qed.

Lemma waiting_pos (ws : list worker) :
  0 < waiting ws → ∃ w cur, ws !! w = Some (Waiting cur).
Proof.
  induction ws as [|z ws IH]; [by inversion 1|].
  rewrite waiting_cons. destruct z as [cur|]; simpl.
  - intros _. by exists 0, cur.
  - intros [w [cur Hw]]%IH. by exists (S w), cur.
Qed.

Lemma abort_heard_step b w cur :
  workers b !! w = Some (Waiting cur) →
  aborted b = true → returned b = None →
  step b (AbortHeard w) = Some (set_worker w Finished (finally_block b)).
Proof.
  intros Hw Hab Hret. unfold step, resume. rewrite Hret, Hab, Hw.
  unfold try_block, catch_block. by rewrite decide_True.
Qed.

(** A cancelled batch always comes to its [return]: each worker that is
    still waiting hears the abort and leaves its loop, and the call then
    resolves with [results] as they stand, the collections untouched. *)
Lemma cancel_leads_to_return b :
  aborted b = true → returned b = None →
  ∃ es b', run b es = Some b' ∧
    returned b' = Some (res b) ∧ res b' = res b ∧ state b' = state b.
Proof.
  remember (waiting (workers b)) as n eqn:Hn.
  revert b Hn. induction n as [|n IH]; intros b Hn Hab Hret.
  - exists [Return]. eexists. simpl. unfold step. rewrite Hret.
    rewrite (proj1 (waiting_zero (workers b))) by done.
    split; [reflexivity|]. done.
  - destruct (waiting_pos (workers b)) as (w & cur & Hw); [lia|].
    pose proof (abort_heard_step b w cur Hw Hab Hret) as Hstep.
    destruct (finally_block_frame b)
      as (_ & _ & Fres & _ & Fab & Fws & Fst & _ & Fret).
    destruct (IH (set_worker w Finished (finally_block b)))
      as (es & b' & Hrun & Hreturned & Hres & Hstate).
    + simpl. rewrite Fws.
      pose proof (waiting_insert (workers b) w Finished _ Hw) as Hdone.
      simpl in Hdone. lia.
    + simpl. congruence.
    + simpl. congruence.
    + exists (AbortHeard w :: es), b'. simpl. rewrite Hstep.
      simpl in *. split; [done|]. split_and!; congruence.
Qed.

Lemma finally_block_completed b :
  completed (finally_block b) = S (completed b).
Proof.
  unfold finally_block. simpl.
  by destruct (onProgress b && negb (aborted b)).
Qed.

Lemma worker_loop_completed w b :
  completed (worker_loop w b) = completed b.
Proof.
  unfold worker_loop.
  destruct (decide (index b < length (newUrls b))); [|done].
  destruct (aborted b); [done|].
  by destruct (newUrls b !! index b).
Qed.

(** The shape of every resumption: the [try] and [catch] blocks, which
    leave the control state alone, then the end of the iteration. *)
Lemma resume_shape w r b b' :
  resume w r b = Some b' →
  ∃ cur b2 (break : bool),
    workers b !! w = Some (Waiting cur) ∧ same_control b b2 ∧
    b' = if break then set_worker w Finished (finally_block b2)
         else worker_loop w (finally_block b2).
Proof.
  unfold resume. destruct (workers b !! w) as [[cur|]|]; try done.
  destruct r as [parsed id t now|message]; unfold try_block, catch_block.
  - destruct (aborted b).
    + rewrite decide_True by done. intros [= <-].
      exists cur, b, true. unfold same_control. by split_and!.
    + destruct (decide (length (ParsedFeed.items parsed) = 0));
        intros [= <-].
      * eexists cur, _, false. split; [done|]. split; [|reflexivity].
        unfold same_control; simpl. by split_and!.
      * eexists cur, _, false. split; [done|]. split; [|reflexivity].
        unfold same_control; simpl. by split_and!.
  - destruct (decide (message = cancelled)); intros [= <-].
    + exists cur, b, true. unfold same_control. by split_and!.
    + eexists cur, _, false. split; [done|]. split; [|reflexivity].
      unfold same_control; simpl. by split_and!.
Qed.

(** Settling a race counts one more item as completed and leaves the
    abort flag and the return value as they are. *)
Lemma resume_counts w r b b' :
  resume w r b = Some b' →
  completed b' = S (completed b) ∧ aborted b' = aborted b ∧
  returned b' = returned b.
Proof.
  intros (cur & b2 & break & _ & (_ & _ & _ & Hcomp & Hab & _ & _ & _ & Hret)
            & ->)%resume_shape.
  destruct (iteration_end w b2 break) as (_ & _ & _ & _ & Eab & Eret & _).
  cbv zeta in Eab, Eret. rewrite Eab, Eret.
  split; [|split; congruence].
  destruct break; simpl.
  - by rewrite finally_block_completed, Hcomp.
  - by rewrite worker_loop_completed, finally_block_completed, Hcomp.
Qed.

(** A batch always comes to its [return]: a race cannot stay open beyond
    its 30 s timer, and once every waiting worker has moved on, by the
    timer if by nothing else, the call resolves. Nothing in this cancels
    the batch. *)
Lemma batch_returns b :
  batch_inv b → returned b = None →
  ∃ es b', run b es = Some b' ∧ is_Some (returned b') ∧
           aborted b' = aborted b.
Proof.
  remember (total b - completed b) as n eqn:Hn.
  revert b Hn. induction n as [|n IH]; intros b Hn Hinv Hret.
  - exists [Return]. eexists. simpl. unfold step. rewrite Hret.
    destruct Hinv.
    rewrite (proj1 (waiting_zero (workers b))) by lia.
    split; [reflexivity|]. simpl. eauto.
  - destruct (decide (waiting (workers b) = 0)) as [Hzero|Hpos].
    + exists [Return]. eexists. simpl. unfold step. rewrite Hret.
      rewrite (proj1 (waiting_zero (workers b))) by done.
      split; [reflexivity|]. simpl. eauto.
    + destruct (waiting_pos (workers b)) as (w & cur & Hw); [lia|].
      assert (∃ b1, step b (TimedOut w) = Some b1) as [b1 Hstep].
      { unfold step, resume. rewrite Hret, Hw.
        destruct (try_block cur (Thrown timed_out) b) as [b2 thrown].
        destruct thrown as [message|]; [|by eexists].
        destruct (catch_block cur message b2). by eexists. }
      pose proof (step_inv _ _ _ Hinv Hstep) as Hinv1.
      destruct (step_config _ _ _ Hstep) as [Hnew _].
      assert (completed b1 = S (completed b) ∧ aborted b1 = aborted b
              ∧ returned b1 = returned b) as (Hcount & Hab & Hret1).
      { unfold step in Hstep. rewrite Hret in Hstep.
        by eapply resume_counts. }
      rewrite Hret in Hret1.
      destruct (IH b1) as (es & b' & Hrun & Hdone & Hab');
        [unfold total in *; rewrite Hnew; lia|done|done|].
      exists (TimedOut w :: es), b'. simpl. rewrite Hstep.
      split_and!; [done|done|congruence].
Qed.

(** ** Batch import: the claims *)

Section BatchClaims.
Context `{Platform}.

(** Where a batch starts from. *)
Lemma addFeedsBatch_fields st urls onP :
  let b0 := addFeedsBatch st urls onP in
  res b0 = (prefilter (feeds st) urls).1 ∧
  newUrls b0 = (prefilter (feeds st) urls).2 ∧
  onProgress b0 = onP ∧ state b0 = st ∧ progress b0 = [] ∧
  aborted b0 = false ∧ completed b0 = 0 ∧
  calls b0 = take (MAX_CONCURRENT `min` length (newUrls b0)) (newUrls b0).
Proof.
  pose proof (addFeedsBatch_start st urls onP) as Hstart. cbv zeta.
  destruct (prefilter (feeds st) urls) as [r newUrls]. rewrite Hstart.
  case_decide as Hlen; [|done]. by destruct newUrls.
Qed.

Lemma addFeedsBatch_outcome st urls onP :
  outcome_inv st (res (addFeedsBatch st urls onP)) (addFeedsBatch st urls onP).
Proof.
  pose proof (addFeedsBatch_start st urls onP) as Hstart.
  destruct (prefilter (feeds st) urls) as [r newUrls]. rewrite Hstart.
  case_decide as Hlen.
  - apply OutcomeInv with [] [] []; simpl; try done; try lia.
    by rewrite app_nil_r.
  - apply OutcomeInv with [] [] []; simpl; try done; try lia.
    + by rewrite app_nil_r.
    + intros w cur Hl. rewrite list_lookup_fmap in Hl.
      destruct (take _ newUrls !! w) as [u|] eqn:Hu; simplify_eq/=.
      by eapply list_elem_of_lookup_2.
Qed.

(** Every candidate is the trimmed text of an acceptable URL that was not
    subscribed when the batch started. *)
Lemma candidate_origin st urls c :
  c ∈ (prefilter (feeds st) urls).2 →
  ∃ u, u ∈ urls ∧ c = trim u ∧ acceptable u = true ∧
       subscribed (feeds st) u = false.
Proof.
  rewrite prefilter_spec. simpl.
  intros [u [-> [[? ?] ?]%list_elem_of_filter]]%list_elem_of_fmap. eauto.
Qed.

Lemma calls_are_candidates b c :
  batch_inv b → c ∈ calls b → c ∈ newUrls b.
Proof.
  intros [] Hc. rewrite inv_calls0 in Hc.
  by eapply subseteq_take.
Qed.

(** C7, as the code has it. The validator reads the trimmed text. A URL
    of the batch whose trimmed text does not parse, or has a scheme that
    is neither http nor https, is counted as failed and gets an error
    string that names it and says why; no request is ever made for it,
    and every URL that is fetched has an http or https scheme. *)
Theorem invalid_url_fails_without_fetch st urls onP url es b :
  url ∈ urls →
  acceptable url = false →
  run (addFeedsBatch st urls onP) es = Some b →
  failed (res (addFeedsBatch st urls onP))
    = length (filter (λ u, acceptable u = false) urls) ∧
  (rejection url = url +:+ ": 只支持 HTTP 和 HTTPS 协议" ∨
   rejection url = url +:+ ": URL 格式无效") ∧
  rejection url ∈ errors (res b) ∧
  (∃ later,
     errors (res b)
       = (rejection <$> filter (λ u, acceptable u = false) urls) ++ later ∧
     failed (res b)
       = length (filter (λ u, acceptable u = false) urls) + length later) ∧
  (trim url ∉ calls b) ∧
  (∀ c, c ∈ calls b →
     ∃ protocol, URL_protocol c = Some protocol ∧
                 protocol ∈ ["http:"; "https:"]).
Proof.
  intros Hin Hbad Hrun.
  pose proof (reachable_inv _ _ _ _ _ Hrun) as Hinv.
  pose proof (run_outcome _ _ _ _ _ (addFeedsBatch_outcome st urls onP) Hrun)
    as [newFeeds newItems later _ _ _ _ _ Herr Hfail _ _].
  destruct (run_config _ _ _ Hrun) as [Hnew _].
  destruct (addFeedsBatch_fields st urls onP) as (Hres & Hcand & _).
  rewrite Hres, prefilter_spec in *. simpl in *.
  assert (∀ c, c ∈ calls b →
            ∃ u, c = trim u ∧ acceptable u = true) as Hcalls.
  { intros c Hc. apply calls_are_candidates in Hc; [|done].
    rewrite Hnew, Hcand in Hc.
    apply list_elem_of_fmap in Hc as [u [-> [[? ?] ?]%list_elem_of_filter]].
    eauto. }
  split_and!.
  - done.
  - unfold rejection. destruct (URL_protocol (trim url)); auto.
  - rewrite Herr. apply elem_of_app. left.
    apply list_elem_of_fmap. exists url. split; [done|].
    by apply list_elem_of_filter.
  - by exists later.
  - intros [u [Hu Hacc]]%Hcalls. unfold acceptable in *.
    rewrite <- Hu in Hacc. congruence.
  - intros c [u [-> Hacc]]%Hcalls. unfold acceptable in Hacc.
    destruct (URL_protocol (trim u)) as [protocol|]; [|done].
    exists protocol. split; [done|]. by apply bool_decide_eq_true in Hacc.
Qed.

(** C8, as the code has it. A URL of the batch whose trimmed text is an
    acceptable http or https URL and is the source URL of a feed present
    when the batch starts is counted as skipped; it is no candidate, no
    request is made for it, the errors recorded are those of unacceptable
    URLs and of fetched candidates, and the feeds added are those of
    fetched candidates. *)
Theorem subscribed_url_is_skipped st urls onP url es b :
  url ∈ urls →
  acceptable url = true →
  subscribed (feeds st) url = true →
  run (addFeedsBatch st urls onP) es = Some b →
  skipped (res b)
    = length (filter (λ u, acceptable u = true
                           ∧ subscribed (feeds st) u = true) urls) ∧
  0 < skipped (res b) ∧
  (trim url ∉ newUrls b) ∧
  (trim url ∉ calls b) ∧
  (∃ later,
     errors (res b)
       = (rejection <$> filter (λ u, acceptable u = false) urls) ++ later ∧
     failed (res b)
       = length (filter (λ u, acceptable u = false) urls) + length later ∧
     Forall (λ e, ∃ c m, c ∈ calls b ∧ e = c +:+ ": " +:+ m) later) ∧
  (∃ newFeeds,
     feeds (state b) = newFeeds ++ feeds st ∧
     success (res b) = length newFeeds ∧
     Forall (λ f, RSSFeed.url f ∈ calls b) newFeeds).
Proof.
  intros Hin Hacc Hsub Hrun.
  pose proof (reachable_inv _ _ _ _ _ Hrun) as Hinv.
  pose proof (run_outcome _ _ _ _ _ (addFeedsBatch_outcome st urls onP) Hrun)
    as [newFeeds newItems later Hfeeds _ Hurls Hsucc Hskip Herr Hfail Hlater _].
  destruct (run_config _ _ _ Hrun) as [Hnew _].
  destruct (addFeedsBatch_fields st urls onP) as (Hres & Hcand & _).
  rewrite Hres, prefilter_spec in *. simpl in *.
  assert (trim url ∉ newUrls b) as Hnot.
  { rewrite Hnew, Hcand.
    intros [u [Hu [[_ Hfresh] _]%list_elem_of_filter]]%list_elem_of_fmap.
    unfold subscribed in *. rewrite <- Hu in Hfresh. congruence. }
  split_and!.
  - done.
  - rewrite Hskip.
    assert (url ∈ filter (λ u, acceptable u = true
                               ∧ subscribed (feeds st) u = true) urls) as Hmem
      by by apply list_elem_of_filter.
    destruct (filter _ urls); [by apply elem_of_nil in Hmem|simpl; lia].
  - done.
  - intros Hc. apply Hnot. by apply calls_are_candidates.
  - by exists later.
  - by exists newFeeds.
Qed.

(** C9. The progress callback is silent until a URL has completed. It is
    called only in the step in which a worker's race settles, after that
    item has been counted, so the k-th call receives k as its first
    argument: the values go up by exactly one per call. The second
    argument is the number of candidates in every call. When the batch
    returns without having been cancelled, the calls are exactly
    (1, N), ..., (N, N) for its N candidates; and a batch that has not
    returned yet can always run on to its return without being
    cancelled. *)
Theorem progress_counts_up st urls onP es b :
  run (addFeedsBatch st urls onP) es = Some b →
  let N := length (newUrls (addFeedsBatch st urls onP)) in
  progress (addFeedsBatch st urls onP) = [] ∧
  progress b = (λ k, (k, N)) <$> seq 1 (length (progress b)) ∧
  length (progress b) ≤ completed b ∧
  completed b ≤ length (calls b) ∧
  (∀ e b', step b e = Some b' →
     progress b' = progress b ∨
     ∃ w cur, settles e = Some w ∧ workers b !! w = Some (Waiting cur) ∧
       completed b' = S (completed b) ∧
       progress b' = progress b ++ [(S (completed b), N)]) ∧
  (onP = true → aborted b = false → is_Some (returned b) →
   progress b = (λ k, (k, N)) <$> seq 1 N) ∧
  (returned b = None →
   ∃ es' b', run b es' = Some b' ∧ is_Some (returned b') ∧
             aborted b' = aborted b).
Proof.
  intros Hrun N.
  pose proof (reachable_inv _ _ _ _ _ Hrun) as Hinv.
  destruct (run_config _ _ _ Hrun) as [Hnew Hon].
  destruct (addFeedsBatch_fields st urls onP)
    as (_ & _ & HonP & _ & Hprog0 & _).
  assert (total b = N) as Htotal by (unfold total, N; congruence).
  split_and!.
  - done.
  - rewrite <- Htotal. by destruct Hinv.
  - by destruct Hinv.
  - destruct Hinv. rewrite inv_calls0, length_take. unfold total in *. lia.
  - intros e b' Hstep. rewrite <- Htotal. by apply step_progress.
  - intros -> Hab Hret.
    destruct (uninterrupted_return b Hinv Hret Hab) as [_ Hall].
    destruct Hinv. rewrite inv_progress0, Htotal.
    rewrite inv_progress_eq0 by congruence. by rewrite Hall, Htotal.
  - by apply batch_returns.
Qed.

(** C10. The candidates of a batch are the trimmed texts of the
    acceptable URLs of the list that are not subscribed in the feed set
    with which the batch starts, one candidate per occurrence, in list
    order. Candidates are fetched in that order, and all of them once the
    batch returns without having been cancelled. A fetch that succeeds
    with at least one entry publishes a new feed under the identifier
    drawn for it, whatever feeds the collection holds by then, those of
    the same URL included. *)
Theorem batch_keeps_duplicates st urls onP es b :
  run (addFeedsBatch st urls onP) es = Some b →
  newUrls b
    = trim <$> filter (λ u, acceptable u = true
                            ∧ subscribed (feeds st) u = false) urls ∧
  calls b = take (index b) (newUrls b) ∧
  (is_Some (returned b) → aborted b = false → calls b = newUrls b) ∧
  (∀ w currentUrl parsed id t now,
     workers b !! w = Some (Waiting currentUrl) →
     aborted b = false →
     0 < length (ParsedFeed.items parsed) →
     ∃ b', step b (Fulfilled w parsed id t now) = Some b' ∧
       feeds (state b') =
         RSSFeed.mk id (ParsedFeed.title parsed) currentUrl
                    (ParsedFeed.description parsed) (Some t)
           :: feeds (state b) ∧
       items (state b') =
         convertToRSSItems (ParsedFeed.items parsed) id now
           ++ items (state b) ∧
       success (res b') = S (success (res b))).
Proof.
  intros Hrun.
  pose proof (reachable_inv _ _ _ _ _ Hrun) as Hinv.
  destruct (run_config _ _ _ Hrun) as [Hnew _].
  destruct (addFeedsBatch_fields st urls onP) as (_ & Hcand & _).
  rewrite prefilter_spec in Hcand. simpl in Hcand.
  split_and!.
  - congruence.
  - by destruct Hinv.
  - intros Hret Hab.
    destruct (uninterrupted_return b Hinv Hret Hab) as [Hall _].
    destruct Hinv. rewrite inv_calls0, Hall. by apply take_ge.
  - intros w currentUrl parsed id t now Hw Hab Hitems.
    apply commit_step; [done..| |done].
    destruct (returned b) eqn:Hret; [|done].
    destruct Hinv. assert (waiting (workers b) = 0) as Hnone by eauto.
    apply waiting_zero in Hnone. rewrite forallb_forall in Hnone.
    apply list_elem_of_lookup_2, list_elem_of_In, Hnone in Hw. done.
Qed.

End BatchClaims.

Section BatchRuns.
Local Existing Instance Demo.platform.
Import BatchExamples.

(** The import of [import_list]: the two URLs that are not acceptable are
    counted as failed with their messages, and neither is fetched. *)
Lemma invalid_url_fails_without_fetch_witness :
  "ftp://files.example/feed" ∈ import_list ∧
  acceptable "ftp://files.example/feed" = false ∧
  (∃ b, run import_start import_run = Some b ∧
     failed (res import_start) = 2 ∧
     errors (res import_start)
       = [ "ftp://files.example/feed: 只支持 HTTP 和 HTTPS 协议";
           "not a url: URL 格式无效" ] ∧
     "ftp://files.example/feed: 只支持 HTTP 和 HTTPS 协议" ∈ errors (res b) ∧
     (trim "ftp://files.example/feed" ∉ calls b)).
Proof.
  assert ("ftp://files.example/feed" ∈ import_list) as Hin.
  { unfold import_list. set_solver. }
  assert (acceptable "ftp://files.example/feed" = false) as Hbad
    by reflexivity.
  split; [exact Hin|]. split; [exact Hbad|].
  destruct (run import_start import_run) as [b|] eqn:Hrun;
    [|vm_compute in Hrun; discriminate].
  exists b. split; [reflexivity|].
  destruct (invalid_url_fails_without_fetch one_feed import_list true
              "ftp://files.example/feed" import_run b Hin Hbad Hrun)
    as (Hfailed & _ & Herror & _ & Hcalls & _).
  split_and!; [reflexivity|reflexivity|exact Herror|exact Hcalls].
Defined.

(** C7, as stated, fails: the text of the URL does not parse, the
    no-break space before it being no part of a URL, and yet it is not
    counted as failed and gets no error string; its trimmed form is
    fetched and subscribed to. *)
Lemma untrimmed_invalid_url_is_fetched :
  let b := addFeedsBatch one_feed [padded_url] false in
  URL_protocol padded_url = None ∧
  trim padded_url = "http://new.example/feed" ∧
  failed (res b) = 0 ∧
  errors (res b) = [] ∧
  calls b = ["http://new.example/feed"] ∧
  (∃ b', run b [ Fulfilled 0 Demo.sample_feed "id-1" 1000 (Examples.clock 1000);
                 Return ] = Some b' ∧
     returned b' = Some (Results 1 0 0 []) ∧
     RSSFeed.url <$> feeds (state b')
       = ["http://new.example/feed"; "http://old.example/feed"]).
Proof.
  cbv zeta. split_and!; [by vm_compute..|].
  eexists. split; [by vm_compute|]. by vm_compute.
Qed.

(** The same import: the feed already subscribed is counted as skipped
    and is not fetched. *)
Lemma subscribed_url_is_skipped_witness :
  "http://old.example/feed" ∈ import_list ∧
  acceptable "http://old.example/feed" = true ∧
  subscribed (feeds one_feed) "http://old.example/feed" = true ∧
  (∃ b, run import_start import_run = Some b ∧
     skipped (res b) = 1 ∧
     (trim "http://old.example/feed" ∉ calls b)).
Proof.
  assert ("http://old.example/feed" ∈ import_list) as Hin.
  { unfold import_list. set_solver. }
  assert (acceptable "http://old.example/feed" = true) as Hacc
    by reflexivity.
  assert (subscribed (feeds one_feed) "http://old.example/feed" = true)
    as Hsub by reflexivity.
  split; [exact Hin|]. split; [exact Hacc|]. split; [exact Hsub|].
  destruct (run import_start import_run) as [b|] eqn:Hrun;
    [|vm_compute in Hrun; discriminate].
  exists b. split; [reflexivity|].
  destruct (subscribed_url_is_skipped one_feed import_list true
              "http://old.example/feed" import_run b Hin Hacc Hsub Hrun)
    as (Hskipped & _ & _ & Hcalls & _).
  split; [exact Hskipped|exact Hcalls].
Defined.

(** C8, as stated, fails. First input: the list holds the very URL of an
    existing feed, but that URL has another scheme; it is counted as
    failed, with an error string, and not as skipped. Second input: the
    existing feed was added through [addFeed] from a text with a blank
    after it, which [addFeed] stores as typed; the list holds that very
    text, and the batch does not skip it but fetches its trimmed form and
    subscribes to it again. *)
Lemma matching_url_not_skipped :
  (let b := addFeedsBatch legacy_feed ["ftp://files.example/feed"] false in
   RSSFeed.url <$> feeds legacy_feed = ["ftp://files.example/feed"] ∧
   returned b
     = Some (Results 0 1 0
               ["ftp://files.example/feed: 只支持 HTTP 和 HTTPS 协议"])) ∧
  (let b := addFeedsBatch typed_feed [typed_url] false in
   addFeed (Store [] []) typed_url
     (Parsed Demo.sample_feed "old" 500 (Examples.clock 500)) false
     = (AddResolved true None, typed_feed) ∧
   RSSFeed.url <$> feeds typed_feed = [typed_url] ∧
   skipped (res b) = 0 ∧
   calls b = ["http://old.example/feed"] ∧
   (∃ b', run b [ Fulfilled 0 Demo.sample_feed "new" 1000 (Examples.clock 1000);
                  Return ] = Some b' ∧
      returned b' = Some (Results 1 0 0 []) ∧
      RSSFeed.url <$> feeds (state b')
        = ["http://old.example/feed"; typed_url])).
Proof.
  split; [by vm_compute|].
  split_and!; [by vm_compute..|].
  eexists. split; [by vm_compute|]. by vm_compute.
Qed.

(** The import of [import_list] with a callback: three candidates, three
    calls. *)
Lemma progress_counts_up_witness :
  ∃ b, run import_start import_run = Some b ∧
    progress import_start = [] ∧
    progress b = [(1, 3); (2, 3); (3, 3)].
Proof.
  destruct (run import_start import_run) as [b|] eqn:Hrun;
    [|vm_compute in Hrun; discriminate].
  exists b. split; [reflexivity|].
  destruct (progress_counts_up one_feed import_list true import_run b Hrun)
    as (Hstart & _ & _ & _ & _ & Hall & _).
  split; [exact Hstart|].
  vm_compute in Hrun. injection Hrun as <-. reflexivity.
Defined.

(** The import of [import_list]: the new feed is listed twice, is a
    candidate twice, is fetched twice and ends up subscribed twice, under
    the two identifiers drawn. *)
Lemma batch_keeps_duplicates_witness :
  ∃ b, run import_start import_run = Some b ∧
    newUrls b = [ "http://new.example/feed"; "http://new.example/feed";
                  "http://third.example/feed" ] ∧
    calls b = newUrls b ∧
    (λ f, (RSSFeed.id f, RSSFeed.url f)) <$> feeds (state b)
      = [ ("id-2", "http://new.example/feed");
          ("id-1", "http://new.example/feed");
          ("old", "http://old.example/feed") ].
Proof.
  destruct (run import_start import_run) as [b|] eqn:Hrun;
    [|vm_compute in Hrun; discriminate].
  exists b. split; [reflexivity|].
  destruct (batch_keeps_duplicates one_feed import_list true import_run b Hrun)
    as (Hnew & Hcalls & Hall & _).
  vm_compute in Hrun. injection Hrun as <-.
  split; [reflexivity|]. split; reflexivity.
Defined.

(** C2 on a batch of three candidates that is cancelled after the first
    one has committed. The feed and the entries of that candidate stay in
    the collections, nothing else is added, and the call then returns its
    [results] to the caller, with [success = 1] and the two failures of
    the pre-filter: the batch is completed with a partial result, not
    abandoned. *)
Theorem cancelled_batch_returns_partial_result :
  ∃ b1 b,
    run import_start (take 2 cancelled_run) = Some b1 ∧
    aborted b1 = true ∧ returned b1 = None ∧
    run import_start cancelled_run = Some b ∧
    state b = state b1 ∧
    RSSFeed.id <$> feeds (state b) = ["id-1"; "old"] ∧
    RSSItem.feedId <$> items (state b) = ["id-1"; "id-1"] ∧
    returned b
      = Some (Results 1 2 1
                [ "ftp://files.example/feed: 只支持 HTTP 和 HTTPS 协议";
                  "not a url: URL 格式无效" ]).
Proof.
  do 2 eexists. split; [by vm_compute|].
  split; [reflexivity|]. split; [reflexivity|].
  split; [by vm_compute|]. split_and!; reflexivity.
Qed.

End BatchRuns.

(* ================================================================== *)
(** * Part III: further properties of the code *)
(* ================================================================== *)

(** Properties read off the code itself, of the functions of Part I that
    the specification's statements leave aside and of those they rest
    on: the relays and the resolver, the entry ids, refreshing one feed
    and every feed, adding and removing a feed, reading and starring,
    the bookkeeping of a batch import, the endpoint configuration and
    the escaping of exported texts. *)

(** ** Strings *)

Lemma string_app_empty_r (s : string) : s +:+ "" = s.
Proof.
  induction s as [|c s IH]; [done|].
  change (String c (s +:+ "") = String c s). by rewrite IH.
Qed.

Lemma string_app_assoc (s1 s2 s3 : string) :
  (s1 +:+ s2) +:+ s3 = s1 +:+ (s2 +:+ s3).
Proof.
  induction s1 as [|c s1 IH]; [done|].
  change (String c ((s1 +:+ s2) +:+ s3) = String c (s1 +:+ (s2 +:+ s3))).
  by rewrite IH.
Qed.

Lemma string_rev_app (s1 s2 : string) :
  String.rev_app s1 s2 = String.rev s1 +:+ s2.
Proof.
  unfold String.rev. revert s2.
  induction s1 as [|c s1 IH]; intros s2; cbn; [done|].
  rewrite IH, (IH (String c "")), string_app_assoc. done.
Qed.

Lemma string_rev_append (s1 s2 : string) :
  String.rev (s1 +:+ s2) = String.rev s2 +:+ String.rev s1.
Proof.
  induction s1 as [|c s1 IH].
  - change (String.rev s2 = String.rev s2 +:+ ""). by rewrite string_app_empty_r.
  - change (String.rev_app (s1 +:+ s2) (String c "")
            = String.rev s2 +:+ String.rev_app s1 (String c "")).
    by rewrite !string_rev_app, IH, string_app_assoc.
Qed.

Lemma string_rev_involutive (s : string) : String.rev (String.rev s) = s.
Proof.
  induction s as [|c s IH]; [done|].
  change (String c s) with (String c "" +:+ s).
  rewrite string_rev_append, string_rev_append, IH. done.
Qed.

(** Hyphens in the decimal notation of numbers. *)

Lemma no_dash_append s1 s2 :
  no_dash (s1 +:+ s2) = no_dash s1 && no_dash s2.
Proof.
  induction s1 as [|c s1 IH]; [done|].
  change (negb (Ascii.eqb c "-") && no_dash (s1 +:+ s2)
          = negb (Ascii.eqb c "-") && no_dash s1 && no_dash s2).
  rewrite IH. by destruct (negb _), (no_dash s1).
Qed.

Lemma no_dash_rev s : no_dash (String.rev s) = no_dash s.
Proof.
  induction s as [|c s IH]; [done|].
  change (String c s) with (String c "" +:+ s) at 1.
  rewrite string_rev_append, no_dash_append, IH.
  cbn. by destruct (negb _), (no_dash s).
Qed.

Lemma no_dash_pretty_N_go x s :
  no_dash s = true → no_dash (pretty_N_go x s) = true.
Proof.
  revert s. induction (N.lt_wf_0 x) as [x _ IH]; intros s Hs.
  assert (x = 0 ∨ 0 < x)%N as [->|?] by lia.
  - by rewrite pretty_N_go_0.
  - rewrite pretty_N_go_step by done. apply IH.
    { by apply N.div_lt. }
    cbn. rewrite Hs. unfold pretty_N_char. by repeat case_match.
Qed.

Lemma no_dash_pretty_N (x : N) : no_dash (pretty x) = true.
Proof.
  unfold pretty, pretty_N. case_decide; [done|].
  by apply no_dash_pretty_N_go.
Qed.

Lemma no_dash_pretty_Z (x : Z) : (0 ≤ x)%Z → no_dash (pretty x) = true.
Proof.
  destruct x as [|p|p]; [done| |lia]. intros _.
  apply (no_dash_pretty_N (Npos p)).
Qed.

Lemma first_dash_split d1 d2 r1 r2 :
  no_dash d1 = true → no_dash d2 = true →
  d1 +:+ String "-" r1 = d2 +:+ String "-" r2 → d1 = d2 ∧ r1 = r2.
Proof.
  revert d2. induction d1 as [|c d1 IH]; intros [|c' d2] H1 H2 Heq.
  - by injection Heq as ->.
  - injection Heq as <- _. cbn in H2. done.
  - injection Heq as -> _. cbn in H1. done.
  - injection Heq as -> Heq.
    cbn in H1, H2. apply andb_prop in H1 as [_ H1], H2 as [_ H2].
    destruct (IH d2 H1 H2 Heq) as [-> ->]. done.
Qed.

Lemma last_dash_split k1 k2 t1 t2 :
  no_dash t1 = true → no_dash t2 = true →
  k1 +:+ "-" +:+ t1 = k2 +:+ "-" +:+ t2 → k1 = k2 ∧ t1 = t2.
Proof.
  intros H1 H2 Heq. apply (f_equal String.rev) in Heq.
  rewrite !string_rev_append in Heq.
  change (String.rev "-") with "-" in Heq.
  rewrite !string_app_assoc in Heq.
  apply first_dash_split in Heq as [Ht Hk]; [|by rewrite no_dash_rev..].
  split.
  - by rewrite <- (string_rev_involutive k1), <- (string_rev_involutive k2), Hk.
  - by rewrite <- (string_rev_involutive t1), <- (string_rev_involutive t2), Ht.
Qed.

(** ** The relays *)

Section RelayFacts.
Context `{Platform}.







End RelayFacts.

(** ** The resolver, whatever the order of completion *)

Section ResolverMore.
Context `{Platform}.

Lemma Promise_all_pending {A B} (g : B → A) (xs : list B) order i :
  i < length xs → i ∉ order →
  Promise_all (length xs) (omap (λ j, (λ x, (j, g x)) <$> xs !! j) order)
  = None.
Proof.
  intros Hi Hnot. unfold Promise_all, settle.
  apply mapM_None, Exists_exists. exists None. split; [|done].
  apply list_elem_of_lookup. exists i.
  rewrite settle_slots_lookup by apply length_replicate.
  rewrite decide_False by done. by apply lookup_replicate_2.
Qed.

Lemma Promise_all_fulfilled {A B} (g : B → A) (xs : list B) order results :
  Promise_all (length xs) (omap (λ j, (λ x, (j, g x)) <$> xs !! j) order)
  = Some results →
  results = g <$> xs.
Proof.
  unfold Promise_all, settle. intros Hall%mapM_Some.
  pose proof (Forall2_length _ _ _ Hall) as Hlen.
  assert (length (foldl (λ s a, <[a.1 := Some a.2]> s)
                    (replicate (length xs) None)
                    (omap (λ j, (λ x, (j, g x)) <$> xs !! j) order))
          = length xs) as Hslots.
  { generalize (omap (λ j, (λ x, (j, g x)) <$> xs !! j) order).
    intros arrivals.
    assert (∀ slots : list (option A),
      length (foldl (λ s a, <[a.1 := Some a.2]> s) slots arrivals)
      = length slots) as Hfold.
    { induction arrivals as [|a arrivals IH]; intros slots; [done|].
      cbn [foldl]. by rewrite IH, length_insert. }
    by rewrite Hfold, length_replicate. }
  apply list_eq. intros i. rewrite list_lookup_fmap.
  destruct (xs !! i) as [x|] eqn:Hx; cbn.
  - assert (is_Some (results !! i)) as [y Hy].
    { apply lookup_lt_is_Some. rewrite <- Hlen, Hslots. by eapply lookup_lt_Some. }
    rewrite Hy. f_equal.
    destruct (Forall2_lookup_r _ _ _ _ _ Hall Hy) as (slot & Hslot & Hid).
    rewrite settle_slots_lookup in Hslot by apply length_replicate.
    rewrite Hx in Hslot. cbn in Hid, Hslot.
    case_decide; [by simplify_eq|].
    apply lookup_replicate in Hslot as [-> _]. done.
  - apply lookup_ge_None. rewrite <- Hlen, Hslots. by apply lookup_ge_None.
Qed.

Lemma or_else_nonempty (a : option string) (d : string) :
  d ≠ "" → Js.or_else a d ≠ "".
Proof. intros Hd. destruct a as [s|]; cbn; [by case_decide|done]. Qed.

Lemma tryParseUrl_title net url feed :
  tryParseUrl net url = Some feed → ParsedFeed.title feed ≠ "".
Proof.
  unfold tryParseUrl. intros Hparse.
  repeat (case_match; simplify_eq/=; try done); by apply or_else_nonempty.
Qed.

Lemma probe_suffixes_sound net order baseUrl r :
  probe_suffixes net order baseUrl = Some r →
  match r with
  | inr feed =>
      0 < length (ParsedFeed.items feed) ∧
      ∃ suffix, suffix ∈ drop 1 RSS_SUFFIXES ∧
        tryParseUrl net (baseUrl +:+ suffix) = Some feed
  | inl message =>
      message = parse_failed ∧
      ∀ suffix feed, suffix ∈ drop 1 RSS_SUFFIXES →
        tryParseUrl net (baseUrl +:+ suffix) = Some feed →
        length (ParsedFeed.items feed) = 0
  end.
Proof.
  unfold probe_suffixes.
  destruct (Promise_all _ _) as [results|] eqn:Hall; [|done].
  apply (Promise_all_fulfilled (probe net baseUrl)) in Hall as ->.
  cbn [mbind option_bind].
  destruct (find _ _) as [[feed|]|] eqn:Hfind; intros [= <-].
  - apply find_some in Hfind as [Hin _].
    apply list_elem_of_In, list_elem_of_fmap in Hin as (suffix & Hp & Hin).
    symmetry in Hp. apply probe_Some in Hp as [? ?]. eauto.
  - apply find_some in Hfind as [_ Hne].
    by apply bool_decide_eq_true in Hne.
  - split; [done|]. intros suffix feed Hin Hparse.
    eapply find_none in Hfind;
      [|apply list_elem_of_In, list_elem_of_fmap; eauto].
    apply bool_decide_eq_false in Hfind.
    destruct (probe net baseUrl suffix) as [r|] eqn:Hp; [by destruct Hfind|].
    by eapply probe_None.
Qed.

(** X3. Whatever the order in which the probes complete: a feed that
    [parseRSSFeed] returns has at least one entry and a title, and is
    what [tryParseUrl] extracts from the normalised URL followed by one
    of the suffixes of [RSS_SUFFIXES]; and when [parseRSSFeed] throws,
    its message is the fixed one and no suffix, the empty one included,
    yields a feed with an entry. *)
Theorem resolved_feed_was_fetched_and_has_entries net order url r :
  let baseUrl := strip_trailing_slash (trim url) in
  parseRSSFeed net order url = Some r →
  match r with
  | inr feed =>
      0 < length (ParsedFeed.items feed) ∧
      ParsedFeed.title feed ≠ "" ∧
      ∃ suffix, suffix ∈ RSS_SUFFIXES ∧
        tryParseUrl net (baseUrl +:+ suffix) = Some feed
  | inl message =>
      message = parse_failed ∧
      ∀ suffix feed, suffix ∈ RSS_SUFFIXES →
        tryParseUrl net (baseUrl +:+ suffix) = Some feed →
        length (ParsedFeed.items feed) = 0
  end.
Proof.
  cbn zeta. unfold parseRSSFeed.
  set (baseUrl := strip_trailing_slash (trim url)).
  assert (∀ r, probe_suffixes net order baseUrl = Some r →
    (∀ direct, tryParseUrl net baseUrl = Some direct →
               length (ParsedFeed.items direct) = 0) →
    match r with
    | inr feed =>
        0 < length (ParsedFeed.items feed) ∧
        ParsedFeed.title feed ≠ "" ∧
        ∃ suffix, suffix ∈ RSS_SUFFIXES ∧
          tryParseUrl net (baseUrl +:+ suffix) = Some feed
    | inl message =>
        message = parse_failed ∧
        ∀ suffix feed, suffix ∈ RSS_SUFFIXES →
          tryParseUrl net (baseUrl +:+ suffix) = Some feed →
          length (ParsedFeed.items feed) = 0
    end) as Hprobe.
  { intros r' Hr' Hdirect. apply probe_suffixes_sound in Hr'.
    destruct r' as [message|feed].
    - destruct Hr' as [-> Hnone]. split; [done|].
      intros suffix feed [->|Hin]%elem_of_cons Hparse.
      + rewrite string_app_empty_r in Hparse. by apply Hdirect.
      + by eapply Hnone.
    - destruct Hr' as (Hpos & suffix & Hin & Hparse). split; [done|].
      split; [by eapply tryParseUrl_title|].
      exists suffix. split; [|done]. apply elem_of_cons. by right. }
  destruct (tryParseUrl net baseUrl) as [direct|] eqn:Hdirect.
  - case_decide as Hlen.
    + intros [= <-]. split; [done|].
      split; [by eapply tryParseUrl_title|]. exists "". split.
      * apply elem_of_cons. by left.
      * by rewrite string_app_empty_r.
    + intros Hr. apply Hprobe; [done|]. intros d [= <-]. lia.
  - intros Hr. apply Hprobe; [done|]. done.
Qed.

(** X4. When the direct attempt fails, [parseRSSFeed] does not return
    while one of the suffix probes is outstanding, whatever the probes
    that have completed have found: the results are gathered by
    [Promise.all]. *)
Theorem resolver_waits_for_every_probe net order url i :
  (∀ direct,
     tryParseUrl net (strip_trailing_slash (trim url)) = Some direct →
     length (ParsedFeed.items direct) = 0) →
  i < length (drop 1 RSS_SUFFIXES) →
  i ∉ order →
  parseRSSFeed net order url = None.
Proof.
  intros Hdirect Hi Hnot. unfold parseRSSFeed.
  assert (probe_suffixes net order (strip_trailing_slash (trim url)) = None)
    as Hpending.
  { unfold probe_suffixes.
    by rewrite (Promise_all_pending (probe net _) _ order i). }
  destruct (tryParseUrl net _) as [direct|]; [|done].
  rewrite decide_False; [done|]. rewrite (Hdirect direct); [lia|done].
Qed.

(** X5. One trailing slash is stripped from the trimmed URL, so that a
    URL and the same URL followed by a slash resolve alike. *)
Theorem trailing_slash_is_ignored net order url :
  trim (url +:+ "/") = trim url +:+ "/" →
  strip_trailing_slash (trim (url +:+ "/")) = trim url ∧
  (strip_trailing_slash (trim url) = trim url →
   parseRSSFeed net order (url +:+ "/") = parseRSSFeed net order url).
Proof.
  intros Htrim.
  assert (strip_trailing_slash (trim (url +:+ "/")) = trim url) as Hstrip.
  { rewrite Htrim. unfold strip_trailing_slash.
    rewrite string_rev_append. cbn. apply string_rev_involutive. }
  split; [done|]. intros Hclean. unfold parseRSSFeed.
  by rewrite Hstrip, Hclean.
Qed.

(** X27. Once every suffix probe has completed the resolver settles,
    and on what does not depend on the order in which the probes have
    completed. *)
Theorem resolver_result_ignores_completion_order net order1 order2 url :
  order1 ≡ₚ seq 0 (length (drop 1 RSS_SUFFIXES)) →
  order2 ≡ₚ seq 0 (length (drop 1 RSS_SUFFIXES)) →
  is_Some (parseRSSFeed net order1 url) ∧
  parseRSSFeed net order1 url = parseRSSFeed net order2 url.
Proof.
  intros H1 H2. unfold parseRSSFeed.
  rewrite !probe_suffixes_complete by done.
  split; [|done].
  destruct (tryParseUrl net _) as [direct|]; [case_decide|]; by eexists.
Qed.

End ResolverMore.

(** ** Entry ids *)

Lemma convertToRSSItems_id parsedItems feedId now index item :
  parsedItems !! index = Some item →
  RSSItem.id <$> convertToRSSItems parsedItems feedId now !! index
    = Some (feedId +:+ "-" +:+ id_key item index +:+ "-" +:+ pretty (now index)).
Proof.
  intros Hitem. unfold convertToRSSItems.
  by rewrite list_lookup_imap, Hitem.
Qed.

(** X6. Two entries made by one call of [convertToRSSItems], at clock
    readings that are not negative, have the same id exactly when they
    have the same key (the [guid], or the position for want of one) and
    were made at the same clock reading; in particular two entries
    without [guid] never share an id. *)
Theorem entry_ids_collide_only_on_same_key parsedItems feedId now i j a b x y :
  parsedItems !! i = Some a →
  parsedItems !! j = Some b →
  convertToRSSItems parsedItems feedId now !! i = Some x →
  convertToRSSItems parsedItems feedId now !! j = Some y →
  (0 ≤ now i)%Z → (0 ≤ now j)%Z →
  (RSSItem.id x = RSSItem.id y ↔ id_key a i = id_key b j ∧ now i = now j) ∧
  (ParsedItem.guid a = None → ParsedItem.guid b = None → i ≠ j →
   RSSItem.id x ≠ RSSItem.id y).
Proof.
  intros Ha Hb Hx Hy Hi Hj.
  pose proof (convertToRSSItems_id parsedItems feedId now i a Ha) as Hidx.
  pose proof (convertToRSSItems_id parsedItems feedId now j b Hb) as Hidy.
  rewrite Hx in Hidx. rewrite Hy in Hidy. cbn in Hidx, Hidy.
  injection Hidx as Hidx. injection Hidy as Hidy.
  assert (RSSItem.id x = RSSItem.id y ↔ id_key a i = id_key b j ∧ now i = now j)
    as Hiff.
  { rewrite Hidx, Hidy. split.
    - intros Heq. apply (inj (String.append feedId)) in Heq.
      injection Heq as Heq.
      apply last_dash_split in Heq as [Hk Ht];
        [|by apply no_dash_pretty_Z..].
      split; [done|]. by apply (inj pretty).
    - by intros [-> ->]. }
  split; [done|].
  intros Hga Hgb Hne Heq. apply Hiff in Heq as [Hk _].
  unfold id_key in Hk. rewrite Hga, Hgb in Hk. cbn in Hk.
  by apply (inj pretty) in Hk.
Qed.

(** ** Reading, starring and viewing *)

(** Case analysis on the tests met while filtering one more element. *)
Ltac filter_cases :=
  repeat first
    [ rewrite filter_cons
    | match goal with
      | |- context [decide ?P] => destruct (decide P); simplify_eq/=
      end ].

(** X17. Toggling the star of an article twice gives back the
    collection. One toggle changes no id and no read flag, so the
    unread count stays, and it leaves entries with another id alone. *)
Theorem star_toggle_undoes_itself itemId l :
  toggleStar itemId (toggleStar itemId l) = l ∧
  RSSItem.isRead <$> toggleStar itemId l = RSSItem.isRead <$> l ∧
  RSSItem.id <$> toggleStar itemId l = RSSItem.id <$> l ∧
  unreadCount (toggleStar itemId l) = unreadCount l ∧
  (∀ k e, l !! k = Some e → RSSItem.id e ≠ itemId →
          toggleStar itemId l !! k = Some e).
Proof.
  unfold unreadCount, toggleStar.
  split_and!.
  - induction l as [|i l IH]; [done|]. cbn [map]. rewrite IH. f_equal.
    destruct (decide (RSSItem.id i = itemId)) as [Hi|Hi].
    + cbn. rewrite decide_True by done. destruct i as [? ? ? ? ? ? ? ? ? ? s].
      cbn. by rewrite negb_involutive.
    + by rewrite decide_False.
  - induction l as [|i l IH]; [done|]. cbn [map fmap list_fmap] in *.
    rewrite IH. f_equal. by destruct (decide _).
  - induction l as [|i l IH]; [done|]. cbn [map fmap list_fmap] in *.
    rewrite IH. f_equal. by destruct (decide _).
  - induction l as [|i l IH]; [done|]. cbn [map].
    assert (RSSItem.isRead
              (if decide (RSSItem.id i = itemId)
               then RSSItem.with_flags i (RSSItem.isRead i)
                      (negb (RSSItem.isStarred i)) else i)
            = RSSItem.isRead i) as Hr by (by destruct (decide _)).
    destruct (decide (RSSItem.isRead i = false)) as [Hf|Hf].
    + rewrite !filter_cons_True by congruence. cbn. by rewrite IH.
    + rewrite !filter_cons_False by congruence. done.
  - intros k e Hk Hne. change (map ?f l) with (f <$> l).
    rewrite list_lookup_fmap, Hk. cbn. by rewrite decide_False.
Qed.

(** X18. Marking an article as read takes the entries with its id, and
    no other, out of the unread view, whatever feed is selected; in the
    starred view the same entries are shown as before, now read. The
    unread count drops by the number of unread entries with that id and
    the starred count stays. *)
Theorem read_article_leaves_unread_view itemId l selectedFeedId :
  filteredItems (markAsRead itemId true l) ViewMode.unread selectedFeedId
    = filter (λ i, RSSItem.id i ≠ itemId)
        (filteredItems l ViewMode.unread selectedFeedId) ∧
  filteredItems (markAsRead itemId true l) ViewMode.starred selectedFeedId
    = markAsRead itemId true (filteredItems l ViewMode.starred selectedFeedId) ∧
  unreadCount (markAsRead itemId true l)
    + length (filter (λ i, RSSItem.id i = itemId ∧ RSSItem.isRead i = false) l)
    = unreadCount l ∧
  starredCount (markAsRead itemId true l) = starredCount l.
Proof.
  unfold filteredItems, unreadCount, starredCount, markAsRead,
    in_selection, in_view.
  split_and!; (induction l as [|i l IH]; [done|]); cbn [map];
    destruct (decide (RSSItem.id i = itemId)); cbn [length];
    filter_cases; rewrite <- ?IH; try done; try congruence; try lia;
    try (exfalso; intuition congruence).
Qed.

Lemma markAllAsRead_cons feedId i l :
  markAllAsRead feedId (i :: l) =
    (if in_selection feedId i
     then RSSItem.with_flags i true (RSSItem.isStarred i) else i)
    :: markAllAsRead feedId l.
Proof.
  unfold markAllAsRead, in_selection. cbn [map]. f_equal.
  by destruct (truthy feedId).
Qed.

(** X19. After [markAllAsRead] the unread view of the feed it was
    called for is empty (of all feeds, when it was called without one),
    entries outside that feed are as they were, and no star and no id
    has changed. *)
Theorem mark_all_read_empties_unread_view feedId l :
  filteredItems (markAllAsRead feedId l) ViewMode.unread feedId = [] ∧
  filter (λ i, in_selection feedId i = false) (markAllAsRead feedId l)
    = filter (λ i, in_selection feedId i = false) l ∧
  (truthy feedId = false → unreadCount (markAllAsRead feedId l) = 0) ∧
  RSSItem.isStarred <$> markAllAsRead feedId l = RSSItem.isStarred <$> l ∧
  RSSItem.id <$> markAllAsRead feedId l = RSSItem.id <$> l.
Proof.
  unfold filteredItems, unreadCount.
  split_and!; [| | intros Hf | |]; (induction l as [|i l IH]; [done|]);
    rewrite markAllAsRead_cons; cbn [fmap list_fmap length] in *.
  - destruct (in_selection feedId i) eqn:Hs.
    + rewrite (filter_cons_False _ (RSSItem.with_flags _ _ _)) by done. done.
    + destruct (decide (in_view ViewMode.unread i = true)).
      * rewrite (filter_cons_True _ i) by done.
        rewrite filter_cons_False by congruence. done.
      * rewrite (filter_cons_False _ i) by done. done.
  - destruct (in_selection feedId i) eqn:Hs.
    + rewrite (filter_cons_False _ (RSSItem.with_flags _ _ _)).
      2:{ unfold in_selection in *. cbn. by rewrite Hs. }
      rewrite (filter_cons_False _ i) by congruence. done.
    + rewrite !(filter_cons_True _ i) by done. by rewrite IH.
  - unfold in_selection. rewrite Hf.
    rewrite filter_cons_False by done. done.
  - rewrite IH. f_equal. by destruct (in_selection feedId i).
  - rewrite IH. f_equal. by destruct (in_selection feedId i).
Qed.

(** X29. Opening an article marks it as read and still shows it: the
    article shown afterwards is the one that was found under that id,
    now read and with its star as before, although no entry with that
    id is left in the unread view. *)
Theorem selected_article_stays_in_view itemId l e0 :
  itemId ≠ "" →
  selectedItem l (Some itemId) = Some e0 →
  let selected := (handleSelectItem itemId l).1 in
  let l' := (handleSelectItem itemId l).2 in
  selectedItem l' selected
    = Some (RSSItem.with_flags e0 true (RSSItem.isStarred e0)) ∧
  (∀ selectedFeedId e,
     e ∈ filteredItems l' ViewMode.unread selectedFeedId →
     RSSItem.id e ≠ itemId).
Proof.
  intros Hne Hsel. cbn zeta. unfold handleSelectItem. cbn [fst snd].
  unfold selectedItem in *. cbn [truthy] in *.
  rewrite bool_decide_true in * by done.
  split.
  - unfold markAsRead. induction l as [|i l IH]; [done|].
    cbn [map find] in *.
    destruct (decide (RSSItem.id i = itemId)) as [Hi|Hi].
    + rewrite bool_decide_true in Hsel by (by rewrite Hi).
      injection Hsel as <-. cbn [RSSItem.with_flags RSSItem.id].
      by rewrite bool_decide_true by (by rewrite Hi).
    + rewrite bool_decide_false in Hsel by congruence.
      rewrite bool_decide_false by congruence. by apply IH.
  - intros selectedFeedId e He. unfold filteredItems in He.
    apply list_elem_of_filter in He as [_ He].
    apply list_elem_of_filter in He as [Hview He].
    unfold markAsRead in He. apply list_elem_of_In, in_map_iff in He
      as (i & Hi & _).
    destruct (decide (RSSItem.id i = itemId)); subst e; [done|done].
Qed.

(** ** Ownership of entries *)

Lemma entries_of_others feedId other (l : list RSSItem.t) :
  other ≠ feedId →
  entries_of other (filter (λ i, RSSItem.feedId i ≠ feedId) l) = entries_of other l.
Proof.
  intros Hne. unfold entries_of. rewrite list_filter_filter.
  apply list_filter_iff. intros i. split; [by intros [? ?]|].
  intros Hi. split; [done|congruence].
Qed.


Lemma entries_of_app feedId (l1 l2 : list RSSItem.t) :
  entries_of feedId (l1 ++ l2) = entries_of feedId l1 ++ entries_of feedId l2.
Proof. unfold entries_of. apply filter_app. Qed.

Lemma entries_of_converted parsedItems feedId now :
  entries_of feedId (convertToRSSItems parsedItems feedId now)
    = convertToRSSItems parsedItems feedId now.
Proof.
  unfold entries_of. apply filter_all, Forall_forall.
  intros n Hn. by eapply convertToRSSItems_feedId.
Qed.

Lemma convertToRSSItems_fresh parsedItems feedId now :
  Forall (λ i, RSSItem.feedId i = feedId ∧ RSSItem.isRead i = false ∧
               RSSItem.isStarred i = false)
         (convertToRSSItems parsedItems feedId now).
Proof.
  apply Forall_forall. intros n Hn.
  apply list_elem_of_lookup in Hn as [k Hk].
  destruct (parsedItems !! k) as [item|] eqn:Hitem.
  - destruct (convertToRSSItems_lookup parsedItems feedId now k item Hitem)
      as (n' & Hn' & Hf & _ & _ & _ & _ & _ & _ & Hr & Hs).
    by simplify_eq.
  - by rewrite convertToRSSItems_lookup_None in Hk.
Qed.

Lemma owned_publish st newFeed newItems :
  Forall (λ i, RSSItem.feedId i = RSSFeed.id newFeed) newItems →
  owned st →
  owned (Store (newFeed :: feeds st) (newItems ++ items st)).
Proof.
  unfold owned. cbn [feeds items fmap list_fmap]. intros Hn Ho.
  apply Forall_app. split.
  - eapply Forall_impl; [exact Hn|]. cbn. intros i ->. apply elem_of_cons. by left.
  - eapply Forall_impl; [exact Ho|]. cbn. intros i Hi.
    apply elem_of_cons. by right.
Qed.

(** ** Refreshing one feed, and every feed *)

Lemma find_feed_is_Some (fs : list RSSFeed.t) feedId :
  feedId ∈ RSSFeed.id <$> fs →
  is_Some (find (λ f, bool_decide (RSSFeed.id f = feedId)) fs).
Proof.
  intros (f & Hid & Hf)%list_elem_of_fmap.
  destruct (find _ fs) as [g|] eqn:Hfind; [by eexists|].
  eapply find_none in Hfind; [|by apply list_elem_of_In].
  cbn in Hfind. by rewrite bool_decide_true in Hfind.
Qed.

Lemma find_feed_None (fs : list RSSFeed.t) feedId :
  feedId ∉ RSSFeed.id <$> fs →
  find (λ f, bool_decide (RSSFeed.id f = feedId)) fs = None.
Proof.
  intros Hnot. apply find_nowhere. intros f Hf.
  apply bool_decide_eq_false. intros Hid.
  apply Hnot, list_elem_of_fmap. eauto.
Qed.

Lemma refreshFeed_success st feedId parsed now t :
  feedId ∈ RSSFeed.id <$> feeds st →
  refreshFeed st feedId (inr parsed) now t =
    Store
      (map (λ f,
         if decide (RSSFeed.id f = feedId)
         then RSSFeed.mk (RSSFeed.id f) (RSSFeed.title f)
                (RSSFeed.url f) (RSSFeed.description f) (Some t)
         else f) (feeds st))
      (refresh_items feedId
         (convertToRSSItems (ParsedFeed.items parsed) feedId now) (items st)).
Proof.
  intros [feed Hfeed]%find_feed_is_Some. unfold refreshFeed. by rewrite Hfeed.
Qed.

Lemma refreshFeed_failure st feedId message now t :
  refreshFeed st feedId (inl message) now t = st.
Proof. unfold refreshFeed. by destruct (find _ _). Qed.

Lemma refreshFeed_unknown st feedId outcome now t :
  feedId ∉ RSSFeed.id <$> feeds st →
  refreshFeed st feedId outcome now t = st.
Proof. intros Hnot. unfold refreshFeed. by rewrite find_feed_None. Qed.

(** The three ways a refresh can go. *)
Lemma refreshFeed_cases st feedId outcome now t :
  refreshFeed st feedId outcome now t = st ∨
  ∃ parsed, outcome = inr parsed ∧ feedId ∈ RSSFeed.id <$> feeds st.
Proof.
  destruct outcome as [message|parsed]; [left; apply refreshFeed_failure|].
  destruct (decide (feedId ∈ RSSFeed.id <$> feeds st)) as [Hin|Hnot].
  - right. eauto.
  - left. by apply refreshFeed_unknown.
Qed.

Lemma stamped_feeds (proj : RSSFeed.t → string) (fs : list RSSFeed.t) feedId t :
  (∀ f, proj (RSSFeed.mk (RSSFeed.id f) (RSSFeed.title f) (RSSFeed.url f)
                (RSSFeed.description f) (Some t)) = proj f) →
  proj <$> map (λ f,
      if decide (RSSFeed.id f = feedId)
      then RSSFeed.mk (RSSFeed.id f) (RSSFeed.title f)
             (RSSFeed.url f) (RSSFeed.description f) (Some t)
      else f) fs = proj <$> fs.
Proof.
  intros Hproj. change (map ?f ?l) with (f <$> l).
  rewrite <- list_fmap_compose. apply list_fmap_ext.
  intros k f _. cbn. by destruct (decide _).
Qed.

Lemma refreshFeed_feeds st feedId outcome now t :
  let st' := refreshFeed st feedId outcome now t in
  RSSFeed.id <$> feeds st' = RSSFeed.id <$> feeds st ∧
  RSSFeed.title <$> feeds st' = RSSFeed.title <$> feeds st ∧
  RSSFeed.url <$> feeds st' = RSSFeed.url <$> feeds st.
Proof.
  cbn zeta.
  destruct (refreshFeed_cases st feedId outcome now t)
    as [->|(parsed & -> & Hin)]; [done|].
  rewrite refreshFeed_success by done. cbn [feeds].
  split_and!; by apply stamped_feeds.
Qed.

Lemma refresh_items_split feedId parsedItems now prev :
  let items' :=
    refresh_items feedId (convertToRSSItems parsedItems feedId now) prev in
  items' = entries_of feedId items'
             ++ filter (λ i, RSSItem.feedId i ≠ feedId) prev ∧
  RSSItem.link <$> entries_of feedId items'
    = (λ p, Js.or_else (ParsedItem.link p) "") <$> parsedItems.
Proof.
  cbn zeta.
  rewrite entries_of_refresh_items
    by (intros n Hn; by eapply convertToRSSItems_feedId).
  split; [done|].
  rewrite <- list_fmap_compose.
  apply list_eq. intros k. rewrite !list_lookup_fmap.
  destruct (parsedItems !! k) as [item|] eqn:Hitem.
  - destruct (convertToRSSItems_lookup parsedItems feedId now k item Hitem)
      as (n & Hn & _ & _ & Hlink & _).
    rewrite Hn. cbn. f_equal. rewrite <- Hlink.
    by destruct (find_by_link prev (RSSItem.link n)).
  - by rewrite convertToRSSItems_lookup_None.
Qed.

Lemma refreshFeed_others st feedId outcome now t other :
  other ≠ feedId →
  entries_of other (items (refreshFeed st feedId outcome now t))
    = entries_of other (items st).
Proof.
  intros Hne.
  destruct (refreshFeed_cases st feedId outcome now t)
    as [->|(parsed & -> & Hin)]; [done|].
  rewrite refreshFeed_success by done. cbn [items].
  destruct (refresh_items_split feedId (ParsedFeed.items parsed) now (items st))
    as [Hsplit _]. cbv zeta in Hsplit.
  rewrite Hsplit, entries_of_app.
  assert (entries_of other (entries_of feedId
            (refresh_items feedId
               (convertToRSSItems (ParsedFeed.items parsed) feedId now)
               (items st))) = []) as ->.
  { unfold entries_of. rewrite list_filter_filter. apply filter_none.
    apply Forall_forall. intros i _ [? ?]. congruence. }
  by apply entries_of_others.
Qed.

Lemma refreshFeed_owned st feedId outcome now t :
  owned st → owned (refreshFeed st feedId outcome now t).
Proof.
  intros Ho. unfold owned.
  destruct (refreshFeed_feeds st feedId outcome now t) as [-> _].
  destruct (refreshFeed_cases st feedId outcome now t)
    as [->|(parsed & -> & Hin)]; [done|].
  rewrite refreshFeed_success by done. cbn [items].
  destruct (refresh_items_split feedId (ParsedFeed.items parsed) now (items st))
    as [Hsplit _]. cbv zeta in Hsplit.
  rewrite Hsplit. apply Forall_app. split.
  - apply Forall_forall. intros i [-> _]%list_elem_of_filter. done.
  - apply Forall_forall. intros i [_ Hi]%list_elem_of_filter.
    unfold owned in Ho. rewrite Forall_forall in Ho. by apply Ho.
Qed.

Lemma refreshFeed_later_success known st feedId parsed now t :
  feedId ∈ RSSFeed.id <$> known →
  refreshFeed_later known st feedId (inr parsed) now t =
    Store
      (map (λ f,
         if decide (RSSFeed.id f = feedId)
         then RSSFeed.mk (RSSFeed.id f) (RSSFeed.title f)
                (RSSFeed.url f) (RSSFeed.description f) (Some t)
         else f) (feeds st))
      (refresh_items feedId
         (convertToRSSItems (ParsedFeed.items parsed) feedId now) (items st)).
Proof.
  intros [feed Hfeed]%find_feed_is_Some. unfold refreshFeed_later.
  by rewrite Hfeed.
Qed.

(** The call changes nothing unless the feed was found and the resolver
    has returned. *)
Lemma refreshFeed_later_cases known st feedId outcome now t :
  refreshFeed_later known st feedId outcome now t = st ∨
  ∃ parsed, outcome = inr parsed ∧ feedId ∈ RSSFeed.id <$> known.
Proof.
  destruct outcome as [message|parsed].
  - left. unfold refreshFeed_later. by destruct (find _ _).
  - destruct (decide (feedId ∈ RSSFeed.id <$> known)) as [Hin|Hnot].
    + right. eauto.
    + left. unfold refreshFeed_later. by rewrite find_feed_None.
Qed.

Lemma stamped_others (fs : list RSSFeed.t) feedId t :
  feedId ∉ RSSFeed.id <$> fs →
  map (λ f,
      if decide (RSSFeed.id f = feedId)
      then RSSFeed.mk (RSSFeed.id f) (RSSFeed.title f)
             (RSSFeed.url f) (RSSFeed.description f) (Some t)
      else f) fs = fs.
Proof.
  intros Hnot. change (map ?f ?l) with (f <$> l).
  rewrite <- (list_fmap_id fs) at 2. apply list_fmap_ext.
  intros k f Hk. cbn. rewrite decide_False; [done|].
  intros Hid. apply Hnot, list_elem_of_fmap. exists f.
  split; [done|]. by eapply list_elem_of_lookup_2.
Qed.

(** X7. A refresh leaves the list of feeds as it is but for
    [lastUpdated], whatever has been added to or removed from the
    collections while the resolver was running: ids, titles, URLs and
    descriptions stay, and a feed with another id is not touched. When
    the resolver fails or times out, or the id belonged to no feed when
    the call was made, nothing changes at all. When no feed of the list
    has the id any more, the list is left as it is. When the
    collections are those of the call, the result is that of
    [refreshFeed]. *)
Theorem refresh_only_stamps_the_feed known st feedId outcome now t :
  let st' := refreshFeed_later known st feedId outcome now t in
  RSSFeed.id <$> feeds st' = RSSFeed.id <$> feeds st ∧
  RSSFeed.title <$> feeds st' = RSSFeed.title <$> feeds st ∧
  RSSFeed.url <$> feeds st' = RSSFeed.url <$> feeds st ∧
  RSSFeed.description <$> feeds st' = RSSFeed.description <$> feeds st ∧
  (∀ k f, feeds st !! k = Some f → RSSFeed.id f ≠ feedId →
          feeds st' !! k = Some f) ∧
  (∀ message, outcome = inl message → st' = st) ∧
  (feedId ∉ RSSFeed.id <$> known → st' = st) ∧
  (feedId ∉ RSSFeed.id <$> feeds st → feeds st' = feeds st) ∧
  (known = feeds st → st' = refreshFeed st feedId outcome now t).
Proof.
  cbn zeta.
  destruct (refreshFeed_later_cases known st feedId outcome now t)
    as [Hsame|(parsed & -> & Hin)].
  - assert (known = feeds st → st = refreshFeed st feedId outcome now t)
      as Hcall.
    { intros ->. unfold refreshFeed_later in Hsame. unfold refreshFeed.
      by rewrite Hsame. }
    rewrite Hsame. by split_and!.
  - rewrite refreshFeed_later_success by done. cbn [feeds].
    split_and!; try (by apply stamped_feeds).
    + change (map ?f ?l) with (f <$> l).
      rewrite <- list_fmap_compose. apply list_fmap_ext.
      intros k f _. cbn. by destruct (decide _).
    + intros k f Hk Hne. change (map ?f ?l) with (f <$> l).
      rewrite list_lookup_fmap, Hk. cbn. by rewrite decide_False.
    + done.
    + done.
    + by apply stamped_others.
    + intros ->. by rewrite refreshFeed_success.
Qed.

(** X30. A feed removed while its refresh is running comes back as
    entries without a feed. The refresh had found the feed when it was
    called; when the resolver returns, the updater of the entries puts
    the parsed entries in front of the collection although the removal
    has emptied the feed, and the updater of the feeds finds no feed to
    stamp. The entries of the other feeds are as before the removal. *)
Theorem refresh_after_removal_leaves_orphans known st selectedFeedId feedId
    parsed now t :
  feedId ∈ RSSFeed.id <$> known →
  0 < length (ParsedFeed.items parsed) →
  let removed := (removeFeed st selectedFeedId feedId).1 in
  let st' := refreshFeed_later known removed feedId (inr parsed) now t in
  feeds st' = feeds removed ∧
  (feedId ∉ RSSFeed.id <$> feeds st') ∧
  entries_of feedId (items removed) = [] ∧
  length (entries_of feedId (items st')) = length (ParsedFeed.items parsed) ∧
  RSSItem.link <$> entries_of feedId (items st')
    = (λ p, Js.or_else (ParsedItem.link p) "") <$> ParsedFeed.items parsed ∧
  (∀ other, other ≠ feedId →
     entries_of other (items st') = entries_of other (items st)) ∧
  ¬ owned st'.
Proof.
  intros Hknown Hpos. cbn zeta. cbn [removeFeed fst].
  rewrite refreshFeed_later_success by done. cbn [feeds items].
  assert (feedId ∉ RSSFeed.id <$> filter (λ f, RSSFeed.id f ≠ feedId) (feeds st))
    as Hgone.
  { intros (f & Hid & [Hne _]%list_elem_of_filter)%list_elem_of_fmap.
    by apply Hne. }
  rewrite stamped_others by done.
  set (prev := filter (λ i, RSSItem.feedId i ≠ feedId) (items st)).
  destruct (refresh_items_split feedId (ParsedFeed.items parsed) now prev)
    as [Hsplit Hlinks]. cbv zeta in Hsplit, Hlinks.
  assert (length (entries_of feedId
            (refresh_items feedId
               (convertToRSSItems (ParsedFeed.items parsed) feedId now) prev))
          = length (ParsedFeed.items parsed)) as Hlen.
  { rewrite <- (length_fmap RSSItem.link), Hlinks. by rewrite length_fmap. }
  split_and!; [done|done| |done|done| |].
  - unfold entries_of, prev. rewrite list_filter_filter. apply filter_none.
    apply Forall_forall. intros i _ [? ?]. congruence.
  - intros other Hne. rewrite Hsplit, entries_of_app.
    assert (entries_of other (entries_of feedId
              (refresh_items feedId
                 (convertToRSSItems (ParsedFeed.items parsed) feedId now)
                 prev)) = []) as ->.
    { unfold entries_of. rewrite list_filter_filter. apply filter_none.
      apply Forall_forall. intros i _ [? ?]. congruence. }
    cbn [app]. unfold prev. rewrite list_filter_filter.
    unfold entries_of. rewrite list_filter_filter.
    apply list_filter_iff. intros i. split; [tauto|].
    intros Hi. split_and!; try done; congruence.
  - unfold owned. cbn [feeds items]. intros Ho.
    destruct (entries_of feedId
                (refresh_items feedId
                   (convertToRSSItems (ParsedFeed.items parsed) feedId now)
                   prev)) as [|i rest] eqn:Hentries; [cbn in Hlen; lia|].
    assert (i ∈ entries_of feedId
                  (refresh_items feedId
                     (convertToRSSItems (ParsedFeed.items parsed) feedId now)
                     prev)) as Hi by (rewrite Hentries; apply elem_of_cons; by left).
    apply list_elem_of_filter in Hi as [Hfeed Hin].
    rewrite Forall_forall in Ho. specialize (Ho i Hin).
    rewrite Hfeed in Ho. done.
Qed.

(** X8. A successful refresh of a subscribed feed replaces the entries
    of that feed by one entry for each parsed article, in parse order
    and ahead of all other entries: an entry whose article is no longer
    in the parse is gone, whatever its flags. The entries of the other
    feeds stay as they are, and if every entry belonged to a subscribed
    feed before, that is still so. *)
Theorem refresh_replaces_the_feed_entries st feedId parsed now t :
  feedId ∈ RSSFeed.id <$> feeds st →
  let st' := refreshFeed st feedId (inr parsed) now t in
  RSSItem.link <$> entries_of feedId (items st')
    = (λ p, Js.or_else (ParsedItem.link p) "") <$> ParsedFeed.items parsed ∧
  items st' = entries_of feedId (items st')
                ++ filter (λ i, RSSItem.feedId i ≠ feedId) (items st) ∧
  (∀ other, other ≠ feedId →
     entries_of other (items st') = entries_of other (items st)) ∧
  (owned st → owned st').
Proof.
  intros Hin. cbn zeta.
  split_and!; [| |by intros other; apply refreshFeed_others
              |by apply refreshFeed_owned].
  all: rewrite refreshFeed_success by done; cbn [items];
       by apply refresh_items_split.
Qed.

(** X9. A refresh marks no article as read or starred by itself: an
    entry of the refreshed feed is read (starred) only if an entry with
    the same link was read (starred) before the refresh. *)
Theorem refresh_never_invents_flags st feedId parsed now t m :
  feedId ∈ RSSFeed.id <$> feeds st →
  m ∈ entries_of feedId (items (refreshFeed st feedId (inr parsed) now t)) →
  (RSSItem.isRead m = true →
   ∃ e, e ∈ items st ∧ RSSItem.link e = RSSItem.link m ∧
        RSSItem.isRead e = true) ∧
  (RSSItem.isStarred m = true →
   ∃ e, e ∈ items st ∧ RSSItem.link e = RSSItem.link m ∧
        RSSItem.isStarred e = true).
Proof.
  intros Hin. rewrite refreshFeed_success by done. cbn [items].
  rewrite entries_of_refresh_items
    by (intros n Hn; by eapply convertToRSSItems_feedId).
  intros (n & -> & Hn)%list_elem_of_fmap.
  pose proof (convertToRSSItems_fresh (ParsedFeed.items parsed) feedId now)
    as Hfresh.
  rewrite Forall_forall in Hfresh.
  destruct (Hfresh n Hn) as (_ & Hr & Hs).
  destruct (find_by_link (items st) (RSSItem.link n)) as [e|] eqn:Hfind.
  - apply find_by_link_Some in Hfind as (before & after & Heq & Hlink & _).
    assert (e ∈ items st) as He.
    { rewrite Heq. apply elem_of_app. right. apply elem_of_cons. by left. }
    cbn. split; intros Hflag; exists e; by split_and!.
  - split; intros Hflag; congruence.
Qed.

Lemma arrivals_elem (batch : list RSSFeed.t) (order : list nat) a :
  a ∈ omap (λ j, (λ feed, (j, feed)) <$> batch !! j) order →
  a.1 ∈ order ∧ batch !! a.1 = Some a.2.
Proof.
  intros (j & Hj & Ha)%list_elem_of_omap.
  destruct (batch !! j) as [feed|] eqn:Hfeed; [|done].
  injection Ha as <-. by split.
Qed.

(** An invariant of the collections that every single refresh keeps is
    kept by the whole loop. *)
Lemma refresh_loop_ind (P : refreshing → Prop) all env :
  (∀ i feed s, all !! i = Some feed → P s →
               P (refresh_done (length all) feed (env i) s)) →
  ∀ fuel i orders s s',
    P s → refresh_loop fuel all i env orders s = Some s' → P s'.
Proof.
  intros Hstep. induction fuel as [|fuel IH]; intros i orders s s' HP; cbn.
  - case_decide; [done|]. by intros [= <-].
  - case_decide; [|by intros [= <-]].
    destruct (refresh_batch _ _ _ _ _ _) as [s1|] eqn:Hbatch; [|done].
    cbn. apply IH.
    unfold refresh_batch in Hbatch.
    destruct (Promise_all _ _); [|done]. cbn in Hbatch.
    injection Hbatch as <-.
    assert (∀ arrivals : list (nat * RSSFeed.t),
      (∀ a, a ∈ arrivals → all !! (i + a.1) = Some a.2) →
      ∀ s0, P s0 →
        P (foldl (λ s a, refresh_done (length all) a.2 (env (i + a.1)) s)
             s0 arrivals)) as Hfold.
    { induction arrivals as [|a arrivals IHa]; intros Hall s0 Hs0; [done|].
      cbn [foldl]. apply IHa.
      - intros a' Ha'. apply Hall. apply elem_of_cons. by right.
      - apply Hstep; [|done]. apply Hall. apply elem_of_cons. by left. }
    apply Hfold; [|done].
    intros a [_ Ha]%arrivals_elem.
    apply lookup_take_Some in Ha as [Ha _].
    by rewrite lookup_drop in Ha.
Qed.

Lemma refreshAllFeeds_ind (P : refreshing → Prop) st env orders s :
  (∀ i feed s, feeds st !! i = Some feed → P s →
               P (refresh_done (length (feeds st)) feed (env i) s)) →
  (∀ s, P s → P (Refreshing (collections s) (completedCount s)
                   (refreshProgress s ++ [None]))) →
  (∀ log, P (Refreshing st 0 log)) →
  refreshAllFeeds st env orders = Some s → P s.
Proof.
  intros Hstep Hend Hstart. unfold refreshAllFeeds.
  case_decide; [by intros [= <-]|].
  destruct (refresh_loop _ _ _ _ _ _) as [s1|] eqn:Hloop; [|done].
  cbn. intros [= <-]. apply Hend.
  eapply refresh_loop_ind; [exact Hstep| |exact Hloop]. apply Hstart.
Qed.

(** X10. [refreshAllFeeds], whatever the order in which the refreshes
    complete, leaves ids, titles and URLs of the feeds as they are and
    keeps every entry attached to a subscribed feed. The entries of a
    feed whose refresh fails are kept as they were, and when every
    refresh fails the collections come out unchanged. *)
Theorem refresh_all_keeps_feeds_and_failed_entries st env orders s :
  refreshAllFeeds st env orders = Some s →
  RSSFeed.id <$> feeds (collections s) = RSSFeed.id <$> feeds st ∧
  RSSFeed.title <$> feeds (collections s) = RSSFeed.title <$> feeds st ∧
  RSSFeed.url <$> feeds (collections s) = RSSFeed.url <$> feeds st ∧
  (owned st → owned (collections s)) ∧
  (∀ feedId,
     (∀ i feed, feeds st !! i = Some feed → RSSFeed.id feed = feedId →
                ∃ message, settled_to (env i) = inl message) →
     entries_of feedId (items (collections s)) = entries_of feedId (items st)) ∧
  ((∀ i, i < length (feeds st) → ∃ message, settled_to (env i) = inl message) →
   collections s = st).
Proof.
  intros Hall. split_and!.
  - revert Hall.
    apply (refreshAllFeeds_ind
             (λ s, RSSFeed.id <$> feeds (collections s) = RSSFeed.id <$> feeds st));
      [|done..].
    intros i feed s1 _ <-. apply refreshFeed_feeds.
  - revert Hall.
    apply (refreshAllFeeds_ind
             (λ s, RSSFeed.title <$> feeds (collections s) = RSSFeed.title <$> feeds st));
      [|done..].
    intros i feed s1 _ <-. apply refreshFeed_feeds.
  - revert Hall.
    apply (refreshAllFeeds_ind
             (λ s, RSSFeed.url <$> feeds (collections s) = RSSFeed.url <$> feeds st));
      [|done..].
    intros i feed s1 _ <-. apply refreshFeed_feeds.
  - intros Ho. revert Hall.
    apply (refreshAllFeeds_ind (λ s, owned (collections s))); [|done..].
    intros i feed s1 _ Ho1. by apply refreshFeed_owned.
  - intros feedId Hfail. revert Hall.
    apply (refreshAllFeeds_ind
             (λ s, entries_of feedId (items (collections s))
                   = entries_of feedId (items st))); [|done..].
    intros i feed s1 Hfeed <-. unfold refresh_done. cbn [collections].
    destruct (decide (RSSFeed.id feed = feedId)) as [Hid|Hid].
    + destruct (Hfail i feed Hfeed Hid) as [message ->].
      by rewrite refreshFeed_failure.
    + apply refreshFeed_others. congruence.
  - intros Hfail. revert Hall.
    apply (refreshAllFeeds_ind (λ s, collections s = st)); [|done..].
    intros i feed s1 Hfeed Hs1. unfold refresh_done. cbn [collections].
    destruct (Hfail i) as [message ->]; [by eapply lookup_lt_Some|].
    by rewrite Hs1, refreshFeed_failure.
Qed.

Lemma head_drop_lookup {A} (l : list A) k : head (drop k l) = l !! k.
Proof.
  revert k. induction l as [|x l IH]; intros [|k]; cbn; try done.
Qed.

Lemma tail_drop_S {A} (l : list A) k : tail (drop k l) = drop (S k) l.
Proof.
  revert k. induction l as [|x l IH]; intros [|k]; cbn; try done.
Qed.

Lemma omap_total_length {A B} (f : A → option B) (l : list A) :
  (∀ x, x ∈ l → is_Some (f x)) → length (omap f l) = length l.
Proof.
  induction l as [|x l IH]; intros Hall; [done|].
  destruct (Hall x) as [y Hy]; [apply elem_of_cons; by left|].
  cbn. rewrite Hy. cbn. rewrite IH; [done|].
  intros x' Hx'. apply Hall. apply elem_of_cons. by right.
Qed.

(** What a run of callbacks does to the counter and to the progress
    shown. *)
Lemma refresh_done_counts total env i (arrivals : list (nat * RSSFeed.t)) s :
  let s' := foldl (λ s a, refresh_done total a.2 (env (i + a.1)) s) s arrivals in
  completedCount s' = completedCount s + length arrivals ∧
  refreshProgress s' =
    refreshProgress s
      ++ (Some <$> ((λ c, (c, total))
            <$> seq (S (completedCount s)) (length arrivals))).
Proof.
  cbn zeta. revert s. induction arrivals as [|a arrivals IH]; intros s.
  - cbn. by rewrite app_nil_r, Nat.add_0_r.
  - cbn [foldl length]. destruct (IH (refresh_done total a.2 (env (i + a.1)) s))
      as [-> ->].
    cbn [refresh_done completedCount refreshProgress].
    split; [lia|]. rewrite <- app_assoc. done.
Qed.

Lemma refresh_loop_complete all env orders fuel k s :
  (∀ k', CONCURRENT_REQUESTS * k' < length all →
     ∃ order, orders !! k' = Some order ∧
       order ≡ₚ seq 0 (CONCURRENT_REQUESTS
                        `min` (length all - CONCURRENT_REQUESTS * k'))) →
  length all - CONCURRENT_REQUESTS * k ≤ CONCURRENT_REQUESTS * fuel →
  ∃ s',
    refresh_loop fuel all (CONCURRENT_REQUESTS * k) env (drop k orders) s
      = Some s' ∧
    completedCount s'
      = completedCount s + (length all - CONCURRENT_REQUESTS * k) ∧
    refreshProgress s' =
      refreshProgress s
        ++ (Some <$> ((λ c, (c, length all))
              <$> seq (S (completedCount s))
                      (length all - CONCURRENT_REQUESTS * k))).
Proof.
  intros Horders. unfold CONCURRENT_REQUESTS in *.
  revert k s. induction fuel as [|fuel IH]; intros k s Hfuel.
  - cbn [refresh_loop]. rewrite decide_False by lia.
    exists s. replace (length all - 10 * k) with 0 by lia.
    cbn. by rewrite app_nil_r, Nat.add_0_r.
  - cbn [refresh_loop]. destruct (decide (10 * k < length all)) as [Hlt|Hge].
    2:{ exists s. replace (length all - 10 * k) with 0 by lia.
        cbn. by rewrite app_nil_r, Nat.add_0_r. }
    destruct (Horders k Hlt) as (order & Horder & Hperm).
    rewrite head_drop_lookup, Horder.
    change (default [] (Some order)) with order.
    set (batch := take CONCURRENT_REQUESTS (drop (10 * k) all)).
    assert (length batch = 10 `min` (length all - 10 * k)) as Hlen.
    { unfold batch, CONCURRENT_REQUESTS. by rewrite length_take, length_drop. }
    unfold refresh_batch. cbv zeta.
    pose proof (Promise_all_complete (λ feed : RSSFeed.t, feed) batch order)
      as Hall.
    rewrite Hlen in Hall. specialize (Hall Hperm). rewrite <- Hlen in Hall.
    cbn beta in Hall. rewrite Hall. cbn [mbind option_bind].
    set (arrivals := omap (λ j, (λ feed, (j, feed)) <$> batch !! j) order).
    assert (length arrivals = 10 `min` (length all - 10 * k)) as Harr.
    { unfold arrivals. rewrite omap_total_length.
      - by rewrite Hperm, length_seq.
      - intros j Hj. rewrite Hperm in Hj. apply elem_of_seq in Hj.
        apply fmap_is_Some, lookup_lt_is_Some. lia. }
    destruct (refresh_done_counts (length all) env (10 * k) arrivals s)
      as [Hcount Hlog]. cbv zeta in Hcount, Hlog.
    set (s1 := foldl _ s arrivals) in *.
    rewrite tail_drop_S.
    replace (10 * k + CONCURRENT_REQUESTS) with (10 * S k)
      by (unfold CONCURRENT_REQUESTS; lia).
    destruct (IH (S k) s1) as (s' & Hloop & Hcount' & Hlog'); [lia|].
    exists s'. split; [done|]. rewrite Hcount', Hlog', Hcount, Hlog, Harr.
    split; [lia|]. rewrite <- app_assoc. f_equal.
    rewrite <- !fmap_app. do 2 f_equal.
    replace (length all - 10 * k)
      with (10 `min` (length all - 10 * k) + (length all - 10 * S k)) at 3
      by lia.
    rewrite seq_app. do 2 f_equal.
Qed.

(** X11. [refreshAllFeeds] works through the feeds in batches of ten.
    Once the refreshes of each batch have completed, in any order, the
    call ends, having shown the progress 0, 1, ..., n of the n feeds and
    then cleared it; with no feed at all it shows nothing. *)
Theorem refresh_all_reports_every_feed st env orders :
  let n := length (feeds st) in
  (∀ k, CONCURRENT_REQUESTS * k < n →
     ∃ order, orders !! k = Some order ∧
       order ≡ₚ seq 0 (CONCURRENT_REQUESTS
                        `min` (n - CONCURRENT_REQUESTS * k))) →
  ∃ s,
    refreshAllFeeds st env orders = Some s ∧
    completedCount s = n ∧
    refreshProgress s =
      if decide (n = 0) then []
      else Some (0, n) :: (Some <$> ((λ c, (c, n)) <$> seq 1 n)) ++ [None].
Proof.
  cbn zeta. intros Horders. unfold refreshAllFeeds.
  destruct (decide (length (feeds st) = 0)) as [Hz|Hnz].
  - eexists. split; [done|]. by rewrite Hz.
  - destruct (refresh_loop_complete (feeds st) env orders (length (feeds st)) 0
                (Refreshing st 0 [Some (0, length (feeds st))]) Horders)
      as (s & Hloop & Hcount & Hlog).
    { unfold CONCURRENT_REQUESTS. lia. }
    rewrite Nat.mul_0_r, drop_0 in Hloop. rewrite Hloop. cbn [mbind option_bind].
    eexists. split; [done|]. cbn [completedCount refreshProgress].
    rewrite Hcount, Hlog. cbn [completedCount refreshProgress].
    rewrite Nat.mul_0_r, Nat.sub_0_r. split; [done|]. done.
Qed.

(** ** Adding and removing a feed *)


Section AddFeedFacts.
Context `{Platform}.

Lemma addFeed_commit st url r aborted st' :
  addFeed st url r aborted = (AddResolved true None, st') →
  ∃ parsed id t now,
    r = Parsed parsed id t now ∧ aborted = false ∧
    0 < length (ParsedFeed.items parsed) ∧
    (∃ protocol, URL_protocol url = Some protocol ∧
                 protocol ∈ ["http:"; "https:"]) ∧
    (trim url ∉ RSSFeed.url <$> feeds st) ∧
    st' = Store
      (RSSFeed.mk id (ParsedFeed.title parsed) url
                  (ParsedFeed.description parsed) (Some t) :: feeds st)
      (convertToRSSItems (ParsedFeed.items parsed) id now ++ items st).
Proof.
  unfold addFeed. intros Ha.
  destruct (URL_protocol url) as [protocol|] eqn:Hp; [|done].
  destruct (decide (protocol ∈ ["http:"; "https:"])) as [Hin|]; [|done].
  destruct (find _ (feeds st)) as [f|] eqn:Hfind; [done|].
  destruct r as [parsed id t now|message].
  2:{ by destruct (decide (message = cancelled)). }
  destruct aborted; [done|].
  destruct (decide (length (ParsedFeed.items parsed) = 0)) as [|Hlen]; [done|].
  exists parsed, id, t, now. split_and!; try done; [lia|eauto| |by simplify_eq].
  intros (f & Hu & Hf)%list_elem_of_fmap.
  apply list_elem_of_In in Hf.
  eapply find_none in Hfind; [|exact Hf]. cbn in Hfind.
  by rewrite bool_decide_true in Hfind.
Qed.

Lemma addFeed_failure st url r aborted result st' :
  addFeed st url r aborted = (result, st') →
  result ≠ AddResolved true None → st' = st.
Proof.
  unfold addFeed. intros Ha Hne.
  repeat (case_match; simplify_eq/=; try done).
Qed.

(** X12. [addFeed] either subscribes or leaves the collections alone.
    When it resolves to [true] it has put one feed, with the URL as
    given, in front of the feeds, and the entries of that feed, at
    least one and all of them unread and unstarred, in front of the
    entries; in every other case nothing has changed. Either way every
    entry belongs to a subscribed feed if that was so before. *)
Theorem add_feed_all_or_nothing st url r aborted :
  let result := (addFeed st url r aborted).1 in
  let st' := (addFeed st url r aborted).2 in
  (result ≠ AddResolved true None → st' = st) ∧
  (result = AddResolved true None →
   ∃ parsed id t now newItems,
     r = Parsed parsed id t now ∧
     feeds st' = RSSFeed.mk id (ParsedFeed.title parsed) url
                   (ParsedFeed.description parsed) (Some t) :: feeds st ∧
     items st' = newItems ++ items st ∧
     length newItems = length (ParsedFeed.items parsed) ∧
     0 < length newItems ∧
     Forall (λ i, RSSItem.feedId i = id ∧ RSSItem.isRead i = false ∧
                  RSSItem.isStarred i = false) newItems) ∧
  (owned st → owned st').
Proof.
  cbn zeta. destruct (addFeed st url r aborted) as [result st'] eqn:Ha.
  cbn [fst snd].
  assert (result = AddResolved true None →
    ∃ parsed id t now newItems,
     r = Parsed parsed id t now ∧
     feeds st' = RSSFeed.mk id (ParsedFeed.title parsed) url
                   (ParsedFeed.description parsed) (Some t) :: feeds st ∧
     items st' = newItems ++ items st ∧
     length newItems = length (ParsedFeed.items parsed) ∧
     0 < length newItems ∧
     Forall (λ i, RSSItem.feedId i = id ∧ RSSItem.isRead i = false ∧
                  RSSItem.isStarred i = false) newItems) as Hcommit.
  { intros ->.
    apply addFeed_commit in Ha
      as (parsed & id & t & now & -> & -> & Hlen & _ & _ & ->).
    exists parsed, id, t, now, (convertToRSSItems (ParsedFeed.items parsed) id now).
    rewrite convertToRSSItems_length.
    split_and!; try done. apply convertToRSSItems_fresh. }
  split_and!; [by eapply addFeed_failure|done|].
  intros Ho.
  assert (result = AddResolved true None ∨ result ≠ AddResolved true None)
    as [Hr|Hr] by (destruct result as [?|[|] [?|]]; auto).
  - destruct (Hcommit Hr) as (parsed & id & t & now & newItems & _ & Hf & Hi & _ & _ & Hfresh).
    destruct st' as [fs its]. cbn [feeds items] in *. subst fs its.
    apply (owned_publish st (RSSFeed.mk id _ url _ _) newItems); [|done].
    eapply Forall_impl; [exact Hfresh|]. by intros i (? & _).
  - by rewrite (addFeed_failure _ _ _ _ _ _ Ha Hr).
Qed.

(** X13. Once [addFeed] has subscribed to a URL, adding a text that
    trims to that URL is refused with a message saying that the feed
    exists, whatever the network would answer, and changes nothing. *)
Theorem resubscribing_is_refused st url r aborted st' again r' aborted' :
  addFeed st url r aborted = (AddResolved true None, st') →
  trim again = url →
  (∃ protocol, URL_protocol again = Some protocol ∧ protocol ∈ ["http:"; "https:"]) →
  addFeed st' again r' aborted' = (AddResolved false (Some "该订阅源已存在"), st').
Proof.
  intros (parsed & id & t & now & -> & -> & _ & _ & _ & ->)%addFeed_commit
         Htrim (protocol & Hp & Hin).
  unfold addFeed. rewrite Hp, decide_True by done.
  cbn [feeds find]. rewrite Htrim.
  rewrite bool_decide_true by done. done.
Qed.

(** X15. Removing the feed that [addFeed] has just added, under an id
    that no feed and no entry had before, gives back the collections as
    they were. *)
Theorem add_then_remove_restores st url parsed id t now st' selectedFeedId :
  addFeed st url (Parsed parsed id t now) false = (AddResolved true None, st') →
  id ∉ RSSFeed.id <$> feeds st →
  id ∉ RSSItem.feedId <$> items st →
  (removeFeed st' selectedFeedId id).1 = st.
Proof.
  intros (parsed' & id' & t' & now' & [= <- <- <- <-] & _ & Hlen & _ & _ & ->)
           %addFeed_commit Hf Hi.
  destruct st as [fs its]. unfold removeFeed. cbn [fst feeds items] in *.
  f_equal.
  - rewrite filter_cons_False by (cbn; intros ?; done).
    apply filter_all, Forall_forall. intros f Hin Heq.
    apply Hf, list_elem_of_fmap. eauto.
  - rewrite filter_app. rewrite filter_none, filter_all; [done| |].
    + apply Forall_forall. intros i Hin Heq.
      apply Hi, list_elem_of_fmap. eauto.
    + apply Forall_forall. intros i Hin Hne.
      apply Hne. by eapply convertToRSSItems_feedId.
Qed.

End AddFeedFacts.

(** ** Batch import: what one transition does *)

Lemma resume_effect w r b b' :
  resume w r b = Some b' →
  ∃ cur, workers b !! w = Some (Waiting cur) ∧ settle_effect cur r b b'.
Proof.
  unfold resume. destruct (workers b !! w) as [[cur|]|]; try done.
  intros Hres. exists cur. split; [done|].
  destruct r as [parsed id t now|message]; unfold try_block, catch_block in Hres.
  - destruct (aborted b) eqn:Hab.
    + rewrite decide_True in Hres by done. injection Hres as <-.
      destruct (iteration_end w b true) as (Hr & Hs & _). cbv zeta in Hr, Hs.
      apply SettleCancelled; [right; split; [by eauto|done]|done|done].
    + destruct (decide (length (ParsedFeed.items parsed) = 0)) as [Hz|Hnz];
        injection Hres as <-.
      * match goal with |- settle_effect _ _ _ (worker_loop w (finally_block ?b2)) =>
          destruct (iteration_end w b2 false) as (Hr & Hs & _) end.
        cbv zeta in Hr, Hs.
        apply (SettleFailed _ _ _ _ ": 该订阅源没有文章"); [by left|by rewrite Hs|].
        by rewrite Hr.
      * match goal with |- settle_effect _ _ _ (worker_loop w (finally_block ?b2)) =>
          destruct (iteration_end w b2 false) as (Hr & Hs & _) end.
        cbv zeta in Hr, Hs.
        eapply SettleCommitted; [done|done|lia|by rewrite Hs|by rewrite Hr].
  - destruct (decide (message = cancelled)) as [->|Hm]; injection Hres as <-.
    + destruct (iteration_end w b true) as (Hr & Hs & _). cbv zeta in Hr, Hs.
      apply SettleCancelled; [by left|done|done].
    + match goal with |- settle_effect _ _ _ (worker_loop w (finally_block ?b2)) =>
        destruct (iteration_end w b2 false) as (Hr & Hs & _) end.
      cbv zeta in Hr, Hs.
      apply (SettleFailed _ _ _ _ (": " +:+ message)); [right; eauto|by rewrite Hs|].
      by rewrite Hr.
Qed.

Section StepEffect.
Context `{Platform}.

Lemma step_effect b e b' :
  step b e = Some b' →
  match settles e, settled_by e with
  | Some w, Some r =>
      completed b' = S (completed b) ∧ aborted b' = aborted b ∧
      ∃ cur, workers b !! w = Some (Waiting cur) ∧ settle_effect cur r b b' ∧
        (r = Thrown cancelled → aborted b = true)
  | _, _ =>
      res b' = res b ∧ state b' = state b ∧ completed b' = completed b ∧
      (aborted b = true → aborted b' = true)
  end.
Proof.
  unfold step. destruct (returned b); [done|].
  destruct e as [w parsed id t now|w|w|w| |]; cbn [settles settled_by].
  - intros Hr. destruct (resume_counts _ _ _ _ Hr) as (? & ? & _).
    destruct (resume_effect _ _ _ _ Hr) as (cur & ? & ?).
    split_and!; [done|done|]. exists cur. by split_and!.
  - intros Hr. destruct (resume_counts _ _ _ _ Hr) as (? & ? & _).
    destruct (resume_effect _ _ _ _ Hr) as (cur & ? & ?).
    split_and!; [done|done|]. exists cur. by split_and!.
  - intros Hr. destruct (resume_counts _ _ _ _ Hr) as (? & ? & _).
    destruct (resume_effect _ _ _ _ Hr) as (cur & ? & ?).
    split_and!; [done|done|]. exists cur. by split_and!.
  - destruct (aborted b) eqn:Hab; [|done].
    intros Hr. destruct (resume_counts _ _ _ _ Hr) as (? & ? & _).
    destruct (resume_effect _ _ _ _ Hr) as (cur & ? & ?).
    split_and!; [done|congruence|]. exists cur. by split_and!.
  - by intros [= <-].
  - destruct (forallb is_finished (workers b)); [|done]. by intros [= <-].
Qed.

End StepEffect.

Lemma worker_loop_workers w b :
  length (workers (worker_loop w b)) = length (workers b) ∧
  (aborted b = true → calls (worker_loop w b) = calls b).
Proof.
  unfold worker_loop.
  destruct (decide (index b < length (newUrls b)));
    [|by cbn; rewrite length_insert].
  destruct (aborted b); [by cbn; rewrite length_insert|].
  destruct (newUrls b !! index b); cbn; by rewrite length_insert.
Qed.

Lemma resume_workers w r b b' :
  resume w r b = Some b' →
  length (workers b') = length (workers b) ∧
  (aborted b = true → calls b' = calls b).
Proof.
  intros (cur & b2 & break & _ & (_ & _ & _ & _ & Hab & Hw & Hcalls & _) & ->)%resume_shape.
  destruct (finally_block_frame b2) as (_ & _ & _ & _ & Hab3 & Hw3 & _ & Hc3 & _).
  cbv zeta in Hab3, Hw3, Hc3.
  destruct break.
  - cbn. rewrite length_insert. split; congruence.
  - destruct (worker_loop_workers w (finally_block b2)) as [Hl Hc].
    split; [congruence|]. intros Ha. rewrite Hc by congruence. congruence.
Qed.

Section BatchBounds.
Context `{Platform}.

Lemma step_workers b e b' :
  step b e = Some b' →
  length (workers b') = length (workers b) ∧
  (aborted b = true → calls b' = calls b).
Proof.
  unfold step. destruct (returned b); [done|].
  destruct e as [w parsed id t now|w|w|w| |]; try apply resume_workers.
  - destruct (aborted b) eqn:Hab; [|done].
    intros Hr. apply resume_workers in Hr as [? Hc]. split; [done|].
    intros _. by apply Hc.
  - by intros [= <-].
  - destruct (forallb is_finished (workers b)); [|done]. by intros [= <-].
Qed.

Lemma run_workers b es b' :
  run b es = Some b' →
  length (workers b') = length (workers b) ∧
  (aborted b = true → calls b' = calls b).
Proof.
  revert b. induction es as [|e es IH]; intros b; simpl.
  - by intros [= <-].
  - destruct (step b e) as [b1|] eqn:Hstep; [|done].
    intros Hrun. destruct (step_workers _ _ _ Hstep) as [Hl Hc].
    destruct (IH _ Hrun) as [Hl' Hc'].
    split; [congruence|]. intros Ha.
    destruct (step_after_abort _ _ _ Ha Hstep) as (Ha1 & _).
    rewrite Hc', Hc; done.
Qed.

Lemma waiting_le_length ws : waiting ws ≤ length ws.
Proof. unfold waiting. apply length_filter. Qed.

Lemma addFeedsBatch_workers st urls onP :
  length (workers (addFeedsBatch st urls onP))
    = MAX_CONCURRENT `min` length (newUrls (addFeedsBatch st urls onP)).
Proof.
  pose proof (addFeedsBatch_start st urls onP) as Hs.
  destruct (prefilter (feeds st) urls) as [r candidates]. rewrite Hs.
  destruct (decide (length candidates = 0)) as [Hz|Hz]; cbn [workers newUrls].
  - rewrite Hz. by rewrite Nat.min_0_r.
  - rewrite length_fmap, length_take. lia.
Qed.

Lemma run_completed b es b' :
  run b es = Some b' →
  completed b' = completed b + length (filter (λ e, resolver_settled e = true) es)
                 + length (filter (λ e, abandons e = true) es).
Proof.
  revert b. induction es as [|e es IH]; intros b; cbn [run].
  - intros [= <-]. cbn. lia.
  - destruct (step b e) as [b1|] eqn:Hstep; [|done].
    intros Hrun. rewrite (IH _ Hrun).
    pose proof (step_effect _ _ _ Hstep) as He.
    rewrite !filter_cons.
    destruct e as [w parsed id t now|w|w|w| |];
      cbn [settles settled_by resolver_settled abandons] in *;
      repeat (destruct (decide _) as [?|?]; try done);
      cbn [length]; try (destruct He as [-> _]; lia);
      destruct He as (_ & _ & -> & _); lia.
Qed.

(** X20. At every moment of a batch import there are as many workers
    as there are candidates, but at most ten, and each waits on one
    race at a time: at most ten races are pending, and the calls of
    [parseRSSFeed] made so far are those of the races settled and of
    the races pending. A race is settled by the resolver or, leaving the
    resolver's call running, by the timer or a cancel; the bound of ten
    is on the pending races, not on the resolver calls that have not
    ended. *)
Theorem at_most_ten_races_pending st urls onP es b :
  run (addFeedsBatch st urls onP) es = Some b →
  length (workers b) = 10 `min` length (newUrls b) ∧
  waiting (workers b) ≤ 10 ∧
  length (calls b) = completed b + waiting (workers b) ∧
  completed b = length (filter (λ e, resolver_settled e = true) es)
                + length (filter (λ e, abandons e = true) es).
Proof.
  intros Hrun.
  pose proof (reachable_inv _ _ _ _ _ Hrun) as Hinv.
  destruct (run_workers _ _ _ Hrun) as [Hlen _].
  destruct (run_config _ _ _ Hrun) as [Hnew _].
  rewrite addFeedsBatch_workers, <- Hnew in Hlen.
  change MAX_CONCURRENT with 10 in Hlen.
  pose proof (waiting_le_length (workers b)) as Hw.
  pose proof (run_completed _ _ _ Hrun) as Hdone.
  destruct (addFeedsBatch_fields st urls onP) as (_ & _ & _ & _ & _ & _ & Hz & _).
  cbv zeta in Hz. rewrite Hz in Hdone.
  destruct Hinv as [Hidx Hcomp _ _ _ _ Hcalls _ _].
  assert (length (calls b) = index b) as Hc.
  { rewrite Hcalls, length_take. unfold total in Hidx. lia. }
  split_and!; [done|lia|lia|lia].
Qed.

(** X21. Once the import is cancelled, nothing that happens afterwards
    publishes a feed or an entry, takes one back, counts a success,
    starts a fetch or reports progress. *)
Theorem nothing_published_after_cancel b es b' :
  aborted b = true →
  run b es = Some b' →
  state b' = state b ∧
  success (res b') = success (res b) ∧
  calls b' = calls b ∧
  progress b' = progress b ∧
  aborted b' = true.
Proof.
  intros Ha Hrun.
  destruct (run_after_abort _ _ _ Ha Hrun) as (? & ? & ? & ?).
  destruct (run_workers _ _ _ Hrun) as [_ Hc].
  split_and!; auto.
Qed.

End BatchBounds.

Section Accounting.
Context `{Platform}.

Lemma step_account f0 b e b' :
  account_inv f0 b → step b e = Some b' → account_inv f0 b'.
Proof.
  intros [He Hle Heq] Hstep.
  pose proof (step_effect _ _ _ Hstep) as Heff.
  destruct (settles e) as [w|] eqn:Hw, (settled_by e) as [r|] eqn:Hr.
  - destruct Heff as (Hc & Hab & cur & _ & Heff & Hcan).
    destruct Heff as [Hwhy Hres _|parsed id t now _ Hab0 _ _ Hres|message _ _ Hres].
    + constructor; rewrite ?Hres, ?Hc; [done|lia|].
      rewrite Hab. intros Hfalse.
      destruct Hwhy as [->|[_ Htrue]]; [|congruence].
      rewrite Hcan in Hfalse by done. done.
    + constructor; rewrite ?Hres, ?Hc, ?Hab; cbn; [done|lia|].
      intros Hf. specialize (Heq Hf). lia.
    + constructor; rewrite ?Hres, ?Hc, ?Hab; unfold fail_with; cbn;
        [rewrite length_app; cbn; lia|lia|].
      intros Hf. specialize (Heq Hf). lia.
  - destruct e; done.
  - destruct e; done.
  - destruct Heff as (Hres & _ & Hc & Hab).
    constructor; rewrite ?Hres, ?Hc; [done|done|].
    intros Hf. apply Heq. destruct (aborted b); [|done].
    rewrite Hab in Hf; done.
Qed.

Lemma run_account f0 b es b' :
  account_inv f0 b → run b es = Some b' → account_inv f0 b'.
Proof.
  revert b. induction es as [|e es IH]; intros b Hinv; simpl.
  - by intros [= <-].
  - destruct (step b e) as [b1|] eqn:Hstep; [|done].
    apply IH. by eapply step_account.
Qed.

Lemma prefilter_partition (feeds : list RSSFeed.t) (urls : list string) :
  length (filter (λ u, acceptable u = false) urls)
  + length (filter (λ u, acceptable u = true ∧ subscribed feeds u = true) urls)
  + length (filter (λ u, acceptable u = true ∧ subscribed feeds u = false) urls)
  = length urls.
Proof.
  induction urls as [|u urls IH]; [done|].
  destruct (acceptable u) eqn:Ha, (subscribed feeds u) eqn:Hs.
  - rewrite (filter_cons_False (λ u, acceptable u = false)) by congruence.
    rewrite (filter_cons_True (λ u, _ ∧ subscribed feeds u = true)) by done.
    rewrite (filter_cons_False (λ u, _ ∧ subscribed feeds u = false))
      by (intros [_ ?]; congruence).
    cbn [length]. lia.
  - rewrite (filter_cons_False (λ u, acceptable u = false)) by congruence.
    rewrite (filter_cons_False (λ u, _ ∧ subscribed feeds u = true))
      by (intros [_ ?]; congruence).
    rewrite (filter_cons_True (λ u, _ ∧ subscribed feeds u = false)) by done.
    cbn [length]. lia.
  - rewrite (filter_cons_True (λ u, acceptable u = false)) by done.
    rewrite (filter_cons_False (λ u, _ ∧ subscribed feeds u = true))
      by (intros [? _]; congruence).
    rewrite (filter_cons_False (λ u, _ ∧ subscribed feeds u = false))
      by (intros [? _]; congruence).
    cbn [length]. lia.
  - rewrite (filter_cons_True (λ u, acceptable u = false)) by done.
    rewrite (filter_cons_False (λ u, _ ∧ subscribed feeds u = true))
      by (intros [? _]; congruence).
    rewrite (filter_cons_False (λ u, _ ∧ subscribed feeds u = false))
      by (intros [? _]; congruence).
    cbn [length]. lia.
Qed.

(** X22. The counters of a batch import add up: there is one error
    string for each failure, success, failed and skipped together never
    exceed the number of URLs given, and when the call returns without
    having been cancelled they account for every one of them. *)
Theorem results_account_for_every_url st urls onP es b :
  run (addFeedsBatch st urls onP) es = Some b →
  length (errors (res b)) = failed (res b) ∧
  success (res b) + failed (res b) + skipped (res b) ≤ length urls ∧
  (is_Some (returned b) → aborted b = false →
   success (res b) + failed (res b) + skipped (res b) = length urls).
Proof.
  intros Hrun.
  pose proof (reachable_inv _ _ _ _ _ Hrun) as Hinv.
  destruct (addFeedsBatch_fields st urls onP)
    as (Hres & Hnew & _ & _ & _ & Hab0 & Hc0 & _).
  cbv zeta in Hres, Hnew, Hab0, Hc0.
  rewrite prefilter_spec in Hres, Hnew. cbn [fst snd] in Hres, Hnew.
  set (f0 := length (filter (λ u, acceptable u = false) urls)) in *.
  assert (account_inv f0 (addFeedsBatch st urls onP)) as Hacc0.
  { constructor; rewrite Hres, ?Hc0; cbn; [by rewrite length_fmap|lia|lia]. }
  destruct (run_account _ _ _ _ Hacc0 Hrun) as [He Hle Heq].
  destruct (run_outcome _ _ _ _ _ (addFeedsBatch_outcome st urls onP) Hrun)
    as [_ _ _ _ _ _ _ Hsk _ _ _ _].
  rewrite Hres in Hsk. cbn [skipped] in Hsk.
  destruct (run_config _ _ _ Hrun) as [Hcfg _].
  pose proof (prefilter_partition (feeds st) urls) as Hpart.
  assert (total b = length (filter (λ u, acceptable u = true
                     ∧ subscribed (feeds st) u = false) urls)) as Htot.
  { unfold total. rewrite Hcfg, Hnew. by rewrite length_fmap. }
  pose proof (inv_index _ Hinv) as Hidx.
  pose proof (inv_completed _ Hinv) as Hcomp.
  split_and!; [done|fold f0 in Hpart; lia|].
  intros Hret Hab.
  destruct (uninterrupted_return _ Hinv Hret Hab) as [_ Hdone].
  specialize (Heq Hab). fold f0 in Hpart. lia.
Qed.

End Accounting.

Section Published.
Context `{Platform}.

Lemma step_published st0 b e b' :
  published_inv st0 b → step b e = Some b' → published_inv st0 b'.
Proof.
  intros [newFeeds newItems Hf Hi Hlen Hnonempty Hfresh] Hstep.
  pose proof (step_effect _ _ _ Hstep) as Heff.
  destruct (settles e) as [w|] eqn:Hw, (settled_by e) as [r|] eqn:Hr.
  - destruct Heff as (_ & _ & cur & _ & Heff & _).
    destruct Heff as [_ Hres Hst|parsed id t now _ _ Hpos Hst Hres|message _ Hst Hres].
    + apply (PublishedInv _ _ newFeeds newItems); rewrite ?Hst, ?Hres; done.
    + set (conv := convertToRSSItems (ParsedFeed.items parsed) id now) in *.
      apply (PublishedInv _ _
               (RSSFeed.mk id (ParsedFeed.title parsed) cur
                  (ParsedFeed.description parsed) (Some t) :: newFeeds)
               (conv ++ newItems)); rewrite ?Hst, ?Hres; cbn [feeds items].
      * by rewrite Hf.
      * by rewrite Hi, app_assoc.
      * cbn. by rewrite Hlen.
      * apply Forall_cons. split.
        -- cbn [RSSFeed.id]. rewrite entries_of_app, length_app.
           unfold conv. rewrite entries_of_converted, convertToRSSItems_length.
           lia.
        -- eapply Forall_impl; [exact Hnonempty|]. cbn. intros f Hpos'.
           rewrite entries_of_app, length_app. lia.
      * apply Forall_app. split.
        -- eapply Forall_impl; [apply convertToRSSItems_fresh|].
           cbn. intros i (-> & ? & ?). split_and!; [|done|done].
           apply elem_of_cons. by left.
        -- eapply Forall_impl; [exact Hfresh|].
           cbn. intros i (? & ? & ?). split_and!; [|done|done].
           apply elem_of_cons. by right.
    + apply (PublishedInv _ _ newFeeds newItems); rewrite ?Hst, ?Hres; done.
  - destruct e; done.
  - destruct e; done.
  - destruct Heff as (Hres & Hst & _).
    apply (PublishedInv _ _ newFeeds newItems); rewrite ?Hst, ?Hres; done.
Qed.

Lemma run_published st0 b es b' :
  published_inv st0 b → run b es = Some b' → published_inv st0 b'.
Proof.
  revert b. induction es as [|e es IH]; intros b Hinv; simpl.
  - by intros [= <-].
  - destruct (step b e) as [b1|] eqn:Hstep; [|done].
    apply IH. by eapply step_published.
Qed.

(** X23. A batch import only adds, and adds whole feeds: the feeds and
    entries it found stay behind the new ones, the number of new feeds
    is the success count, every new feed has at least one entry, every
    new entry belongs to a new feed and is unread and unstarred. If
    every entry belonged to a subscribed feed before, that is still
    so. *)
Theorem batch_publishes_whole_feeds st urls onP es b :
  run (addFeedsBatch st urls onP) es = Some b →
  ∃ newFeeds newItems,
    feeds (state b) = newFeeds ++ feeds st ∧
    items (state b) = newItems ++ items st ∧
    length newFeeds = success (res b) ∧
    Forall (λ f, 0 < length (entries_of (RSSFeed.id f) newItems)) newFeeds ∧
    Forall (λ i, RSSItem.feedId i ∈ RSSFeed.id <$> newFeeds ∧
                 RSSItem.isRead i = false ∧ RSSItem.isStarred i = false)
           newItems ∧
    (owned st → owned (state b)).
Proof.
  intros Hrun.
  destruct (addFeedsBatch_fields st urls onP)
    as (Hres & _ & _ & Hst & _).
  cbv zeta in Hres, Hst.
  rewrite prefilter_spec in Hres. cbn [fst] in Hres.
  assert (published_inv st (addFeedsBatch st urls onP)) as H0.
  { apply (PublishedInv _ _ [] []); rewrite ?Hst, ?Hres; done. }
  destruct (run_published _ _ _ _ H0 Hrun)
    as [newFeeds newItems Hf Hi Hlen Hnonempty Hfresh].
  exists newFeeds, newItems. split_and!; try done.
  unfold owned. rewrite Hf, Hi. intros Ho.
  apply Forall_app. split.
  - eapply Forall_impl; [exact Hfresh|]. cbn. intros i (Hin & _).
    rewrite fmap_app. apply elem_of_app. by left.
  - eapply Forall_impl; [exact Ho|]. cbn. intros i Hin.
    rewrite fmap_app. apply elem_of_app. by right.
Qed.

End Published.

Section BatchEdges.
Context `{Platform}.

(** X24. When no URL of the list is a candidate (each one is
    unacceptable or already subscribed; the empty list is a case of
    it), [addFeedsBatch] returns at once with what the pre-filter
    counted: nothing is fetched, no progress is reported, the
    collections are untouched and nothing can happen afterwards. *)
Theorem no_candidate_no_work st urls onP :
  Forall (λ u, acceptable u = false ∨ subscribed (feeds st) u = true) urls →
  let b := addFeedsBatch st urls onP in
  returned b = Some (res b) ∧
  success (res b) = 0 ∧
  failed (res b) + skipped (res b) = length urls ∧
  calls b = [] ∧ progress b = [] ∧ state b = st ∧
  (∀ e, step b e = None).
Proof.
  intros Hall. cbn zeta.
  pose proof (addFeedsBatch_start st urls onP) as Hs.
  pose proof (prefilter_partition (feeds st) urls) as Hpart.
  rewrite prefilter_spec in Hs.
  assert (filter (λ u, acceptable u = true ∧ subscribed (feeds st) u = false)
            urls = []) as Hnone.
  { apply filter_none. eapply Forall_impl; [exact Hall|].
    cbn. intros u [Hu|Hu] [? ?]; congruence. }
  rewrite Hnone in Hs, Hpart. cbn [fmap list_fmap length] in Hs, Hpart.
  rewrite decide_True in Hs by done. rewrite Hs.
  cbn [returned res success failed skipped calls progress state].
  split_and!; try done. lia.
Qed.

(** X14. For a URL that is trimmed, acceptable and not subscribed,
    [addFeed] and [addFeedsBatch] with that one URL publish the same
    collections when the resolver returns the same feed; the batch
    returns one success and reports the progress 1 of 1. *)
Theorem single_add_agrees_with_batch_of_one st url parsed id t now onP :
  trim url = url →
  acceptable url = true →
  subscribed (feeds st) url = false →
  0 < length (ParsedFeed.items parsed) →
  ∃ b,
    run (addFeedsBatch st [url] onP) [Fulfilled 0 parsed id t now; Return]
      = Some b ∧
    returned b = Some (Results 1 0 0 []) ∧
    progress b = (if onP then [(1, 1)] else []) ∧
    addFeed st url (Parsed parsed id t now) false
      = (AddResolved true None, state b).
Proof.
  intros Htrim Hacc Hsub Hpos.
  pose proof (addFeedsBatch_start st [url] onP) as Hs.
  rewrite prefilter_spec in Hs.
  rewrite (filter_all (λ u, acceptable u = true
                            ∧ subscribed (feeds st) u = false)) in Hs
    by (apply Forall_cons; split; [by split|by apply Forall_nil]).
  rewrite (filter_none (λ u, acceptable u = false)) in Hs
    by (apply Forall_cons; split; [congruence|by apply Forall_nil]).
  rewrite (filter_none (λ u, acceptable u = true
                             ∧ subscribed (feeds st) u = true)) in Hs
    by (apply Forall_cons; split; [intros [_ ?]; congruence|by apply Forall_nil]).
  cbn in Hs. rewrite Htrim in Hs. rewrite Hs. clear Hs.
  assert (length (ParsedFeed.items parsed) ≠ 0) as Hnz by lia.
  unfold addFeed, acceptable, subscribed in *. rewrite Htrim in *.
  destruct (URL_protocol url) as [protocol|]; [|done].
  apply bool_decide_eq_true in Hacc. rewrite (decide_True _ _ Hacc).
  apply bool_decide_eq_false in Hsub.
  assert (find (λ f, bool_decide (RSSFeed.url f = url)) (feeds st) = None) as ->.
  { apply find_nowhere. intros f Hf. apply bool_decide_eq_false.
    intros Hu. apply Hsub, list_elem_of_fmap. eauto. }
  rewrite (decide_False _ _ Hnz).
  rewrite (decide_False (P := 1 = 0)) by done.
  cbn. unfold resume, try_block, finally_block, worker_loop. cbn.
  rewrite (decide_False _ _ Hnz). cbn.
  destruct onP; cbn; eexists; split_and!; reflexivity.
Qed.

End BatchEdges.

(** ** The endpoint configuration *)

Lemma string_length_app (a b : string) :
  String.length (a +:+ b) = String.length a + String.length b.
Proof.
  induction a as [|c a IH]; [done|].
  change (S (String.length (a +:+ b)) = S (String.length a + String.length b)).
  by rewrite IH.
Qed.

Lemma substring_all (s : string) : String.substring 0 (String.length s) s = s.
Proof. induction s as [|c s IH]; [done|]. cbn. by rewrite IH. Qed.

Lemma substring_append_r (a b : string) :
  String.substring (String.length a) (String.length b) (a +:+ b) = b.
Proof.
  induction a as [|c a IH]; [apply substring_all|].
  change (String.substring (String.length a) (String.length b) (a +:+ b) = b).
  exact IH.
Qed.

Lemma substring_append_l (a : string) (c : ascii) :
  String.substring 0 (String.length a) (a +:+ String c "") = a.
Proof.
  induction a as [|d a IH]; [done|].
  change (String d (String.substring 0 (String.length a) (a +:+ String c ""))
          = String d a).
  by rewrite IH.
Qed.

Lemma substring_split (s : string) (k : nat) :
  k ≤ String.length s →
  s = String.substring 0 k s
        +:+ String.substring k (String.length s - k) s.
Proof.
  revert k. induction s as [|c s IH]; intros [|k] Hk; cbn in Hk.
  - done.
  - lia.
  - change (String c s = String.substring 0 (String.length (String c s))
                           (String c s)).
    by rewrite substring_all.
  - change (String c s
            = String c (String.substring 0 k s
                          +:+ String.substring k (String.length s - k) s)).
    rewrite <- IH by lia. done.
Qed.

Lemma endsWith_append (s p : string) : JsString.endsWith (s +:+ p) p = true.
Proof.
  unfold JsString.endsWith. cbv zeta. rewrite string_length_app.
  replace (String.length s + String.length p - String.length p)
    with (String.length s) by lia.
  rewrite substring_append_r, String.eqb_refl.
  apply andb_true_intro. split; [|done]. apply Nat.leb_le. lia.
Qed.

Lemma endsWith_inv (s p : string) :
  JsString.endsWith s p = true → ∃ x, s = x +:+ p.
Proof.
  unfold JsString.endsWith. cbv zeta.
  intros [Hle Heq]%andb_prop.
  apply Nat.leb_le in Hle. apply String.eqb_eq in Heq.
  exists (String.substring 0 (String.length s - String.length p) s).
  pose proof (substring_split s (String.length s - String.length p)) as Hsplit.
  replace (String.length s - (String.length s - String.length p))
    with (String.length p) in Hsplit by lia.
  rewrite Heq in Hsplit. apply Hsplit. lia.
Qed.

Lemma startsWith_inv (s p : string) :
  JsString.startsWith s p = true → ∃ x, s = p +:+ x.
Proof.
  unfold JsString.startsWith. revert s.
  induction p as [|c p IH]; intros s Hp.
  - by exists s.
  - destruct s as [|d s]; [done|]. cbn in Hp.
    destruct (ascii_dec c d) as [->|]; [|done].
    destruct (IH s Hp) as [x ->]. by exists x.
Qed.

Lemma startsWith_append (p x : string) : JsString.startsWith (p +:+ x) p = true.
Proof.
  unfold JsString.startsWith. induction p as [|c p IH]; [by destruct x|].
  change (String.prefix (String c p) (String c (p +:+ x)) = true).
  cbn. destruct (ascii_dec c c); [exact IH|done].
Qed.

Lemma startsWith_append_r (s p x : string) :
  JsString.startsWith s p = true → JsString.startsWith (s +:+ x) p = true.
Proof.
  intros [y ->]%startsWith_inv. rewrite string_app_assoc. apply startsWith_append.
Qed.

Lemma slice_last_append (x : string) (c : ascii) :
  JsString.slice_last (x +:+ String c "") = x.
Proof.
  unfold JsString.slice_last. rewrite string_length_app. cbn [String.length].
  replace (String.length x + 1 - 1) with (String.length x) by lia.
  apply substring_append_l.
Qed.

(** The last character decides whether a string ends with a given
    one-character suffix. *)
Lemma endsWith_last (x p : string) (c d : ascii) :
  JsString.endsWith (x +:+ p +:+ String c "") (String d "") = true → c = d.
Proof.
  intros [y Hy]%endsWith_inv.
  rewrite <- string_app_assoc in Hy.
  apply (f_equal String.rev) in Hy. rewrite !string_rev_append in Hy.
  by injection Hy.
Qed.

(** A string that starts with [http] and ends with a slash still starts
    with [http] without the slash. *)
Lemma startsWith_http_slice (s : string) :
  JsString.startsWith s "http" = true →
  JsString.endsWith s "/" = true →
  JsString.startsWith (JsString.slice_last s) "http" = true.
Proof.
  intros Hs [x ->]%endsWith_inv. apply startsWith_inv in Hs as [y Hy].
  change "/" with (String "/" "") in *.
  rewrite slice_last_append.
  destruct x as [|c1 [|c2 [|c3 [|c4 x]]]];
    cbv [String.append] in Hy; try done.
  injection Hy as -> -> -> -> _. apply (startsWith_append "http" x).
Qed.

Section TranslationFacts.
Context `{Platform}.

(** X25. Whatever is stored as the API URL, [getAIConfig] yields a URL
    that starts with [http] and ends with [/chat/completions], and a
    model name that is not empty; without a stored configuration it
    yields the defaults, and a stored URL that is complete in that
    sense is used as it is, trimmed. *)
Theorem endpoint_is_normalised customConfig envKey :
  let c := getAIConfig customConfig envKey in
  JsString.startsWith (Endpoint.apiUrl c) "http" = true ∧
  JsString.endsWith (Endpoint.apiUrl c) "/chat/completions" = true ∧
  Endpoint.model c ≠ "" ∧
  (customConfig = None →
   c = Endpoint.mk DEFAULT_API_URL (Js.or_else envKey "") DEFAULT_MODEL) ∧
  (∀ config url,
     customConfig = Some config → AIConfig.apiUrl config = Some url →
     JsString.startsWith (trim url) "http" = true →
     JsString.endsWith (trim url) "/chat/completions" = true →
     Endpoint.apiUrl c = trim url).
Proof.
  cbn zeta. unfold getAIConfig. cbv zeta. cbn [Endpoint.apiUrl Endpoint.model].
  set (u0 := Js.or_else (trim <$> customConfig ≫= AIConfig.apiUrl)
                        DEFAULT_API_URL).
  assert (u0 ≠ "") as Hu0 by (by apply or_else_nonempty).
  set (u1 := if negb (bool_decide (u0 = "")) && negb (JsString.startsWith u0 "http")
             then "https://" +:+ u0 else u0).
  assert (JsString.startsWith u1 "http" = true) as Hu1.
  { unfold u1. rewrite bool_decide_false by done. cbn [negb andb].
    destruct (JsString.startsWith u0 "http") eqn:Hs; [done|]. cbn [negb].
    apply (startsWith_append "http" ("s://" +:+ u0)). }
  set (u2 := if JsString.endsWith u1 "/" then JsString.slice_last u1 else u1).
  assert (JsString.startsWith u2 "http" = true) as Hu2.
  { unfold u2. destruct (JsString.endsWith u1 "/") eqn:He; [|done].
    by apply startsWith_http_slice. }
  split_and!.
  - destruct (negb (JsString.endsWith u2 "/chat/completions")); [|done].
    by apply startsWith_append_r.
  - destruct (JsString.endsWith u2 "/chat/completions") eqn:He; [done|].
    cbn [negb]. rewrite <- string_app_assoc. apply endsWith_append.
  - by apply or_else_nonempty.
  - intros ->. done.
  - intros config url -> Hurl Hs He. subst u2 u1 u0.
    cbn [mbind option_bind]. rewrite Hurl. cbn [fmap option_fmap option_map].
    assert (trim url ≠ "") as Hne.
    { intros Heq. by rewrite Heq in Hs. }
    unfold Js.or_else. rewrite decide_False by done.
    rewrite bool_decide_false, Hs by done. cbn [negb andb].
    assert (JsString.endsWith (trim url) "/" = false) as ->.
    { destruct (JsString.endsWith (trim url) "/") eqn:Hslash; [|done].
      apply endsWith_inv in He as [x Hx]. rewrite Hx in Hslash.
      change "/chat/completions"
        with ("/chat/completion" +:+ String "s" "") in Hslash.
      by apply endsWith_last in Hslash. }
    by rewrite He.
Qed.

End TranslationFacts.

(** ** Escaping *)

Lemma replace_all_append c r (a b : string) :
  replace_all c r (a +:+ b) = replace_all c r a +:+ replace_all c r b.
Proof.
  induction a as [|x a IH]; [done|].
  change (replace_all c r (String x (a +:+ b))
          = replace_all c r (String x a) +:+ replace_all c r b).
  cbn [replace_all]. rewrite IH. destruct (Ascii.eqb x c).
  - by rewrite string_app_assoc.
  - done.
Qed.

Lemma mentions_append c (a b : string) :
  mentions c (a +:+ b) = mentions c a || mentions c b.
Proof.
  induction a as [|x a IH]; [done|].
  change (Ascii.eqb x c || mentions c (a +:+ b)
          = Ascii.eqb x c || mentions c a || mentions c b).
  rewrite IH. by destruct (Ascii.eqb x c).
Qed.

(** The five replacements amount to one pass over the string. *)
Lemma escapeXml_cons (x : ascii) (s : string) :
  escapeXml (String x s) = escape_char x +:+ escapeXml s.
Proof.
  unfold escapeXml, escape_char. cbn [replace_all].
  destruct (Ascii.eqb x "&") eqn:H1.
  { rewrite !replace_all_append. done. }
  cbn [replace_all]. destruct (Ascii.eqb x "<") eqn:H2.
  { rewrite !replace_all_append. done. }
  cbn [replace_all]. destruct (Ascii.eqb x ">") eqn:H3.
  { rewrite !replace_all_append. done. }
  cbn [replace_all]. destruct (Ascii.eqb x double_quote) eqn:H4.
  { rewrite !replace_all_append. done. }
  cbn [replace_all]. destruct (Ascii.eqb x "'") eqn:H5.
  { done. }
  done.
Qed.

Lemma escape_char_cases (x : ascii) :
  (x = "&"%char ∧ escape_char x = "&amp;") ∨
  (x = "<"%char ∧ escape_char x = "&lt;") ∨
  (x = ">"%char ∧ escape_char x = "&gt;") ∨
  (x = double_quote ∧ escape_char x = "&quot;") ∨
  (x = "'"%char ∧ escape_char x = "&apos;") ∨
  (x ≠ "&"%char ∧ x ≠ "<"%char ∧ x ≠ ">"%char ∧ x ≠ double_quote ∧ x ≠ "'"%char ∧
   escape_char x = String x "").
Proof.
  unfold escape_char.
  destruct (Ascii.eqb_spec x "&"); [by left|right].
  destruct (Ascii.eqb_spec x "<"); [by left|right].
  destruct (Ascii.eqb_spec x ">"); [by left|right].
  destruct (Ascii.eqb_spec x double_quote); [by left|right].
  destruct (Ascii.eqb_spec x "'"); [by left|right].
  done.
Qed.

(** X26. The text [escapeXml] returns contains none of the characters
    [<], [>], the double quote and the apostrophe; different texts are
    escaped to different texts; and a text without any of the five
    special characters is returned as it is. *)
Theorem escaping_is_safe_and_lossless (s1 s2 : string) :
  mentions "<" (escapeXml s1) = false ∧
  mentions ">" (escapeXml s1) = false ∧
  mentions double_quote (escapeXml s1) = false ∧
  mentions "'" (escapeXml s1) = false ∧
  (escapeXml s1 = escapeXml s2 → s1 = s2) ∧
  (mentions "&" s1 = false → mentions "<" s1 = false →
   mentions ">" s1 = false → mentions double_quote s1 = false →
   mentions "'" s1 = false → escapeXml s1 = s1).
Proof.
  assert (∀ c, c ∈ ["<"; ">"; double_quote; "'"]%char →
               mentions c (escapeXml s1) = false) as Hsafe.
  { intros c Hc. induction s1 as [|x s IH]; [done|].
    rewrite escapeXml_cons, mentions_append, IH, orb_false_r.
    destruct (escape_char_cases x)
      as [[-> ->]|[[-> ->]|[[-> ->]|[[-> ->]|[[-> ->]|(?&?&?&?&?& ->)]]]]];
      repeat (apply elem_of_cons in Hc as [->|Hc]; [try done|]);
      try (by apply elem_of_nil in Hc);
      cbn; rewrite orb_false_r; by apply Ascii.eqb_neq. }
  split_and!; try (apply Hsafe; repeat constructor).
  - clear Hsafe. revert s2. induction s1 as [|x1 s1 IH]; intros [|x2 s2].
    + done.
    + rewrite escapeXml_cons.
      destruct (escape_char_cases x2)
        as [[-> ->]|[[-> ->]|[[-> ->]|[[-> ->]|[[-> ->]|(?&?&?&?&?& ->)]]]]];
        done.
    + rewrite escapeXml_cons.
      destruct (escape_char_cases x1)
        as [[-> ->]|[[-> ->]|[[-> ->]|[[-> ->]|[[-> ->]|(?&?&?&?&?& ->)]]]]];
        done.
    + rewrite !escapeXml_cons.
      destruct (escape_char_cases x1)
        as [[-> ->]|[[-> ->]|[[-> ->]|[[-> ->]|[[-> ->]|(?&?&?&?&?& ->)]]]]];
      destruct (escape_char_cases x2)
        as [[-> ->]|[[-> ->]|[[-> ->]|[[-> ->]|[[-> ->]|(?&?&?&?&?& ->)]]]]];
        cbv [String.append]; intros Heq; simplify_eq; try done;
        f_equal; by apply IH.
  - clear Hsafe. induction s1 as [|x s IH]; [done|]. cbn [mentions].
    intros [H1 H1']%orb_false_elim [H2 H2']%orb_false_elim
           [H3 H3']%orb_false_elim [H4 H4']%orb_false_elim
           [H5 H5']%orb_false_elim.
    rewrite escapeXml_cons, IH by done.
    unfold escape_char. by rewrite H1, H2, H3, H4, H5.
Qed.

(** ** The further properties on the worked examples *)

Section MoreRuns.
Local Existing Instance Demo.platform.
Import BatchExamples MoreExamples.

(** A feed is added to the collection of one feed under the id [id-1]
    and removed again while it is selected: the collection is the one of
    before and nothing is selected. *)
Lemma add_then_remove_restores_witness :
  addFeed one_feed "http://new.example/feed"
    (Parsed Demo.sample_feed "id-1" 1000 (Examples.clock 1000)) false
    = (AddResolved true None, with_new_feed) ∧
  ("id-1" ∉ RSSFeed.id <$> feeds one_feed) ∧
  ("id-1" ∉ RSSItem.feedId <$> items one_feed) ∧
  RSSFeed.id <$> feeds with_new_feed = ["id-1"; "old"] ∧
  (removeFeed with_new_feed (Some "id-1") "id-1") = (one_feed, None).
Proof.
  assert (addFeed one_feed "http://new.example/feed"
            (Parsed Demo.sample_feed "id-1" 1000 (Examples.clock 1000)) false
          = (AddResolved true None, with_new_feed)) as Hadd by reflexivity.
  assert ("id-1" ∉ RSSFeed.id <$> feeds one_feed) as Hfeeds.
  { intros [Heq|Hin]%elem_of_cons; [discriminate|by apply elem_of_nil in Hin]. }
  assert ("id-1" ∉ RSSItem.feedId <$> items one_feed) as Hitems.
  { intros Hin. by apply elem_of_nil in Hin. }
  split_and!; [exact Hadd|exact Hfeeds|exact Hitems|reflexivity|].
  pose proof (add_then_remove_restores one_feed "http://new.example/feed"
                Demo.sample_feed "id-1" 1000 (Examples.clock 1000)
                with_new_feed (Some "id-1") Hadd Hfeeds Hitems) as Hback.
  unfold removeFeed in *. cbn [fst] in Hback. rewrite Hback. reflexivity.
Defined.

(** After the feed has been added, the same URL typed with a blank
    after it is refused. *)
Lemma resubscribing_is_refused_witness :
  addFeed one_feed "http://new.example/feed"
    (Parsed Demo.sample_feed "id-1" 1000 (Examples.clock 1000)) false
    = (AddResolved true None, with_new_feed) ∧
  trim "http://new.example/feed " = "http://new.example/feed" ∧
  URL_protocol "http://new.example/feed " = Some "http:" ∧
  addFeed with_new_feed "http://new.example/feed "
    (Parsed Demo.sample_feed "id-2" 2000 (Examples.clock 2000)) false
    = (AddResolved false (Some "该订阅源已存在"), with_new_feed).
Proof.
  assert (addFeed one_feed "http://new.example/feed"
            (Parsed Demo.sample_feed "id-1" 1000 (Examples.clock 1000)) false
          = (AddResolved true None, with_new_feed)) as Hadd by reflexivity.
  assert (trim "http://new.example/feed " = "http://new.example/feed")
    as Htrim by reflexivity.
  assert (∃ protocol, URL_protocol "http://new.example/feed " = Some protocol
                      ∧ protocol ∈ ["http:"; "https:"]) as Hvalid.
  { exists "http:". split; [reflexivity|]. apply elem_of_cons. by left. }
  split_and!; [exact Hadd|exact Htrim|reflexivity|].
  exact (resubscribing_is_refused one_feed "http://new.example/feed"
           (Parsed Demo.sample_feed "id-1" 1000 (Examples.clock 1000)) false
           with_new_feed "http://new.example/feed "
           (Parsed Demo.sample_feed "id-2" 2000 (Examples.clock 2000)) false
           Hadd Htrim Hvalid).
Defined.

(** The new feed added through a batch of one URL: the collections are
    those [addFeed] has produced. *)
Lemma single_add_agrees_with_batch_of_one_witness :
  trim "http://new.example/feed" = "http://new.example/feed" ∧
  acceptable "http://new.example/feed" = true ∧
  subscribed (feeds one_feed) "http://new.example/feed" = false ∧
  0 < length (ParsedFeed.items Demo.sample_feed) ∧
  ∃ b,
    run (addFeedsBatch one_feed ["http://new.example/feed"] true)
        [Fulfilled 0 Demo.sample_feed "id-1" 1000 (Examples.clock 1000); Return]
      = Some b ∧
    returned b = Some (Results 1 0 0 []) ∧
    progress b = [(1, 1)] ∧
    state b = with_new_feed.
Proof.
  assert (trim "http://new.example/feed" = "http://new.example/feed")
    as Htrim by reflexivity.
  assert (acceptable "http://new.example/feed" = true) as Hacc by reflexivity.
  assert (subscribed (feeds one_feed) "http://new.example/feed" = false)
    as Hsub by reflexivity.
  assert (0 < length (ParsedFeed.items Demo.sample_feed)) as Hpos
    by (cbn; lia).
  split_and!; [exact Htrim|exact Hacc|exact Hsub|exact Hpos|].
  destruct (single_add_agrees_with_batch_of_one one_feed
              "http://new.example/feed" Demo.sample_feed "id-1" 1000
              (Examples.clock 1000) true Htrim Hacc Hsub Hpos)
    as (b & Hrun & Hret & Hprog & Hadd).
  exists b. split_and!; [exact Hrun|exact Hret|exact Hprog|].
  unfold with_new_feed. by rewrite Hadd.
Defined.

(** The cancelled import: the feed committed before the cancel stays,
    and the two workers that hear the abort and the return add
    nothing. *)
Lemma nothing_published_after_cancel_witness :
  aborted cancelled_import = true ∧
  RSSFeed.id <$> feeds (state cancelled_import) = ["id-1"; "old"] ∧
  ∃ b,
    run cancelled_import [AbortHeard 1; AbortHeard 2; Return] = Some b ∧
    state b = state cancelled_import ∧
    success (res b) = success (res cancelled_import) ∧
    calls b = calls cancelled_import ∧
    progress b = progress cancelled_import.
Proof.
  assert (aborted cancelled_import = true) as Ha by reflexivity.
  split_and!; [exact Ha|reflexivity|].
  destruct (run cancelled_import [AbortHeard 1; AbortHeard 2; Return])
    as [b|] eqn:Hrun; [|vm_compute in Hrun; discriminate].
  exists b. split; [reflexivity|].
  destruct (nothing_published_after_cancel cancelled_import _ b Ha Hrun)
    as (Hstate & Hsuccess & Hcalls & Hprogress & _).
  split_and!; [exact Hstate|exact Hsuccess|exact Hcalls|exact Hprogress].
Defined.

(** The import of the six URLs of [import_list]: two successes, three
    failures with an error string each, one skipped. *)
Lemma results_account_for_every_url_witness :
  ∃ b,
    run import_start import_run = Some b ∧
    returned b
      = Some (Results 2 3 1
                [ "ftp://files.example/feed: 只支持 HTTP 和 HTTPS 协议";
                  "not a url: URL 格式无效";
                  "http://third.example/feed: 请求超时" ]) ∧
    length (errors (res b)) = failed (res b) ∧
    success (res b) + failed (res b) + skipped (res b) = length import_list.
Proof.
  destruct (run import_start import_run) as [b|] eqn:Hrun;
    [|vm_compute in Hrun; discriminate].
  exists b. split; [reflexivity|].
  destruct (results_account_for_every_url one_feed import_list true
              import_run b Hrun) as (Herrors & _ & Hall).
  assert (returned b
      = Some (Results 2 3 1
                [ "ftp://files.example/feed: 只支持 HTTP 和 HTTPS 协议";
                  "not a url: URL 格式无效";
                  "http://third.example/feed: 请求超时" ])) as Hret.
  { vm_compute in Hrun. injection Hrun as <-. reflexivity. }
  split_and!; [exact Hret|exact Herrors|].
  apply Hall; [by rewrite Hret|].
  vm_compute in Hrun. injection Hrun as <-. reflexivity.
Defined.

(** The same import: two feeds with two entries each in front of the
    feed that was there. *)
Lemma batch_publishes_whole_feeds_witness :
  ∃ b newFeeds newItems,
    run import_start import_run = Some b ∧
    feeds (state b) = newFeeds ++ feeds one_feed ∧
    items (state b) = newItems ++ items one_feed ∧
    length newFeeds = 2 ∧
    RSSFeed.id <$> feeds (state b) = ["id-2"; "id-1"; "old"] ∧
    RSSItem.feedId <$> newItems = ["id-2"; "id-2"; "id-1"; "id-1"] ∧
    Forall (λ i, RSSItem.feedId i ∈ RSSFeed.id <$> newFeeds ∧
                 RSSItem.isRead i = false ∧ RSSItem.isStarred i = false)
           newItems.
Proof.
  destruct (run import_start import_run) as [b|] eqn:Hrun;
    [|vm_compute in Hrun; discriminate].
  destruct (batch_publishes_whole_feeds one_feed import_list true
              import_run b Hrun)
    as (newFeeds & newItems & Hfeeds & Hitems & Hlen & _ & Hfresh & _).
  exists b, newFeeds, newItems.
  vm_compute in Hrun. injection Hrun as <-.
  split_and!; [reflexivity|exact Hfeeds|exact Hitems|exact Hlen|reflexivity|
               |exact Hfresh].
  cbn [state items one_feed] in Hitems. rewrite app_nil_r in Hitems.
  by rewrite <- Hitems.
Defined.

(** A list with a URL of another scheme, the URL already subscribed and
    a text that is no URL: the call returns at once, and no timer can
    fire afterwards. *)
Lemma no_candidate_no_work_witness :
  Forall (λ u, acceptable u = false ∨ subscribed (feeds one_feed) u = true)
         nothing_new ∧
  returned (addFeedsBatch one_feed nothing_new true)
    = Some (Results 0 2 1
              [ "ftp://files.example/feed: 只支持 HTTP 和 HTTPS 协议";
                "not a url: URL 格式无效" ]) ∧
  calls (addFeedsBatch one_feed nothing_new true) = [] ∧
  step (addFeedsBatch one_feed nothing_new true) (TimedOut 0) = None.
Proof.
  assert (Forall (λ u, acceptable u = false
                       ∨ subscribed (feeds one_feed) u = true) nothing_new)
    as Hall.
  { repeat (apply Forall_cons; split; [(by left) || (by right)|]).
    apply Forall_nil_2. }
  destruct (no_candidate_no_work one_feed nothing_new true Hall)
    as (_ & _ & _ & Hcalls & _ & _ & Hstep).
  split_and!; [exact Hall|reflexivity|exact Hcalls|apply Hstep].
Defined.



(** The site that serves a feed under [/rss] and [/atom]: what the
    resolver returns is what [tryParseUrl] extracts for one of the
    suffixes. *)
Lemma resolved_feed_was_fetched_and_has_entries_witness :
  parseRSSFeed Demo.site (reverse (seq 0 11)) " http://a.example/ "
    = Some (inr Demo.sample_feed) ∧
  0 < length (ParsedFeed.items Demo.sample_feed) ∧
  ParsedFeed.title Demo.sample_feed ≠ "" ∧
  ∃ suffix, suffix ∈ RSS_SUFFIXES ∧
    tryParseUrl Demo.site
      (strip_trailing_slash (trim " http://a.example/ ") +:+ suffix)
      = Some Demo.sample_feed.
Proof.
  assert (parseRSSFeed Demo.site (reverse (seq 0 11)) " http://a.example/ "
          = Some (inr Demo.sample_feed)) as Hparse by reflexivity.
  split; [exact Hparse|].
  exact (resolved_feed_was_fetched_and_has_entries Demo.site
           (reverse (seq 0 11)) " http://a.example/ " (inr Demo.sample_feed)
           Hparse).
Defined.

(** On the same site, the probe of [/rss] has completed and found the
    feed, the other ten have not: the call is still pending. *)
Lemma resolver_waits_for_every_probe_witness :
  (∀ direct,
     tryParseUrl Demo.site (strip_trailing_slash (trim "http://a.example"))
       = Some direct →
     length (ParsedFeed.items direct) = 0) ∧
  drop 1 RSS_SUFFIXES !! 2 = Some "/rss" ∧
  tryParseUrl Demo.site "http://a.example/rss" = Some Demo.sample_feed ∧
  0 < length (drop 1 RSS_SUFFIXES) ∧
  (0 ∉ [2]) ∧
  parseRSSFeed Demo.site [2] "http://a.example" = None.
Proof.
  assert (∀ direct,
     tryParseUrl Demo.site (strip_trailing_slash (trim "http://a.example"))
       = Some direct →
     length (ParsedFeed.items direct) = 0) as Hdirect.
  { intros direct Hd. vm_compute in Hd. discriminate. }
  assert (0 < length (drop 1 RSS_SUFFIXES)) as Hlt by (cbn; lia).
  assert (0 ∉ [2]) as Hnot.
  { intros [Heq|Hin]%elem_of_cons; [discriminate|by apply elem_of_nil in Hin]. }
  split_and!; [exact Hdirect|reflexivity|reflexivity|exact Hlt|exact Hnot|].
  exact (resolver_waits_for_every_probe Demo.site [2] "http://a.example" 0
           Hdirect Hlt Hnot).
Defined.

(** The address of the site with and without a trailing slash. *)
Lemma trailing_slash_is_ignored_witness :
  trim ("http://a.example" +:+ "/") = trim "http://a.example" +:+ "/" ∧
  strip_trailing_slash (trim "http://a.example") = trim "http://a.example" ∧
  strip_trailing_slash (trim ("http://a.example" +:+ "/"))
    = "http://a.example" ∧
  parseRSSFeed Demo.site (seq 0 11) ("http://a.example" +:+ "/")
    = parseRSSFeed Demo.site (seq 0 11) "http://a.example".
Proof.
  assert (trim ("http://a.example" +:+ "/") = trim "http://a.example" +:+ "/")
    as Htrim by reflexivity.
  assert (strip_trailing_slash (trim "http://a.example")
          = trim "http://a.example") as Hclean by reflexivity.
  destruct (trailing_slash_is_ignored Demo.site (seq 0 11) "http://a.example"
              Htrim) as [Hstrip Hsame].
  split_and!; [exact Htrim|exact Hclean|exact Hstrip|exact (Hsame Hclean)].
Defined.

(** Feed [f] holds two entries; the parse holds only the second
    article. After the refresh the first entry is gone and the entry of
    feed [g] is as before. *)
Lemma refresh_replaces_the_feed_entries_witness :
  ("f" ∈ RSSFeed.id <$> feeds Examples.distinct_links) ∧
  let st' := refreshFeed Examples.distinct_links "f"
               (inr (ParsedFeed.mk "Feed f" None
                       [Examples.article "Two" "http://a.example/2" "text two"]))
               (Examples.clock 2000) 2000 in
  RSSItem.link <$> entries_of "f" (items Examples.distinct_links)
    = ["http://a.example/1"; "http://a.example/2"] ∧
  RSSItem.link <$> entries_of "f" (items st') = ["http://a.example/2"] ∧
  entries_of "g" (items st') = entries_of "g" (items Examples.distinct_links).
Proof.
  assert ("f" ∈ RSSFeed.id <$> feeds Examples.distinct_links) as Hin.
  { apply elem_of_cons. by left. }
  split; [exact Hin|]. cbv zeta.
  destruct (refresh_replaces_the_feed_entries Examples.distinct_links "f"
              (ParsedFeed.mk "Feed f" None
                 [Examples.article "Two" "http://a.example/2" "text two"])
              (Examples.clock 2000) 2000 Hin) as (Hlinks & _ & Hothers & _).
  cbv zeta in Hlinks, Hothers.
  split_and!; [reflexivity|exact Hlinks|].
  apply Hothers. discriminate.
Defined.

(** The entry of feed [f] comes out of the refresh as read: the entry
    of feed [g] with the same link was read. *)
Lemma refresh_never_invents_flags_witness :
  ("f" ∈ RSSFeed.id <$> feeds Examples.two_feeds) ∧
  ∃ m,
    entries_of "f"
      (items (refreshFeed Examples.two_feeds "f"
                (inr (ParsedFeed.mk "Feed f" None Examples.shared_article))
                (Examples.clock 2000) 2000)) = [m] ∧
    RSSItem.isRead m = true ∧
    ∃ e, e ∈ items Examples.two_feeds ∧ RSSItem.link e = RSSItem.link m ∧
         RSSItem.isRead e = true.
Proof.
  assert ("f" ∈ RSSFeed.id <$> feeds Examples.two_feeds) as Hin.
  { apply elem_of_cons. right. apply elem_of_cons. by left. }
  split; [exact Hin|].
  destruct (entries_of "f"
      (items (refreshFeed Examples.two_feeds "f"
                (inr (ParsedFeed.mk "Feed f" None Examples.shared_article))
                (Examples.clock 2000) 2000))) as [|m [|m' rest]] eqn:Hentries;
    [vm_compute in Hentries; discriminate| |vm_compute in Hentries; discriminate].
  exists m. split; [reflexivity|].
  assert (RSSItem.isRead m = true) as Hread.
  { vm_compute in Hentries. by injection Hentries as <-. }
  split; [exact Hread|].
  apply (refresh_never_invents_flags Examples.two_feeds "f"
           (ParsedFeed.mk "Feed f" None Examples.shared_article)
           (Examples.clock 2000) 2000 m Hin); [|exact Hread].
  rewrite Hentries. apply elem_of_cons. by left.
Defined.

(** Two articles with the guid [post] converted at the same clock
    reading get the same id; the third, without guid, gets its position
    as key. *)
Lemma entry_ids_collide_only_on_same_key_witness :
  ∃ x y z,
    convertToRSSItems shared_guid "f" (Examples.clock 1000) !! 0 = Some x ∧
    convertToRSSItems shared_guid "f" (Examples.clock 1000) !! 1 = Some y ∧
    convertToRSSItems shared_guid "f" (Examples.clock 1000) !! 2 = Some z ∧
    RSSItem.id x = "f-post-1000" ∧
    RSSItem.id x = RSSItem.id y ∧
    RSSItem.id z = "f-2-1000".
Proof.
  destruct (convertToRSSItems shared_guid "f" (Examples.clock 1000) !! 0)
    as [x|] eqn:Hx; [|vm_compute in Hx; discriminate].
  destruct (convertToRSSItems shared_guid "f" (Examples.clock 1000) !! 1)
    as [y|] eqn:Hy; [|vm_compute in Hy; discriminate].
  destruct (convertToRSSItems shared_guid "f" (Examples.clock 1000) !! 2)
    as [z|] eqn:Hz; [|vm_compute in Hz; discriminate].
  exists x, y, z.
  destruct (shared_guid !! 0) as [a|] eqn:Ha; [|discriminate].
  destruct (shared_guid !! 1) as [b|] eqn:Hb; [|discriminate].
  destruct (entry_ids_collide_only_on_same_key shared_guid "f"
              (Examples.clock 1000) 0 1 a b x y Ha Hb Hx Hy)
    as [Hiff _]; [done|done|].
  split_and!; [reflexivity|reflexivity|reflexivity| | |].
  - vm_compute in Hx. by injection Hx as <-.
  - apply Hiff. injection Ha as <-. injection Hb as <-. by split.
  - vm_compute in Hz. by injection Hz as <-.
Defined.

(** Feeds [g] and [f] are refreshed; the refresh of [g] times out, that
    of [f] completes first. The entries of [g] are kept and the
    progress goes from 0 to 2 of 2. *)
Lemma refresh_all_keeps_feeds_and_failed_entries_witness :
  ∃ s,
    refreshAllFeeds Examples.two_feeds first_fails [[1; 0]] = Some s ∧
    RSSFeed.id <$> feeds (collections s) = ["g"; "f"] ∧
    settled_to (first_fails 0) = inl "请求超时" ∧
    entries_of "g" (items (collections s))
      = entries_of "g" (items Examples.two_feeds) ∧
    refreshProgress s = [Some (0, 2); Some (1, 2); Some (2, 2); None].
Proof.
  destruct (refreshAllFeeds Examples.two_feeds first_fails [[1; 0]])
    as [s|] eqn:Hall; [|vm_compute in Hall; discriminate].
  exists s. split; [reflexivity|].
  destruct (refresh_all_keeps_feeds_and_failed_entries Examples.two_feeds
              first_fails [[1; 0]] s Hall) as (Hids & _ & _ & _ & Hkeep & _).
  split_and!; [exact Hids|reflexivity| |].
  - apply Hkeep. intros [|[|i]] feed Hfeed Hid.
    + by exists "请求超时".
    + injection Hfeed as <-. discriminate.
    + discriminate.
  - vm_compute in Hall. by injection Hall as <-.
Defined.

(** Twelve feeds refreshed while offline, in a batch of ten and a batch
    of two, each completing back to front. *)
Lemma refresh_all_reports_every_feed_witness :
  (∀ k, CONCURRENT_REQUESTS * k < length (feeds twelve_feeds) →
     ∃ order, back_to_front !! k = Some order ∧
       order ≡ₚ seq 0 (CONCURRENT_REQUESTS
                        `min` (length (feeds twelve_feeds)
                               - CONCURRENT_REQUESTS * k))) ∧
  ∃ s,
    refreshAllFeeds twelve_feeds offline back_to_front = Some s ∧
    completedCount s = 12 ∧
    refreshProgress s
      = Some (0, 12) :: (Some <$> ((λ c, (c, 12)) <$> seq 1 12)) ++ [None].
Proof.
  assert (∀ k, CONCURRENT_REQUESTS * k < length (feeds twelve_feeds) →
     ∃ order, back_to_front !! k = Some order ∧
       order ≡ₚ seq 0 (CONCURRENT_REQUESTS
                        `min` (length (feeds twelve_feeds)
                               - CONCURRENT_REQUESTS * k))) as Horders.
  { intros [|[|k]] Hk.
    - eexists. split; [reflexivity|]. apply reverse_Permutation.
    - eexists. split; [reflexivity|]. apply perm_swap.
    - cbn in Hk. unfold CONCURRENT_REQUESTS in Hk. lia. }
  split; [exact Horders|].
  exact (refresh_all_reports_every_feed twelve_feeds offline back_to_front
           Horders).
Defined.

(** The second article of feed [f], unread, is opened from the unread
    view: it is the article shown afterwards, now read, and the unread
    view of the feed is empty. *)
Lemma selected_article_stays_in_view_witness :
  "f-1-800" ≠ "" ∧
  selectedItem (items Examples.distinct_links) (Some "f-1-800")
    = Some (Examples.entry "f-1-800" "f" "Two" "http://a.example/2"
              "text two" false true) ∧
  RSSItem.id <$> filteredItems (items Examples.distinct_links)
                   ViewMode.unread (Some "f") = ["f-1-800"] ∧
  selectedItem (handleSelectItem "f-1-800" (items Examples.distinct_links)).2
               (handleSelectItem "f-1-800" (items Examples.distinct_links)).1
    = Some (Examples.entry "f-1-800" "f" "Two" "http://a.example/2"
              "text two" true true) ∧
  filteredItems (handleSelectItem "f-1-800" (items Examples.distinct_links)).2
                ViewMode.unread (Some "f") = [].
Proof.
  assert ("f-1-800" ≠ "") as Hne by discriminate.
  assert (selectedItem (items Examples.distinct_links) (Some "f-1-800")
          = Some (Examples.entry "f-1-800" "f" "Two" "http://a.example/2"
                    "text two" false true)) as Hsel by reflexivity.
  destruct (selected_article_stays_in_view "f-1-800"
              (items Examples.distinct_links) _ Hne Hsel) as [Hshown _].
  split_and!; [exact Hne|exact Hsel|reflexivity|exact Hshown|reflexivity].
Defined.

(** The probes of the site completing front to back and back to
    front. *)
Lemma resolver_result_ignores_completion_order_witness :
  seq 0 11 ≡ₚ seq 0 (length (drop 1 RSS_SUFFIXES)) ∧
  reverse (seq 0 11) ≡ₚ seq 0 (length (drop 1 RSS_SUFFIXES)) ∧
  parseRSSFeed Demo.site (seq 0 11) "http://a.example"
    = Some (inr Demo.sample_feed) ∧
  parseRSSFeed Demo.site (seq 0 11) "http://a.example"
    = parseRSSFeed Demo.site (reverse (seq 0 11)) "http://a.example".
Proof.
  assert (seq 0 11 ≡ₚ seq 0 (length (drop 1 RSS_SUFFIXES))) as Hfront
    by reflexivity.
  assert (reverse (seq 0 11) ≡ₚ seq 0 (length (drop 1 RSS_SUFFIXES)))
    as Hback by apply reverse_Permutation.
  destruct (resolver_result_ignores_completion_order Demo.site (seq 0 11)
              (reverse (seq 0 11)) "http://a.example" Hfront Hback)
    as [_ Hsame].
  split_and!; [exact Hfront|exact Hback|reflexivity|exact Hsame].
Defined.

(** Twelve candidates, and the timers of the first two workers fire
    before any resolver has answered: the two workers move on to the
    last two candidates. Ten races are pending, twelve calls of
    [parseRSSFeed] have been made, and none of them has returned or
    thrown. *)
Lemma at_most_ten_races_pending_witness :
  ∃ b,
    run (addFeedsBatch (Store [] []) many_urls false) [TimedOut 0; TimedOut 1]
      = Some b ∧
    length (workers b) = 10 ∧
    waiting (workers b) = 10 ∧
    completed b = 2 ∧
    length (calls b) = 12 ∧
    filter (λ e, resolver_settled e = true) [TimedOut 0; TimedOut 1] = [].
Proof.
  destruct (run (addFeedsBatch (Store [] []) many_urls false)
              [TimedOut 0; TimedOut 1]) as [b|] eqn:Hrun;
    [|vm_compute in Hrun; discriminate].
  exists b. split; [reflexivity|].
  destruct (at_most_ten_races_pending (Store [] []) many_urls false
              [TimedOut 0; TimedOut 1] b Hrun)
    as (Hworkers & _ & Hcalls & Hdone).
  assert (waiting (workers b) = 10) as Hwaiting.
  { vm_compute in Hrun. by injection Hrun as <-. }
  assert (completed b = 2) as Hcompleted by exact Hdone.
  split_and!; [|exact Hwaiting|exact Hcompleted| |reflexivity].
  - rewrite Hworkers. vm_compute in Hrun. by injection Hrun as <-.
  - rewrite Hcalls, Hwaiting, Hcompleted. reflexivity.
Defined.

(** Feed [f] is removed while its refresh is running, and the resolver
    then returns its one article: the list of feeds holds [g] alone,
    and the collection an entry of [f] in front of the entry of [g]. *)
Lemma refresh_after_removal_leaves_orphans_witness :
  ("f" ∈ RSSFeed.id <$> feeds Examples.two_feeds) ∧
  0 < length Examples.shared_article ∧
  let removed := (removeFeed Examples.two_feeds None "f").1 in
  let st' := refreshFeed_later (feeds Examples.two_feeds) removed "f"
               (inr (ParsedFeed.mk "Feed f" None Examples.shared_article))
               (Examples.clock 2000) 2000 in
  RSSFeed.id <$> feeds removed = ["g"] ∧
  RSSItem.feedId <$> items removed = ["g"] ∧
  RSSFeed.id <$> feeds st' = ["g"] ∧
  RSSItem.feedId <$> items st' = ["f"; "g"] ∧
  ¬ owned st'.
Proof.
  assert ("f" ∈ RSSFeed.id <$> feeds Examples.two_feeds) as Hin.
  { apply elem_of_cons. right. apply elem_of_cons. by left. }
  assert (0 < length Examples.shared_article) as Hpos by (cbn; lia).
  split; [exact Hin|]. split; [exact Hpos|]. cbv zeta.
  destruct (refresh_after_removal_leaves_orphans (feeds Examples.two_feeds)
              Examples.two_feeds None "f"
              (ParsedFeed.mk "Feed f" None Examples.shared_article)
              (Examples.clock 2000) 2000 Hin Hpos)
    as (_ & _ & _ & _ & _ & _ & Horphans).
  split_and!; [reflexivity|reflexivity|reflexivity|reflexivity|exact Horphans].
Defined.

End MoreRuns.
